(** * dask.distributed.node: the asynchronous worker

    A shallow embedding of [src/dask/distributed/node.py] (class [Worker]
    and the module-level helpers it relies on) together with the
    properties of the worker's request/reply core.

    The embedding follows the source method by method.  Python objects
    are values of [pyval]; the Data Store ([self.data]) is an
    insertion-ordered association list; a method of [Worker] is a
    computation in the monad [M], which threads the node's state and ends
    by returning, by raising an exception, or by blocking for ever.
    Everything the module imports and does not define (the serializer,
    the task evaluator [dask.core.get], the clock, the random source, the
    peers on the network) is a field of the environment record [Env].
    Calls to [log] only write to a file and are left out; where the
    arguments of a [log] call can raise, their evaluation is kept.  The
    methods are run one pool job at a time; the last part of the model
    lets pool threads interleave inside the two send functions, at the
    granularity of lock operations and frames. *)

From Stdlib Require Import ZArith List String Ascii Bool Lia Arith.
From Stdlib Require Import DecimalString.
From Stdlib Require Import Floats.SpecFloat.
Import ListNotations.
Open Scope string_scope.
Open Scope list_scope.

Set Implicit Arguments.
Set Warnings "-register-all".

(** ** Python values *)

(** Python 2 [str]: frames on the wire, addresses and text alike. *)
Definition bytes := string.

Inductive pyval : Type :=
| VNone
| VBool (b : bool)
| VInt (n : Z)
| VFloat (f : spec_float)
| VStr (s : string)
| VTuple (items : list pyval)
| VList (items : list pyval)
| VDict (items : list (pyval * pyval))
| VExc (cls : string) (arg : pyval).

(** Double precision, the format of Python's [float]. *)
Definition float_sub (x y : spec_float) : spec_float := SFsub 53 1024 x y.

Definition spec_float_eq_dec (x y : spec_float) : {x = y} + {x <> y}.
Proof.
  decide equality; try apply Bool.bool_dec; try apply Z.eq_dec;
    apply Pos.eq_dec.
Defined.

(** Structural equality of values: the same constructors all the way
    down.  The serializer tables of the sample runs are searched with
    it; dictionaries compare their keys with [key_eqb] below. *)
Definition pyval_eq_dec : forall a b : pyval, {a = b} + {a <> b}.
Proof.
  fix IH 1.
  decide equality.
  - apply Bool.bool_dec.
  - apply Z.eq_dec.
  - apply spec_float_eq_dec.
  - apply string_dec.
  - apply (list_eq_dec IH).
  - apply (list_eq_dec IH).
  - apply list_eq_dec. decide equality.
  - apply string_dec.
Defined.

Definition pyval_eqb (a b : pyval) : bool :=
  if pyval_eq_dec a b then true else false.

(** *** Equality of dictionary keys

    A dictionary finds a key by its hash and [==].  Numbers are compared
    by value across [bool], [int] and [float] ([1 == True == 1.0],
    [0.0 == -0.0]); a NaN is equal to nothing, itself included; tuples
    are compared item by item; an exception object is equal only to
    itself, so that two copies that have come through the serializer are
    different keys.  [key_norm] gives a value the representative of its
    equality class, when it has one: numbers of integral value become
    that [int], other finite floats lose the trailing zero bits of their
    mantissa. *)
Fixpoint strip_zeros (m : positive) (e : Z) : positive * Z :=
  match m with
  | xO m' => if (e <? 0)%Z then strip_zeros m' (e + 1)%Z else (m, e)
  | _ => (m, e)
  end.

Definition float_norm (f : spec_float) : option pyval :=
  match f with
  | S754_zero _ => Some (VInt 0)
  | S754_infinity s => Some (VFloat (S754_infinity s))
  | S754_nan => None
  | S754_finite s m e =>
      let (m', e') := strip_zeros m e in
      if (0 <=? e')%Z
      then Some (VInt ((if s then Z.neg m' else Z.pos m') * 2 ^ e'))
      else Some (VFloat (S754_finite s m' e'))
  end.

Fixpoint key_norm (v : pyval) : option pyval :=
  match v with
  | VNone => Some VNone
  | VBool b => Some (VInt (if b then 1 else 0))
  | VInt n => Some (VInt n)
  | VFloat f => float_norm f
  | VStr s => Some (VStr s)
  | VTuple items =>
      match (fix norm_all (l : list pyval) : option (list pyval) :=
               match l with
               | [] => Some []
               | x :: rest =>
                   match key_norm x, norm_all rest with
                   | Some x', Some rest' => Some (x' :: rest')
                   | _, _ => None
                   end
               end) items with
      | Some items' => Some (VTuple items')
      | None => None
      end
  | VList _ | VDict _ | VExc _ _ => None
  end.

(** [a == b] for two keys. *)
Definition key_eqb (a b : pyval) : bool :=
  match key_norm a, key_norm b with
  | Some x, Some y => pyval_eqb x y
  | _, _ => false
  end.

(** [hash(v)] succeeds: lists and dictionaries are unhashable, a tuple is
    hashable when its items are. *)
Fixpoint hashable (v : pyval) : bool :=
  match v with
  | VList _ | VDict _ => false
  | VTuple items => forallb hashable items
  | _ => true
  end.

(** Truth value of an object, as tested by [if reply]. *)
Definition truthy (v : pyval) : bool :=
  match v with
  | VNone => false
  | VBool b => b
  | VInt n => negb (Z.eqb n 0)
  | VFloat (S754_zero _) => false
  | VFloat _ => true
  | VStr s => negb (String.eqb s "")
  | VTuple [] | VList [] | VDict [] => false
  | _ => true
  end.

(** What a [raise] carries: an instance of an exception class.  As a
    value (the [e] of [except ... as e]) it is [VExc cls arg]. *)
Inductive exn : Type :=
| Exc (cls : string) (arg : pyval).

Definition exn_value (e : exn) : pyval :=
  match e with
  | Exc cls arg => VExc cls arg
  end.

(** Exceptions raised by the interpreter and the libraries. *)
Definition KeyError (k : pyval) : exn := Exc "KeyError" k.
Definition TypeError (msg : string) : exn := Exc "TypeError" (VStr msg).
Definition AttributeError (msg : string) : exn :=
  Exc "AttributeError" (VStr msg).
Definition ValueError (msg : string) : exn := Exc "ValueError" (VStr msg).
Definition IndexError (msg : string) : exn := Exc "IndexError" (VStr msg).
Definition NameError (msg : string) : exn := Exc "NameError" (VStr msg).
Definition ZMQError (msg : string) : exn := Exc "ZMQError" (VStr msg).
Definition AssertionError : exn := Exc "AssertionError" (VTuple []).

(** [isinstance(e, Exception)]: every class of the model but the ones
    that derive from [BaseException] directly.  These are what
    [except Exception] lets through. *)
Definition is_Exception (e : exn) : bool :=
  match e with
  | Exc cls _ =>
      negb (existsb (String.eqb cls)
              ["BaseException"; "SystemExit"; "KeyboardInterrupt";
               "GeneratorExit"])
  end.

(** [isinstance(e, KeyError)] for the exception classes of the model. *)
Definition is_KeyError (e : exn) : bool :=
  match e with
  | Exc cls _ => String.eqb cls "KeyError"
  end.

(** ** Dictionaries *)

(** A [dict] keeps one entry per key, in insertion order; keys are
    found by [key_eqb]. *)
Definition store := list (pyval * pyval).

Fixpoint dict_lookup (k : pyval) (d : store) : option pyval :=
  match d with
  | [] => None
  | (k', v) :: d' => if key_eqb k' k then Some v else dict_lookup k d'
  end.

Definition dict_mem (k : pyval) (d : store) : bool :=
  match dict_lookup k d with Some _ => true | None => false end.

(** [d[k] = v]: overwrite in place, or add at the end. *)
Fixpoint dict_set (k v : pyval) (d : store) : store :=
  match d with
  | [] => [(k, v)]
  | (k', v') :: d' =>
      if key_eqb k' k then (k', v) :: d' else (k', v') :: dict_set k v d'
  end.

(** [del d[k]] for a key that is present. *)
Fixpoint dict_del (k : pyval) (d : store) : store :=
  match d with
  | [] => []
  | (k', v') :: d' =>
      if key_eqb k' k then d' else (k', v') :: dict_del k d'
  end.

(** ** Outcomes *)

(** How a call ends: it returns, it raises, or it never comes back (a
    blocking receive that is not answered). *)
Inductive outcome (A : Type) : Type :=
| Ret (a : A)
| Raise (e : exn)
| Hang.

Arguments Ret {A} a.
Arguments Raise {A} e.
Arguments Hang {A}.

Definition obind {A B : Type} (c : outcome A) (k : A -> outcome B)
  : outcome B :=
  match c with
  | Ret a => k a
  | Raise e => Raise e
  | Hang => Hang
  end.

Notation "x <~ c1 ;; c2" := (obind c1 (fun x => c2))
  (at level 61, c1 at next level, right associativity).

(** [v.get(k, default)]: only dictionaries reach the worker's [get]
    calls without an [AttributeError]. *)
Definition py_get (v : pyval) (k : string) (default : pyval) : outcome pyval :=
  match v with
  | VDict d =>
      match dict_lookup (VStr k) d with
      | Some x => Ret x
      | None => Ret default
      end
  | _ => Raise (AttributeError "object has no attribute 'get'")
  end.

(** [v[k]] for a string key [k]: a dictionary answers or raises
    [KeyError]; no other value of the model can be indexed by a string. *)
Definition py_getitem (v : pyval) (k : string) : outcome pyval :=
  match v with
  | VDict d =>
      match dict_lookup (VStr k) d with
      | Some x => Ret x
      | None => Raise (KeyError (VStr k))
      end
  | _ => Raise (TypeError "indices must be integers")
  end.

(** ** The environment *)

Record Env : Type := {
  (** the serializer handed to the constructor *)
  dumps : pyval -> outcome bytes;
  loads : bytes -> outcome pyval;
  (** [dask.core.get(data, task)] *)
  dask_get : store -> pyval -> outcome pyval;
  (** the n-th reading of [time()] *)
  now : nat -> spec_float;
  (** the n-th draw of the random source behind [random.choice] *)
  draw : nat -> nat;
  (** what the n-th socket opened by [collect] receives from the peer it
      was connected to, after the given request; [None]: nothing, ever *)
  peer_reply : nat -> string -> list bytes -> option (list bytes);
  (** [connect] and [bind] accept the endpoint *)
  connect_ok : string -> bool;
  bind_ok : string -> bool;
  (** [socket.gethostname()] *)
  gethostname : string;
  (** [str(v)] for a value that is not a string *)
  py_str : pyval -> string
}.

(** ** The node *)

(** Where a reply goes: [self.send_to_scheduler], or
    [self.send_to_worker(address)] for the peer the request came from. *)
Inductive sender : Type :=
| SendToScheduler
| SendToWorker (peer : bytes).

(** The arguments of one [self.pool.apply_async(self.execute_and_reply,
    args=(func, args, kwargs, jobid, send))]. *)
Record job : Type := {
  job_func : pyval;
  job_args : list pyval;
  job_kwargs : pyval;
  job_jobid : pyval;
  job_send : option sender
}.

(** A socket opened by [collect]: the peer it is connected to and the
    request sent on it. *)
Record peer_sock : Type := {
  sock_id : nat;
  sock_peer : string;
  sock_sent : list bytes
}.

(** The attributes of a [Worker] that the methods read and write, the
    traffic it has produced and the jobs it has handed to the pool (most
    recent first), the address its ROUTER socket is bound to, the number
    of polling threads started, and how far it has read the clock and
    the random source. *)
Record node : Type := {
  data : store;
  address : string;
  scheduler : string;
  status : string;
  dealer_out : list (list bytes);
  router_out : list (list bytes);
  peer_socks : list peer_sock;
  submitted : list job;
  bound : option string;
  listeners : nat;
  clock_tick : nat;
  rand_tick : nat
}.

Definition set_data (d : store) (w : node) : node :=
  {| data := d; address := address w; scheduler := scheduler w;
     status := status w; dealer_out := dealer_out w;
     router_out := router_out w; peer_socks := peer_socks w;
     submitted := submitted w; bound := bound w; listeners := listeners w;
     clock_tick := clock_tick w; rand_tick := rand_tick w |}.

Definition set_address (a : string) (w : node) : node :=
  {| data := data w; address := a; scheduler := scheduler w;
     status := status w; dealer_out := dealer_out w;
     router_out := router_out w; peer_socks := peer_socks w;
     submitted := submitted w; bound := bound w; listeners := listeners w;
     clock_tick := clock_tick w; rand_tick := rand_tick w |}.

Definition set_status (s : string) (w : node) : node :=
  {| data := data w; address := address w; scheduler := scheduler w;
     status := s; dealer_out := dealer_out w; router_out := router_out w;
     peer_socks := peer_socks w; submitted := submitted w;
     bound := bound w; listeners := listeners w;
     clock_tick := clock_tick w; rand_tick := rand_tick w |}.

Definition push_dealer (m : list bytes) (w : node) : node :=
  {| data := data w; address := address w; scheduler := scheduler w;
     status := status w; dealer_out := m :: dealer_out w;
     router_out := router_out w; peer_socks := peer_socks w;
     submitted := submitted w; bound := bound w; listeners := listeners w;
     clock_tick := clock_tick w; rand_tick := rand_tick w |}.

Definition push_router (m : list bytes) (w : node) : node :=
  {| data := data w; address := address w; scheduler := scheduler w;
     status := status w; dealer_out := dealer_out w;
     router_out := m :: router_out w; peer_socks := peer_socks w;
     submitted := submitted w; bound := bound w; listeners := listeners w;
     clock_tick := clock_tick w; rand_tick := rand_tick w |}.

Definition push_sock (s : peer_sock) (w : node) : node :=
  {| data := data w; address := address w; scheduler := scheduler w;
     status := status w; dealer_out := dealer_out w;
     router_out := router_out w; peer_socks := s :: peer_socks w;
     submitted := submitted w; bound := bound w; listeners := listeners w;
     clock_tick := clock_tick w; rand_tick := rand_tick w |}.

Definition push_job (j : job) (w : node) : node :=
  {| data := data w; address := address w; scheduler := scheduler w;
     status := status w; dealer_out := dealer_out w;
     router_out := router_out w; peer_socks := peer_socks w;
     submitted := j :: submitted w; bound := bound w;
     listeners := listeners w; clock_tick := clock_tick w;
     rand_tick := rand_tick w |}.

Definition set_bound (a : string) (w : node) : node :=
  {| data := data w; address := address w; scheduler := scheduler w;
     status := status w; dealer_out := dealer_out w;
     router_out := router_out w; peer_socks := peer_socks w;
     submitted := submitted w; bound := Some a; listeners := listeners w;
     clock_tick := clock_tick w; rand_tick := rand_tick w |}.

Definition start_listener (w : node) : node :=
  {| data := data w; address := address w; scheduler := scheduler w;
     status := status w; dealer_out := dealer_out w;
     router_out := router_out w; peer_socks := peer_socks w;
     submitted := submitted w; bound := bound w;
     listeners := S (listeners w); clock_tick := clock_tick w;
     rand_tick := rand_tick w |}.

Definition tick_clock (w : node) : node :=
  {| data := data w; address := address w; scheduler := scheduler w;
     status := status w; dealer_out := dealer_out w;
     router_out := router_out w; peer_socks := peer_socks w;
     submitted := submitted w; bound := bound w; listeners := listeners w;
     clock_tick := S (clock_tick w); rand_tick := rand_tick w |}.

Definition tick_rand (w : node) : node :=
  {| data := data w; address := address w; scheduler := scheduler w;
     status := status w; dealer_out := dealer_out w;
     router_out := router_out w; peer_socks := peer_socks w;
     submitted := submitted w; bound := bound w; listeners := listeners w;
     clock_tick := clock_tick w; rand_tick := S (rand_tick w) |}.

(** ** The monad of the methods *)

Definition M (A : Type) : Type := node -> outcome A * node.

Definition ret {A : Type} (a : A) : M A := fun w => (Ret a, w).
Definition raise {A : Type} (e : exn) : M A := fun w => (Raise e, w).
Definition hang {A : Type} : M A := fun w => (Hang, w).
Definition lift {A : Type} (c : outcome A) : M A := fun w => (c, w).

Definition bind {A B : Type} (c : M A) (k : A -> M B) : M B :=
  fun w =>
    match c w with
    | (Ret a, w') => k a w'
    | (Raise e, w') => (Raise e, w')
    | (Hang, w') => (Hang, w')
    end.

Notation "x <- c1 ;; c2" := (bind c1 (fun x => c2))
  (at level 61, c1 at next level, right associativity).
Notation "' p <- c1 ;; c2" := (bind c1 (fun x => match x with p => c2 end))
  (at level 61, p pattern, c1 at next level, right associativity).
Notation "c1 ;; c2" := (bind c1 (fun _ => c2))
  (at level 61, right associativity).

Definition get_node : M node := fun w => (Ret w, w).
Definition modify (f : node -> node) : M unit := fun w => (Ret tt, f w).

(** [try: c except Exception as e: ...]: an exception that is an
    [Exception] becomes a value; any other one ([SystemExit], say) goes
    on, and a call that never returns is not caught. *)
Definition attempt {A : Type} (c : M A) : M (A + exn) :=
  fun w =>
    match c w with
    | (Ret a, w') => (Ret (inl a), w')
    | (Raise e, w') =>
        if is_Exception e then (Ret (inr e), w') else (Raise e, w')
    | (Hang, w') => (Hang, w')
    end.

(** ** Calling conventions *)

(** [**kwargs] needs a mapping whose keys are strings. *)
Fixpoint kwargs_items (items : list (pyval * pyval))
  : outcome (list (string * pyval)) :=
  match items with
  | [] => Ret []
  | (VStr k, v) :: rest => r <~ kwargs_items rest ;; Ret ((k, v) :: r)
  | _ :: _ => Raise (TypeError "keywords must be strings")
  end.

Definition as_kwargs (kwargs : pyval) : outcome (list (string * pyval)) :=
  match kwargs with
  | VDict items => kwargs_items items
  | _ => Raise (TypeError "argument after ** must be a mapping")
  end.

Fixpoint assoc_str (k : string) (l : list (string * pyval)) : option pyval :=
  match l with
  | [] => None
  | (k', v) :: rest => if String.eqb k' k then Some v else assoc_str k rest
  end.

Fixpoint keyword_values (names : list string) (kwargs : list (string * pyval))
  : outcome (list pyval) :=
  match names with
  | [] => Ret []
  | n :: rest =>
      match assoc_str n kwargs with
      | Some v => vs <~ keyword_values rest kwargs ;; Ret (v :: vs)
      | None => Raise (TypeError "missing argument")
      end
  end.

(** Binding of the actual arguments to the parameters of a function
    written in Python: positional arguments first, the remaining
    parameters by keyword. *)
Definition bind_params (params : list string) (args : list pyval)
    (kwargs : list (string * pyval)) : outcome (list pyval) :=
  if Nat.ltb (List.length params) (List.length args)
  then Raise (TypeError "too many arguments")
  else
    let rest := skipn (List.length args) params in
    if existsb (fun kv => negb (existsb (String.eqb (fst kv)) rest)) kwargs
    then Raise (TypeError "unexpected keyword argument")
    else vs <~ keyword_values rest kwargs ;; Ret (args ++ vs).

(** ** The methods of [Worker] *)

Section Worker.

Variable E : Env.

(** *** The Data Store: [self.data.__getitem__] and friends *)

Definition getitem (k : pyval) : M pyval :=
  fun w =>
    if hashable k then
      match dict_lookup k (data w) with
      | Some v => (Ret v, w)
      | None => (Raise (KeyError k), w)
      end
    else (Raise (TypeError "unhashable type"), w).

Definition setitem (k v : pyval) : M pyval :=
  fun w =>
    if hashable k then (Ret VNone, set_data (dict_set k v (data w)) w)
    else (Raise (TypeError "unhashable type"), w).

Definition delitem (k : pyval) : M pyval :=
  fun w =>
    if hashable k then
      match dict_lookup k (data w) with
      | Some _ => (Ret VNone, set_data (dict_del k (data w)) w)
      | None => (Raise (KeyError k), w)
      end
    else (Raise (TypeError "unhashable type"), w).

(** [key in self.data] *)
Definition contains (k : pyval) : M bool :=
  fun w =>
    if hashable k then (Ret (dict_mem k (data w)), w)
    else (Raise (TypeError "unhashable type"), w).

(** *** The clock and the random source *)

Definition time : M spec_float :=
  fun w => (Ret (now E (clock_tick w)), tick_clock w).

(** [random.choice(seq)] is [seq[int(random() * len(seq))]]. *)
Definition choice (seq : pyval) : M pyval :=
  fun w =>
    let i (n : nat) := Nat.modulo (draw E (rand_tick w)) n in
    match seq with
    | VList [] | VTuple [] | VStr EmptyString | VDict [] =>
        (Raise (IndexError "index out of range"), w)
    | VList items | VTuple items =>
        (Ret (nth (i (List.length items)) items VNone), tick_rand w)
    | VStr s =>
        (Ret (VStr (substring (i (String.length s)) 1 s)), tick_rand w)
    | VDict d =>
        let k := VInt (Z.of_nat (i (List.length d))) in
        match dict_lookup k d with
        | Some v => (Ret v, tick_rand w)
        | None => (Raise (KeyError k), tick_rand w)
        end
    | _ => (Raise (TypeError "object has no len()"), w)
    end.

(** *** [collect] *)

(** [locations.items()] *)
Definition py_items (v : pyval) : outcome (list (pyval * pyval)) :=
  match v with
  | VDict items => Ret items
  | _ => Raise (AttributeError "object has no attribute 'items'")
  end.

(** [sock.connect(peer)] *)
Definition connect (peer : pyval) : M string :=
  match peer with
  | VStr a =>
      if connect_ok E a then ret a
      else raise (ZMQError "Invalid argument")
  | _ => raise (TypeError "expected str")
  end.

Definition request_header (self_address : string) (key : pyval) : pyval :=
  VDict [(VStr "address", VStr self_address); (VStr "jobid", key)].

Definition request_payload (key : pyval) : pyval :=
  VDict [(VStr "function", VStr "getitem"); (VStr "args", VTuple [key])].

(** [sock.send_multipart(frames)] on a fresh DEALER socket. *)
Definition send_request (peer : string) (frames : list bytes) : M peer_sock :=
  fun w =>
    let s := {| sock_id := List.length (peer_socks w); sock_peer := peer;
                sock_sent := frames |} in
    (Ret s, push_sock s w).

(** First loop (lines 239-249): one request per key that is not held
    locally. *)
Fixpoint collect_send (items : list (pyval * pyval)) (socks : list peer_sock)
  : M (list peer_sock) :=
  match items with
  | [] => ret socks
  | (key, locs) :: rest =>
      present <- contains key ;;
      if (present : bool) then collect_send rest socks
      else
        peer <- choice locs ;;
        a <- connect peer ;;
        w <- get_node ;;
        hb <- lift (dumps E (request_header (address w) key)) ;;
        pb <- lift (dumps E (request_payload key)) ;;
        sock <- send_request a [hb; pb] ;;
        collect_send rest (socks ++ [sock])
  end.

(** [sock.recv_multipart()]: blocks until the peer answers. *)
Definition recv (s : peer_sock) : M (list bytes) :=
  match peer_reply E (sock_id s) (sock_peer s) (sock_sent s) with
  | Some frames => ret frames
  | None => hang
  end.

(** Second loop (lines 253-259): every reply is stored under the job
    identifier of its own header.  The arguments of the [log] call are
    evaluated, so a header without ['address'] raises. *)
Fixpoint collect_recv (socks : list peer_sock) : M unit :=
  match socks with
  | [] => ret tt
  | s :: rest =>
      frames <- recv s ;;
      match frames with
      | [h; p] =>
          header <- lift (loads E h) ;;
          payload <- lift (loads E p) ;;
          _ <- lift (py_getitem header "address") ;;
          _ <- lift (py_getitem header "jobid") ;;
          jobid <- lift (py_getitem header "jobid") ;;
          _ <- setitem jobid payload ;;
          collect_recv rest
      | _ => raise (ValueError "wrong number of values to unpack")
      end
  end.

Definition collect (locations : pyval) : M pyval :=
  items <- lift (py_items locations) ;;
  socks <- collect_send items [] ;;
  _ <- collect_recv socks ;;
  ret VNone.

(** *** [compute] *)

Definition outcome_record (key : pyval) (duration : spec_float)
    (st : pyval) : pyval :=
  VDict [(VStr "key", key); (VStr "duration", VFloat duration);
         (VStr "status", st)].

Definition compute (key task locations : pyval) : M pyval :=
  _ <- collect locations ;;
  start <- time ;;
  r <- attempt (w <- get_node ;;
                result <- lift (dask_get E (data w) task) ;;
                stop <- time ;;
                ret (result, stop)) ;;
  match r with
  | inl (result, stop) =>
      _ <- setitem key result ;;
      ret (outcome_record key (float_sub stop start) (VStr "OK"))
  | inr e =>
      stop <- time ;;
      ret (outcome_record key (float_sub stop start) (exn_value e))
  end.

(** [status()], at the end of the module *)
Definition status_function : M pyval := ret (VStr "OK").

(** *** The Function Registry *)

Inductive handler : Type :=
| HStatus | HCollect | HCompute | HGetitem | HSetitem | HDelitem.

(** [self.functions] (lines 77-82) *)
Definition functions : list (string * handler) :=
  [("status", HStatus); ("collect", HCollect); ("compute", HCompute);
   ("getitem", HGetitem); ("setitem", HSetitem); ("delitem", HDelitem)].

Fixpoint assoc_handler (name : string) (l : list (string * handler))
  : option handler :=
  match l with
  | [] => None
  | (n, h) :: rest => if String.eqb n name then Some h
                      else assoc_handler name rest
  end.

(** [self.functions[func]] *)
Definition functions_getitem (func : pyval) : outcome handler :=
  if hashable func then
    match func with
    | VStr name =>
        match assoc_handler name functions with
        | Some h => Ret h
        | None => Raise (KeyError func)
        end
    | _ => Raise (KeyError func)
    end
  else Raise (TypeError "unhashable type").

(** [func in self.functions] *)
Definition functions_contains (func : pyval) : outcome bool :=
  if hashable func then
    match func with
    | VStr name =>
        match assoc_handler name functions with
        | Some _ => Ret true
        | None => Ret false
        end
    | _ => Ret false
    end
  else Raise (TypeError "unhashable type").

(** The call of a registry entry on the unpacked positional and keyword
    arguments, for each entry.  The
    three dictionary methods are slot wrappers: exactly their positional
    arguments and no keyword. *)
Definition invoke (h : handler) (args : list pyval)
    (kw : list (string * pyval)) : M pyval :=
  match h with
  | HStatus =>
      _ <- lift (bind_params [] args kw) ;;
      status_function
  | HCollect =>
      vs <- lift (bind_params ["locations"] args kw) ;;
      match vs with
      | [locations] => collect locations
      | _ => raise (TypeError "collect() takes exactly 2 arguments")
      end
  | HCompute =>
      vs <- lift (bind_params ["key"; "task"; "locations"] args kw) ;;
      match vs with
      | [key; task; locations] => compute key task locations
      | _ => raise (TypeError "compute() takes exactly 4 arguments")
      end
  | HGetitem =>
      match kw, args with
      | [], [k] => getitem k
      | [], _ => raise (TypeError "expected 1 arguments")
      | _, _ => raise (TypeError "wrapper takes no keyword arguments")
      end
  | HSetitem =>
      match kw, args with
      | [], [k; v] => setitem k v
      | [], _ => raise (TypeError "expected 2 arguments")
      | _, _ => raise (TypeError "wrapper takes no keyword arguments")
      end
  | HDelitem =>
      match kw, args with
      | [], [k] => delitem k
      | [], _ => raise (TypeError "expected 1 arguments")
      | _, _ => raise (TypeError "wrapper takes no keyword arguments")
      end
  end.

(** *** [execute_and_reply] *)

(** The body of the [try] (lines 104-105). *)
Definition call_function (func : pyval) (args : list pyval) (kwargs : pyval)
  : M pyval :=
  function <- lift (functions_getitem func) ;;
  kw <- lift (as_kwargs kwargs) ;;
  invoke function args kw.

(** ['Function %s not found' % func]: a tuple on the right of [%] is
    taken as the argument list. *)
Definition str (v : pyval) : string :=
  match v with
  | VStr s => s
  | _ => py_str E v
  end.

Definition not_found_status (func : pyval) : outcome string :=
  match func with
  | VTuple [] =>
      Raise (TypeError "not enough arguments for format string")
  | VTuple [x] => Ret ("Function " ++ str x ++ " not found")%string
  | VTuple _ =>
      Raise (TypeError "not all arguments converted during string formatting")
  | _ => Ret ("Function " ++ str func ++ " not found")%string
  end.

(** The [try] statement (lines 103-115): the status and the result. *)
Definition run_function (func : pyval) (args : list pyval) (kwargs : pyval)
  : M (string * pyval) :=
  r <- attempt (call_function func args kwargs) ;;
  match r with
  | inl result => ret ("OK", result)
  | inr e =>
      if is_KeyError e then
        known <- lift (functions_contains func) ;;
        if (known : bool) then ret ("Error", exn_value e)
        else st <- lift (not_found_status func) ;; ret (st, exn_value e)
      else ret ("Error", exn_value e)
  end.

(** [{'jobid': jobid, 'status': status}] *)
Definition reply_header (jobid : pyval) (st : string) : store :=
  [(VStr "jobid", jobid); (VStr "status", VStr st)].

(** [send_to_scheduler] (lines 126-131) and [send_to_worker] (lines
    133-140): stamp the address, serialize, and send in one multipart
    message while holding [self.lock]. *)
Definition send_to_scheduler (header : store) (payload : pyval) : M unit :=
  w <- get_node ;;
  let header := dict_set (VStr "address") (VStr (address w)) header in
  hb <- lift (dumps E (VDict header)) ;;
  pb <- lift (dumps E payload) ;;
  modify (push_dealer [hb; pb]).

Definition send_to_worker (peer : bytes) (header : store) (result : pyval)
  : M unit :=
  w <- get_node ;;
  let header := dict_set (VStr "address") (VStr (address w)) header in
  hb <- lift (dumps E (VDict header)) ;;
  pb <- lift (dumps E result) ;;
  modify (push_router [peer; hb; pb]).

Definition send_via (s : sender) : store -> pyval -> M unit :=
  match s with
  | SendToScheduler => send_to_scheduler
  | SendToWorker peer => send_to_worker peer
  end.

Definition execute_and_reply (func : pyval) (args : list pyval)
    (kwargs jobid : pyval) (send : option sender) : M unit :=
  ' (st, result) <- run_function func args kwargs ;;
  let header := reply_header jobid st in
  match send with
  | Some s => send_via s header result
  | None => ret tt
  end.

(** *** [unpack_function] *)

Definition unpack_function (header payload : bytes)
  : outcome (pyval * list pyval * pyval * pyval * pyval) :=
  payload <~ loads E payload ;;
  header <~ loads E header ;;
  jobid <~ py_get header "jobid" VNone ;;
  reply <~ py_get header "reply" (VBool true) ;;
  func <~ py_getitem payload "function" ;;
  args <~ py_get payload "args" (VTuple []) ;;
  let args := match args with
              | VTuple items => items
              | _ => [args]
              end in
  kwargs <~ py_get payload "kwargs" (VDict []) ;;
  Ret (func, args, kwargs, jobid, reply).

(** *** The polling loops and the pool *)

(** What one turn of a polling loop meets once it has found the status
    not to be ['closed']: the poll times out; a multipart message has
    arrived; the poll times out and another thread has called [close()]
    by then; or a message has arrived and another thread has called
    [close()] since the status was tested, so that the message is
    handled with the status already ['closed'].  In that last case
    [accepted] tells whether the pool still takes the job, [close()] not
    having reached [self.pool.close()] yet, or [apply_async] fails on
    the closed pool. *)
Inductive event : Type :=
| Timeout
| Incoming (frames : list bytes)
| Closing
| IncomingAtClose (frames : list bytes) (accepted : bool).

(** [close] (lines 292-297) as the polling loops see it: the status
    becomes ['closed']. *)
Definition close : M unit := modify (set_status "closed").

Definition submit (func : pyval) (args : list pyval) (kwargs jobid : pyval)
    (send : option sender) : M unit :=
  modify (push_job {| job_func := func; job_args := args;
                      job_kwargs := kwargs; job_jobid := jobid;
                      job_send := send |}).

(** [apply_async] while [close()] is under way: it asserts that the pool
    is running. *)
Definition submit_at_close (accepted : bool) (func : pyval)
    (args : list pyval) (kwargs jobid : pyval) (send : option sender)
  : M unit :=
  if accepted then submit func args kwargs jobid send
  else raise AssertionError.

(** [listen_to_scheduler] (lines 194-206), over the events of an
    observation; the loop is still polling when the events run out.  An
    exception that leaves the body ends the loop and its thread. *)
Fixpoint listen_to_scheduler (events : list event) : M unit :=
  match events with
  | [] => ret tt
  | ev :: rest =>
      w <- get_node ;;
      if String.eqb (status w) "closed" then ret tt
      else
        match ev with
        | Timeout => listen_to_scheduler rest
        | Closing => close ;; listen_to_scheduler rest
        | Incoming [header; payload] =>
            ' (func, args, kwargs, jobid, reply)
              <- lift (unpack_function header payload) ;;
            submit func args kwargs jobid
              (if truthy reply then Some SendToScheduler else None) ;;
            listen_to_scheduler rest
        | Incoming _ => raise (ValueError "wrong number of values to unpack")
        | IncomingAtClose [header; payload] accepted =>
            close ;;
            ' (func, args, kwargs, jobid, reply)
              <- lift (unpack_function header payload) ;;
            submit_at_close accepted func args kwargs jobid
              (if truthy reply then Some SendToScheduler else None) ;;
            listen_to_scheduler rest
        | IncomingAtClose _ _ =>
            close ;; raise (ValueError "wrong number of values to unpack")
        end
  end.

(** [listen_to_workers] (lines 209-221): the first frame is the peer's
    identity; the header is decoded once more for the [log] call, which
    reads its ['address']. *)
Fixpoint listen_to_workers (events : list event) : M unit :=
  match events with
  | [] => ret tt
  | ev :: rest =>
      w <- get_node ;;
      if String.eqb (status w) "closed" then ret tt
      else
        match ev with
        | Timeout => listen_to_workers rest
        | Closing => close ;; listen_to_workers rest
        | Incoming [peer; header; payload] =>
            ' (func, args, kwargs, jobid, reply)
              <- lift (unpack_function header payload) ;;
            header' <- lift (loads E header) ;;
            _ <- lift (py_getitem header' "address") ;;
            submit func args kwargs jobid
              (if truthy reply then Some (SendToWorker peer) else None) ;;
            listen_to_workers rest
        | Incoming _ => raise (ValueError "wrong number of values to unpack")
        | IncomingAtClose [peer; header; payload] accepted =>
            close ;;
            ' (func, args, kwargs, jobid, reply)
              <- lift (unpack_function header payload) ;;
            header' <- lift (loads E header) ;;
            _ <- lift (py_getitem header' "address") ;;
            submit_at_close accepted func args kwargs jobid
              (if truthy reply then Some (SendToWorker peer) else None) ;;
            listen_to_workers rest
        | IncomingAtClose _ _ =>
            close ;; raise (ValueError "wrong number of values to unpack")
        end
  end.

(** A pool thread runs one job; what [execute_and_reply] returns or
    raises stays in the job's unread [AsyncResult]. *)
Definition run_job (j : job) (w : node) : node :=
  snd (execute_and_reply (job_func j) (job_args j) (job_kwargs j)
         (job_jobid j) (job_send j) w).

(** Jobs completing one after the other, in the order of the list. *)
Definition run_pool (jobs : list job) (w : node) : node :=
  fold_left (fun w j => run_job j w) jobs w.

(** *** [__init__] *)

(** The names bound at module level: the imports (lines 3-18) and the
    definitions of the module. *)
Definition module_globals : list string :=
  ["print_function"; "ComputeNode"; "Thread"; "Lock"; "ThreadPool";
   "contextmanager"; "uuid"; "random"; "multiprocessing"; "zmq"; "dask";
   "partial"; "get"; "curry"; "time"; "sys"; "dumps"; "loads";
   "HIGHEST_PROTOCOL"; "DEBUG"; "context"; "f"; "log"; "logerrors";
   "Worker"; "status"].

(** Reading a global name that is neither bound in the module nor a
    builtin. *)
Definition load_global (name : string) : M unit :=
  if existsb (String.eqb name) module_globals then ret tt
  else raise (NameError ("global name '" ++ name ++ "' is not defined")%string).

(** ['%d' % port] *)
Definition decimal (n : Z) : string := NilZero.string_of_int (Z.to_int n).

(** The attributes set by lines 52-58. *)
Definition new_node (scheduler_address : string) (d : store) : node :=
  {| data := d; address := ""; scheduler := scheduler_address;
     status := "run"; dealer_out := []; router_out := []; peer_socks := [];
     submitted := []; bound := None; listeners := 0; clock_tick := 0;
     rand_tick := 0 |}.

(** [setsockopt(zmq.IDENTITY, address)] accepts an identity of 1 to 255
    bytes. *)
Definition identity_ok (a : string) : bool :=
  Nat.leb 1 (String.length a) && Nat.leb (String.length a) 255.

(** Lines 59-87: the address, the DEALER socket with its identity and
    its registration, the ROUTER socket, the two polling threads. *)
Definition init_body (addr : option string) (port : option Z) : M unit :=
  a <- match addr with
       | Some a => ret a
       | None =>
           let port := match port with Some p => p | None => 6464%Z end in
           load_global "socket" ;;
           ret ("tcp://" ++ gethostname E ++ ":" ++ decimal port)%string
       end ;;
  modify (set_address a) ;;
  (if identity_ok a then ret tt
   else raise (ZMQError "Invalid argument")) ;;
  w <- get_node ;;
  (if connect_ok E (scheduler w) then ret tt
   else raise (ZMQError "Invalid argument")) ;;
  modify (push_dealer [""; "Register"]) ;;
  (if bind_ok E a then modify (set_bound a)
   else raise (ZMQError "Address already in use")) ;;
  modify start_listener ;;
  modify start_listener.

Definition init (scheduler_address : string) (d : store)
    (addr : option string) (port : option Z) : outcome unit * node :=
  init_body addr port (new_node scheduler_address d).

End Worker.

(** ** Observations on the traffic *)

(** [quiet c]: running [c] leaves the traffic of the DEALER and of the
    ROUTER socket as it was, however [c] ends. *)
Definition quiet {A : Type} (c : M A) : Prop :=
  forall w, dealer_out (snd (c w)) = dealer_out w
            /\ router_out (snd (c w)) = router_out w.

(** The node once the two frames of a reply have gone out through the
    sender [s]. *)
Definition push_reply (s : sender) (hb pb : bytes) (w : node) : node :=
  match s with
  | SendToScheduler => push_dealer [hb; pb] w
  | SendToWorker peer => push_router [peer; hb; pb] w
  end.

(** The message a job has put on its channel when [execute_and_reply]
    returned for it. *)
Definition reply_of (E : Env) (j : job) (w : node) : option (list bytes) :=
  match execute_and_reply E (job_func j) (job_args j) (job_kwargs j)
          (job_jobid j) (job_send j) w with
  | (Ret _, w') =>
      match job_send j with
      | Some SendToScheduler => hd_error (dealer_out w')
      | Some (SendToWorker _) => hd_error (router_out w')
      | None => None
      end
  | _ => None
  end.

(** ** Observations on [collect] *)

(** The socket [s] carries the [getitem] request that [collect] sends for
    the key [k] from the node at [self_address]. *)
Definition is_request_for (E : Env) (self_address : string) (k : pyval)
    (s : peer_sock) : Prop :=
  exists hb pb,
    dumps E (request_header self_address k) = Ret hb
    /\ dumps E (request_payload k) = Ret pb
    /\ sock_sent s = [hb; pb].

(** Peers keep to the correlation rule of [execute_and_reply]: the header
    of the reply to a request carries the job identifier of that
    request. *)
Definition peers_echo_jobid (E : Env) : Prop :=
  forall (n : nat) (peer self_address : string) (k : pyval)
         (hb pb h p : bytes) (hv j : pyval),
    dumps E (request_header self_address k) = Ret hb ->
    dumps E (request_payload k) = Ret pb ->
    peer_reply E n peer [hb; pb] = Some [h; p] ->
    loads E h = Ret hv ->
    py_getitem hv "jobid" = Ret j ->
    j = k.

(** The reply read from the socket [s] decodes to the job identifier [j]
    and the value [v]. *)
Definition fetched_from (E : Env) (s : peer_sock) (jv : pyval * pyval)
  : Prop :=
  exists h p hv,
    peer_reply E (sock_id s) (sock_peer s) (sock_sent s) = Some [h; p]
    /\ loads E h = Ret hv
    /\ py_getitem hv "jobid" = Ret (fst jv)
    /\ loads E p = Ret (snd jv).

(** The socket [s] carries the request for a key of [items] that the
    store [d] does not hold. *)
Definition requested (E : Env) (items : store) (d : store) (a : string)
    (s : peer_sock) : Prop :=
  exists k locs,
    In (k, locs) items /\ dict_mem k d = false /\ is_request_for E a k s.

(** The store, the address and the sockets of [w'] are those of [w]. *)
Definition same_node (w w' : node) : Prop :=
  data w' = data w /\ address w' = address w /\ peer_socks w' = peer_socks w.

(** A serializer that reads back what it has written. *)
Definition serializer_round_trip (E : Env) : Prop :=
  forall v b, dumps E v = Ret b -> loads E b = Ret v.

(** The answer of a peer that runs this very module: the node [pw],
    running, receives the request on its ROUTER socket from the sender
    [identity], hands it to its pool and sends the reply; the sender's
    DEALER socket receives the frames that follow the identity. *)
Definition worker_reply (E : Env) (pw : node) (identity : bytes)
    (request : list bytes) : option (list bytes) :=
  match listen_to_workers E [Incoming (identity :: request)] pw with
  | (Ret _, w1) =>
      match submitted w1 with
      | j :: _ =>
          match reply_of E j w1 with
          | Some (_ :: frames) => Some frames
          | _ => None
          end
      | [] => None
      end
  | _ => None
  end.

(** The store after the assignments [d[j] = v], in order. *)
Definition store_all (fetched : list (pyval * pyval)) (d : store) : store :=
  fold_left (fun d jv => dict_set (fst jv) (snd jv) d) fetched d.

(** ** A table-driven serializer and a sample environment

    The serializer is a parameter of the worker.  For runs on concrete
    inputs, a finite table pairs the byte strings with the values they
    stand for; anything else fails to encode or to decode. *)

Definition codec := list (bytes * pyval).

Fixpoint table_dumps (t : codec) (v : pyval) : outcome bytes :=
  match t with
  | [] => Raise (Exc "PicklingError" v)
  | (b, v') :: rest => if pyval_eqb v' v then Ret b else table_dumps rest v
  end.

Fixpoint table_loads (t : codec) (b : bytes) : outcome pyval :=
  match t with
  | [] => Raise (Exc "UnpicklingError" (VStr "invalid load key"))
  | (b', v) :: rest => if String.eqb b' b then Ret v else table_loads rest b
  end.

(** The float of a natural number, for clock readings. *)
Definition float_of_nat (n : nat) : spec_float :=
  binary_normalize 53 1024 (Z.of_nat n) 0 false.

Definition sample_env (t : codec) (eval : store -> pyval -> outcome pyval)
    (peers : nat -> string -> list bytes -> option (list bytes)) : Env :=
  {| dumps := table_dumps t; loads := table_loads t; dask_get := eval;
     now := float_of_nat; draw := fun _ => 0; peer_reply := peers;
     connect_ok := fun _ => true; bind_ok := fun _ => true;
     gethostname := "localhost"; py_str := fun _ => "<object>" |}.

(** A node that is up and running at [tcp://alice:5000]. *)
Definition sample_node (d : store) : node :=
  {| data := d; address := "tcp://alice:5000";
     scheduler := "tcp://scheduler:4000"; status := "run";
     dealer_out := [[""; "Register"]]; router_out := []; peer_socks := [];
     submitted := []; bound := Some "tcp://alice:5000"; listeners := 2;
     clock_tick := 0; rand_tick := 0 |}.


(** The byte strings of the sample runs. *)
Definition sample_codec : codec :=
  [("H:job7", VDict [(VStr "jobid", VInt 7)]);
   ("H:job7,noreply", VDict [(VStr "address", VStr "tcp://bob:5000");
                             (VStr "jobid", VInt 7);
                             (VStr "reply", VBool false)]);
   ("P:getitem(x)", VDict [(VStr "function", VStr "getitem");
                           (VStr "args", VStr "x")]);
   ("P:frobnicate()", VDict [(VStr "function", VStr "frobnicate")]);
   ("P:setitem[x,10]", VDict [(VStr "function", VStr "setitem");
                              (VStr "args", VList [VStr "x"; VInt 10])]);
   ("P:setitem(x,10)", VDict [(VStr "function", VStr "setitem");
                              (VStr "args", VTuple [VStr "x"; VInt 10])]);
   ("R:job7,Error",
    VDict [(VStr "jobid", VInt 7); (VStr "status", VStr "Error");
           (VStr "address", VStr "tcp://alice:5000")]);
   ("R:job7,OK",
    VDict [(VStr "jobid", VInt 7); (VStr "status", VStr "OK");
           (VStr "address", VStr "tcp://alice:5000")]);
   ("KeyError(x)", VExc "KeyError" (VStr "x"));
   ("None", VNone);
   ("Q:alice,y", VDict [(VStr "address", VStr "tcp://alice:5000");
                        (VStr "jobid", VStr "y")]);
   ("P:getitem(y,)", VDict [(VStr "function", VStr "getitem");
                            (VStr "args", VTuple [VStr "y"])]);
   ("R:bob,y,OK", VDict [(VStr "jobid", VStr "y"); (VStr "status", VStr "OK");
                         (VStr "address", VStr "tcp://bob:5000")]);
   ("2", VInt 2);
   ("Q:alice,z", VDict [(VStr "address", VStr "tcp://alice:5000");
                        (VStr "jobid", VStr "z")]);
   ("P:getitem(z,)", VDict [(VStr "function", VStr "getitem");
                            (VStr "args", VTuple [VStr "z"])]);
   ("R:bob,z,OK", VDict [(VStr "jobid", VStr "z"); (VStr "status", VStr "OK");
                         (VStr "address", VStr "tcp://bob:5000")]);
   ("42", VInt 42)].

(** An evaluator for the sample runs: a task that is a key of the store
    evaluates to the value held there, anything else fails. *)
Definition lookup_evaluator (d : store) (task : pyval) : outcome pyval :=
  match dict_lookup task d with
  | Some v => Ret v
  | None => Raise (KeyError task)
  end.

(** The peer at [tcp://bob:5000] holds [y = 2] and [z = 42] and answers
    the requests of [tcp://alice:5000] for them. *)
Definition bob_peers (n : nat) (peer : string) (request : list bytes)
  : option (list bytes) :=
  match request with
  | [hb; pb] =>
      if String.eqb hb "Q:alice,y" && String.eqb pb "P:getitem(y,)"
      then Some ["R:bob,y,OK"; "2"]
      else if String.eqb hb "Q:alice,z" && String.eqb pb "P:getitem(z,)"
      then Some ["R:bob,z,OK"; "42"]
      else None
  | _ => None
  end.

Definition sample_E : Env := sample_env sample_codec lookup_evaluator bob_peers.

(** A peer that does not keep to the correlation rule: asked for [y], it
    answers [666] under the job identifier [x]. *)
Definition liar_codec : codec :=
  ("R:bob,x,OK", VDict [(VStr "jobid", VStr "x"); (VStr "status", VStr "OK");
                        (VStr "address", VStr "tcp://bob:5000")])
  :: ("666", VInt 666) :: sample_codec.

Definition liar_peers (n : nat) (peer : string) (request : list bytes)
  : option (list bytes) :=
  match request with
  | [hb; pb] =>
      if String.eqb hb "Q:alice,y" && String.eqb pb "P:getitem(y,)"
      then Some ["R:bob,x,OK"; "666"]
      else None
  | _ => None
  end.

Definition liar_E : Env := sample_env liar_codec lookup_evaluator liar_peers.

(** An evaluator whose task ends the interpreter: [sys.exit(1)]. *)
Definition exit_evaluator (d : store) (task : pyval) : outcome pyval :=
  Raise (Exc "SystemExit" (VInt 1)).

Definition exit_E : Env := sample_env sample_codec exit_evaluator bob_peers.

(** ** Pool threads sending at the same time *)

(** The two sockets of the node that replies are written to. *)
Inductive channel : Type := Dealer | Router.

(** The locks of a [Worker]: the constructor creates one, [self.lock]
    (line 75). *)
Inductive lock : Type := SelfLock.

(** What a thread does inside a send function: the [with] statement
    acquires and releases, and [send_multipart] writes the frames of the
    message one after the other. *)
Inductive instr : Type :=
| Acquire (l : lock)
| SendFrame (c : channel) (f : bytes)
| Release (l : lock).

(** The lock named by the [with] statement of each send function (lines
    129 and 137). *)
Definition send_lock (s : sender) : lock :=
  match s with
  | SendToScheduler => SelfLock
  | SendToWorker _ => SelfLock
  end.

Definition send_channel (s : sender) : channel :=
  match s with
  | SendToScheduler => Dealer
  | SendToWorker _ => Router
  end.

(** A reply on its way out: the sink and the serialized header and
    result. *)
Record outgoing : Type := {
  out_send : sender;
  out_header : bytes;
  out_result : bytes
}.

Definition send_frames (m : outgoing) : list bytes :=
  match out_send m with
  | SendToScheduler => [out_header m; out_result m]
  | SendToWorker peer => [peer; out_header m; out_result m]
  end.

Definition send_steps (m : outgoing) : list instr :=
  Acquire (send_lock (out_send m))
    :: map (SendFrame (send_channel (out_send m))) (send_frames m)
    ++ [Release (send_lock (out_send m))].

(** Thread [i] of the pool sends the [i]-th message.  The state of the
    threads: who holds each lock, how many steps each thread has taken,
    and the frames written so far, each with its thread and its socket,
    most recent first. *)
Record pool_state : Type := {
  holder : lock -> option nat;
  pc : nat -> nat;
  wire : list (nat * channel * bytes)
}.

Definition pool_start : pool_state :=
  {| holder := fun _ => None; pc := fun _ => 0; wire := [] |}.

Definition advance (i : nat) (p : nat -> nat) : nat -> nat :=
  fun j => if Nat.eqb j i then S (p j) else p j.

Definition lock_eqb (a b : lock) : bool :=
  match a, b with
  | SelfLock, SelfLock => true
  end.

Definition set_holder (l : lock) (h : option nat) (f : lock -> option nat)
  : lock -> option nat :=
  fun l' => if lock_eqb l' l then h else f l'.

(** One step of thread [i]; [None] when the thread is blocked on a lock
    that is held, or has finished. *)
Definition pool_step (msgs : list outgoing) (i : nat) (s : pool_state)
  : option pool_state :=
  match nth_error msgs i with
  | None => None
  | Some m =>
      match nth_error (send_steps m) (pc s i) with
      | None => None
      | Some (Acquire l) =>
          match holder s l with
          | None => Some {| holder := set_holder l (Some i) (holder s);
                            pc := advance i (pc s); wire := wire s |}
          | Some _ => None
          end
      | Some (SendFrame c f) =>
          Some {| holder := holder s; pc := advance i (pc s);
                  wire := (i, c, f) :: wire s |}
      | Some (Release l) =>
          match holder s l with
          | Some _ => Some {| holder := set_holder l None (holder s);
                              pc := advance i (pc s); wire := wire s |}
          | None => None
          end
      end
  end.

(** The threads scheduled in the order of [schedule]; the turn of a
    thread that cannot move is lost. *)
Definition pool_run (msgs : list outgoing) (schedule : list nat)
  : pool_state :=
  fold_left (fun s i => match pool_step msgs i s with
                        | Some s' => s'
                        | None => s
                        end) schedule pool_start.

(** Thread [i] is inside its send: it has acquired and not yet
    released. *)
Definition sending (msgs : list outgoing) (s : pool_state) (i : nat) : bool :=
  match nth_error msgs i with
  | Some m =>
      Nat.leb 1 (pc s i)
      && Nat.leb (pc s i) (S (List.length (send_frames m)))
  | None => false
  end.

(** The frames of the [i]-th message as they appear on the wire. *)
Definition wire_frames (msgs : list outgoing) (i : nat)
  : list (nat * channel * bytes) :=
  match nth_error msgs i with
  | Some m => map (fun f => (i, send_channel (out_send m), f)) (send_frames m)
  | None => []
  end.

(** The frames that the holder of [self.lock] has written of its
    message. *)
Definition partial_frames (msgs : list outgoing) (s : pool_state)
  : list (nat * channel * bytes) :=
  match holder s SelfLock with
  | Some h => firstn (pc s h - 1) (wire_frames msgs h)
  | None => []
  end.

(** What holds of every state the threads can reach. *)
Definition pool_inv (msgs : list outgoing) (s : pool_state) : Prop :=
  (forall i, holder s SelfLock = Some i <-> sending msgs s i = true)
  /\ exists done,
      rev (wire s) = flat_map (wire_frames msgs) done ++ partial_frames msgs s.

(** ** Further observations *)

(** The keys of a dictionary are pairwise different: no two entries
    have keys that are equal. *)
Fixpoint unique_keys (d : store) : Prop :=
  match d with
  | [] => True
  | (k, _) :: rest =>
      Forall (fun kv => key_eqb k (fst kv) = false) rest /\ unique_keys rest
  end.

(** A second table for the sample runs: an empty header, and the
    requests of [tcp://alice:5000] for [x], which no sample peer
    answers. *)
Definition silent_codec : codec :=
  [("H:empty", VDict []);
   ("Q:alice,x", VDict [(VStr "address", VStr "tcp://alice:5000");
                        (VStr "jobid", VStr "x")]);
   ("P:getitem(x,)", VDict [(VStr "function", VStr "getitem");
                            (VStr "args", VTuple [VStr "x"])])]
  ++ sample_codec.

Definition silent_E : Env := sample_env silent_codec lookup_evaluator bob_peers.

(** The turns of a polling loop in which [close()] has been called. *)
Definition closes (ev : event) : bool :=
  match ev with
  | Closing | IncomingAtClose _ _ => true
  | Timeout | Incoming _ => false
  end.

(** [preserves f c]: running [c] leaves the component [f] of the node
    as it was, however [c] ends. *)
Definition preserves {A X : Type} (f : node -> X) (c : M A) : Prop :=
  forall w, f (snd (c w)) = f w.

(** An environment in which the listening address is taken. *)
Definition busy_E : Env :=
  {| dumps := dumps sample_E; loads := loads sample_E;
     dask_get := dask_get sample_E; now := now sample_E;
     draw := draw sample_E; peer_reply := peer_reply sample_E;
     connect_ok := connect_ok sample_E; bind_ok := fun _ => false;
     gethostname := gethostname sample_E; py_str := py_str sample_E |}.

(** Thread [i] has run its send to the end. *)
Definition finished (msgs : list outgoing) (s : pool_state) (i : nat) : bool :=
  match nth_error msgs i with
  | Some m => Nat.eqb (pc s i) (List.length (send_steps m))
  | None => false
  end.

(** What holds, besides [pool_inv], of every state the threads can
    reach: no thread is past the end of its send, and the whole messages
    on the wire are those of the threads that have finished, once
    each. *)
Definition pool_inv_done (msgs : list outgoing) (s : pool_state) : Prop :=
  (forall i m, nth_error msgs i = Some m ->
               pc s i <= List.length (send_steps m))
  /\ exists done,
      NoDup done
      /\ (forall i, In i done <-> finished msgs s i = true)
      /\ rev (wire s)
         = flat_map (wire_frames msgs) done ++ partial_frames msgs s.

(** Two nodes that use the same serializer. *)
Definition same_serializer (E E' : Env) : Prop :=
  (forall v, dumps E' v = dumps E v) /\ (forall b, loads E' b = loads E b).

(** The status and the result of [getitem] for the key [k] on the store
    [d]. *)
Definition getitem_outcome (k : pyval) (d : store) : string * pyval :=
  match dict_lookup k d with
  | Some v => ("OK", v)
  | None => ("Error", VExc "KeyError" k)
  end.

(** A second sample node, at [tcp://bob:5000], and the environment of
    [tcp://alice:5000] when its peers are that node, reached under the
    socket identity [alice-1]. *)
Definition bob_node (d : store) : node :=
  {| data := d; address := "tcp://bob:5000";
     scheduler := "tcp://scheduler:4000"; status := "run";
     dealer_out := [[""; "Register"]]; router_out := []; peer_socks := [];
     submitted := []; bound := Some "tcp://bob:5000"; listeners := 2;
     clock_tick := 0; rand_tick := 0 |}.

Definition alice_E (d : store) : Env :=
  sample_env sample_codec lookup_evaluator
    (fun _ _ request => worker_reply sample_E (bob_node d) "alice-1" request).

(** No byte string occurs twice in the list. *)
Fixpoint distinct (l : list string) : bool :=
  match l with
  | [] => true
  | x :: rest => negb (existsb (String.eqb x) rest) && distinct rest
  end.

(** * Properties *)

(** ** Equality of values and dictionary lookups *)

Lemma pyval_eqb_true (a b : pyval) : pyval_eqb a b = true <-> a = b.
Proof. unfold pyval_eqb. destruct (pyval_eq_dec a b); split; congruence. Qed.

Lemma pyval_eqb_refl (a : pyval) : pyval_eqb a a = true.
Proof. now apply pyval_eqb_true. Qed.

Lemma pyval_eqb_false (a b : pyval) : pyval_eqb a b = false <-> a <> b.
Proof. unfold pyval_eqb. destruct (pyval_eq_dec a b); split; congruence. Qed.

Example eqb_test :
  pyval_eqb (VTuple [VStr "x"; VInt 0]) (VTuple [VStr "x"; VInt 0]) = true.
Proof. vm_compute. reflexivity. Qed.

(** [key_eqb] is a partial equivalence: symmetric and transitive, and
    reflexive on the values that have a representative. *)
Lemma key_eqb_norm (a b : pyval) :
  key_eqb a b = true -> key_norm a = key_norm b.
Proof.
  unfold key_eqb.
  destruct (key_norm a) as [x | ], (key_norm b) as [y | ]; try discriminate.
  intro H. apply pyval_eqb_true in H. now subst.
Qed.

Lemma key_eqb_sym (a b : pyval) : key_eqb a b = key_eqb b a.
Proof.
  unfold key_eqb.
  destruct (key_norm a) as [x | ], (key_norm b) as [y | ]; try reflexivity.
  unfold pyval_eqb.
  destruct (pyval_eq_dec x y), (pyval_eq_dec y x); congruence.
Qed.

Lemma key_eqb_left (a b c : pyval) :
  key_eqb a b = true -> key_eqb a c = key_eqb b c.
Proof. intro H. unfold key_eqb. now rewrite (key_eqb_norm _ _ H). Qed.

Lemma key_eqb_right (a b c : pyval) :
  key_eqb a b = true -> key_eqb c a = key_eqb c b.
Proof. intro H. unfold key_eqb. now rewrite (key_eqb_norm _ _ H). Qed.

Lemma key_eqb_trans (a b c : pyval) :
  key_eqb a b = true -> key_eqb b c = true -> key_eqb a c = true.
Proof. intros Hab Hbc. now rewrite (key_eqb_left _ _ c Hab). Qed.

Lemma key_eqb_self (a b : pyval) : key_eqb a b = true -> key_eqb a a = true.
Proof. intro H. now rewrite (key_eqb_right _ _ a H). Qed.

Lemma key_eqb_str (a b : string) :
  key_eqb (VStr a) (VStr b) = true <-> a = b.
Proof.
  unfold key_eqb. simpl. rewrite pyval_eqb_true. split; congruence.
Qed.

Lemma key_eqb_str_refl (a : string) : key_eqb (VStr a) (VStr a) = true.
Proof. now apply key_eqb_str. Qed.

Example key_eqb_numbers :
  key_eqb (VInt 1) (VBool true) = true
  /\ key_eqb (VInt 1) (VFloat (S754_finite false 4503599627370496 (-52))) = true
  /\ key_eqb (VFloat (S754_zero true)) (VBool false) = true
  /\ key_eqb (VFloat S754_nan) (VFloat S754_nan) = false
  /\ key_eqb (VTuple [VStr "x"; VInt 0]) (VTuple [VStr "x"; VBool false]) = true
  /\ key_eqb (VInt 1) (VStr "1") = false.
Proof. vm_compute. repeat split. Qed.

Lemma dict_lookup_eqv (a b : pyval) (d : store) :
  key_eqb a b = true -> dict_lookup a d = dict_lookup b d.
Proof.
  intro H. induction d as [ | [k v] d IH]; simpl; [reflexivity | ].
  rewrite (key_eqb_right _ _ k H). now rewrite IH.
Qed.

Lemma dict_mem_eqv (a b : pyval) (d : store) :
  key_eqb a b = true -> dict_mem a d = dict_mem b d.
Proof. intro H. unfold dict_mem. now rewrite (dict_lookup_eqv _ _ d H). Qed.

Lemma dict_lookup_set_eqv k k' v d :
  key_eqb k' k = true -> dict_lookup k (dict_set k' v d) = Some v.
Proof.
  intro H. induction d as [ | [k0 v0] d IH]; simpl.
  - now rewrite H.
  - destruct (key_eqb k0 k') eqn:Hk; simpl.
    + now rewrite <- (key_eqb_right _ _ k0 H), Hk.
    + now rewrite <- (key_eqb_right _ _ k0 H), Hk.
Qed.

Lemma dict_lookup_set_same k v d :
  key_eqb k k = true -> dict_lookup k (dict_set k v d) = Some v.
Proof. apply dict_lookup_set_eqv. Qed.

Lemma dict_lookup_set_other k k' v d :
  key_eqb k' k = false -> dict_lookup k (dict_set k' v d) = dict_lookup k d.
Proof.
  intro Hne. induction d as [ | [k0 v0] d IH]; simpl.
  - now rewrite Hne.
  - destruct (key_eqb k0 k') eqn:Hk; simpl.
    + now rewrite (key_eqb_left _ _ k Hk), Hne.
    + now rewrite IH.
Qed.

Lemma dict_mem_set k k' v d :
  dict_mem k d = true -> dict_mem k (dict_set k' v d) = true.
Proof.
  unfold dict_mem. intro H.
  destruct (key_eqb k' k) eqn:Hk.
  - now rewrite dict_lookup_set_eqv.
  - now rewrite dict_lookup_set_other.
Qed.

(** Two keys of which one is in the dictionary and the other is not are
    different keys. *)
Lemma dict_mem_differ k k' d :
  dict_mem k d = true -> dict_mem k' d = false -> key_eqb k' k = false.
Proof.
  intros Hk Hk'. destruct (key_eqb k' k) eqn:He; [ | reflexivity].
  rewrite (dict_mem_eqv _ _ d He) in Hk'. congruence.
Qed.

Lemma store_all_app l1 l2 d :
  store_all (l1 ++ l2) d = store_all l2 (store_all l1 d).
Proof. unfold store_all. apply fold_left_app. Qed.

Lemma store_all_lookup_other k fetched : forall d,
  Forall (fun jv => key_eqb (fst jv) k = false) fetched ->
  dict_lookup k (store_all fetched d) = dict_lookup k d.
Proof.
  induction fetched as [ | [j v] rest IH]; intros d Hn; simpl.
  - reflexivity.
  - inversion Hn as [ | ? ? Hj Hrest]; subst. simpl in Hj.
    unfold store_all in *. simpl. rewrite IH by assumption.
    now apply dict_lookup_set_other.
Qed.

Lemma store_all_lookup_last k v before after d :
  key_eqb k k = true ->
  Forall (fun jv => key_eqb (fst jv) k = false) after ->
  dict_lookup k (store_all (before ++ (k, v) :: after) d) = Some v.
Proof.
  intros Hk Hn. rewrite store_all_app. unfold store_all at 1. simpl.
  fold (store_all after (dict_set k v (store_all before d))).
  rewrite store_all_lookup_other by assumption.
  now apply dict_lookup_set_same.
Qed.

(** ** Steps that send nothing on the node's two channels *)

Lemma quiet_ret {A : Type} (a : A) : quiet (ret a).
Proof. intro w. now split. Qed.

Lemma quiet_raise {A : Type} (e : exn) : quiet (@raise A e).
Proof. intro w. now split. Qed.

Lemma quiet_hang {A : Type} : quiet (@hang A).
Proof. intro w. now split. Qed.

Lemma quiet_lift {A : Type} (c : outcome A) : quiet (lift c).
Proof. intro w. now split. Qed.

Lemma quiet_get_node : quiet get_node.
Proof. intro w. now split. Qed.

Lemma quiet_bind {A B : Type} (c : M A) (k : A -> M B) :
  quiet c -> (forall a, quiet (k a)) -> quiet (bind c k).
Proof.
  intros Hc Hk w. unfold bind.
  destruct (Hc w) as [Hd Hr].
  destruct (c w) as [[a | e |] w1]; simpl in *.
  - destruct (Hk a w1) as [Hd' Hr']. split; congruence.
  - now split.
  - now split.
Qed.

Lemma quiet_attempt {A : Type} (c : M A) : quiet c -> quiet (attempt c).
Proof.
  intros Hc w. unfold attempt. specialize (Hc w).
  destruct (c w) as [[a | e |] w1]; try exact Hc.
  destruct (is_Exception e); exact Hc.
Qed.

Lemma quiet_modify (f : node -> node) :
  (forall w, dealer_out (f w) = dealer_out w) ->
  (forall w, router_out (f w) = router_out w) ->
  quiet (modify f).
Proof. intros Hd Hr w. simpl. auto. Qed.

Create HintDb quiet.
#[local] Hint Resolve quiet_ret quiet_raise quiet_hang quiet_lift
  quiet_get_node quiet_attempt : quiet.

Ltac quiet_step :=
  first
    [ apply quiet_bind; [ | intro ]
    | apply quiet_modify; reflexivity
    | solve [ auto with quiet ] ].

Section Quiet.

Variable E : Env.

Lemma quiet_getitem k : quiet (getitem k).
Proof.
  intro w. unfold getitem.
  destruct (hashable k); [destruct (dict_lookup k (data w)) | ]; now split.
Qed.

Lemma quiet_setitem k v : quiet (setitem k v).
Proof. intro w. unfold setitem. destruct (hashable k); now split. Qed.

Lemma quiet_delitem k : quiet (delitem k).
Proof.
  intro w. unfold delitem.
  destruct (hashable k); [destruct (dict_lookup k (data w)) | ]; now split.
Qed.

Lemma quiet_contains k : quiet (contains k).
Proof. intro w. unfold contains. destruct (hashable k); now split. Qed.

Lemma quiet_time : quiet (time E).
Proof. intro w. now split. Qed.

Lemma quiet_choice seq : quiet (choice E seq).
Proof.
  intro w. unfold choice.
  destruct seq as [ | | | | s | items | items | d | ]; try now split.
  - destruct s; now split.
  - destruct items; now split.
  - destruct items; now split.
  - destruct d; [now split | ].
    match goal with |- context [dict_lookup ?k ?d] =>
      destruct (dict_lookup k d) end; now split.
Qed.

Lemma quiet_connect peer : quiet (connect E peer).
Proof.
  unfold connect. destruct peer; auto with quiet.
  destruct (connect_ok E s); auto with quiet.
Qed.

Lemma quiet_send_request peer frames : quiet (send_request peer frames).
Proof. intro w. now split. Qed.

Lemma quiet_recv s : quiet (recv E s).
Proof. unfold recv. destruct (peer_reply E _ _ _); auto with quiet. Qed.

#[local] Hint Resolve quiet_getitem quiet_setitem quiet_delitem
  quiet_contains quiet_time quiet_choice quiet_connect quiet_send_request
  quiet_recv : quiet.

Lemma quiet_collect_send items :
  forall socks, quiet (collect_send E items socks).
Proof.
  induction items as [ | [key locs] rest IH]; intro socks; simpl.
  - auto with quiet.
  - quiet_step; [auto with quiet | ].
    destruct a; [apply IH | ].
    repeat quiet_step.
Qed.

Lemma quiet_collect_recv socks : quiet (collect_recv E socks).
Proof.
  induction socks as [ | s rest IH]; simpl.
  - auto with quiet.
  - quiet_step; [auto with quiet | ].
    destruct a as [ | h [ | p [ | ? ?]]]; auto with quiet.
    repeat quiet_step.
Qed.

Lemma quiet_collect locations : quiet (collect E locations).
Proof.
  unfold collect. repeat quiet_step.
  - apply quiet_collect_send.
  - apply quiet_collect_recv.
Qed.

#[local] Hint Resolve quiet_collect : quiet.

Lemma quiet_compute key task locations : quiet (compute E key task locations).
Proof.
  unfold compute. quiet_step; [auto with quiet | ].
  quiet_step; [auto with quiet | ].
  quiet_step.
  - apply quiet_attempt. repeat quiet_step.
  - destruct a1 as [[result stop] | e]; repeat quiet_step.
Qed.

#[local] Hint Resolve quiet_compute : quiet.

Lemma quiet_invoke h args kw : quiet (invoke E h args kw).
Proof.
  destruct h; simpl.
  - quiet_step; [auto with quiet | ]. unfold status_function. auto with quiet.
  - quiet_step; [auto with quiet | ].
    destruct a as [ | l [ | ? ?]]; auto with quiet.
  - quiet_step; [auto with quiet | ].
    destruct a as [ | k [ | t [ | l [ | ? ?]]]]; auto with quiet.
  - destruct kw; [ | auto with quiet].
    destruct args as [ | k [ | ? ?]]; auto with quiet.
  - destruct kw; [ | auto with quiet].
    destruct args as [ | k [ | v [ | ? ?]]]; auto with quiet.
  - destruct kw; [ | auto with quiet].
    destruct args as [ | k [ | ? ?]]; auto with quiet.
Qed.

Lemma quiet_run_function func args kwargs :
  quiet (run_function E func args kwargs).
Proof.
  unfold run_function. quiet_step.
  - apply quiet_attempt. unfold call_function.
    repeat quiet_step. apply quiet_invoke.
  - destruct a as [result | e]; [auto with quiet | ].
    destruct (is_KeyError e); [ | auto with quiet].
    quiet_step; [auto with quiet | ].
    destruct a; [auto with quiet | ].
    repeat quiet_step.
Qed.

End Quiet.

(** ** The execution unit and its reply *)

Section Reply.

Variable E : Env.

Lemma execute_and_reply_after_run func args kwargs jobid send w st result w1 :
  run_function E func args kwargs w = (Ret (st, result), w1) ->
  execute_and_reply E func args kwargs jobid send w
  = match send with
    | Some s => send_via E s (reply_header jobid st) result w1
    | None => (Ret tt, w1)
    end.
Proof.
  intro H. unfold execute_and_reply, bind. rewrite H. now destruct send.
Qed.

Lemma send_to_scheduler_sent header payload w w1 :
  send_to_scheduler E header payload w = (Ret tt, w1) ->
  exists hb pb,
    dumps E (VDict (dict_set (VStr "address") (VStr (address w)) header))
    = Ret hb
    /\ dumps E payload = Ret pb
    /\ w1 = push_dealer [hb; pb] w.
Proof.
  unfold send_to_scheduler, bind, get_node, lift, modify.
  destruct (dumps E (VDict _)) as [hb | e |]; try discriminate.
  destruct (dumps E payload) as [pb | e |]; try discriminate.
  intro H. injection H as <-. now exists hb, pb.
Qed.

Lemma send_to_worker_sent peer header payload w w1 :
  send_to_worker E peer header payload w = (Ret tt, w1) ->
  exists hb pb,
    dumps E (VDict (dict_set (VStr "address") (VStr (address w)) header))
    = Ret hb
    /\ dumps E payload = Ret pb
    /\ w1 = push_router [peer; hb; pb] w.
Proof.
  unfold send_to_worker, bind, get_node, lift, modify.
  destruct (dumps E (VDict _)) as [hb | e |]; try discriminate.
  destruct (dumps E payload) as [pb | e |]; try discriminate.
  intro H. injection H as <-. now exists hb, pb.
Qed.

Lemma send_via_sent s header result w hb pb :
  dumps E (VDict (dict_set (VStr "address") (VStr (address w)) header))
  = Ret hb ->
  dumps E result = Ret pb ->
  send_via E s header result w = (Ret tt, push_reply s hb pb w).
Proof.
  intros Hh Hp.
  destruct s as [ | peer]; simpl;
    unfold send_to_scheduler, send_to_worker, bind, get_node, lift, modify;
    now rewrite Hh, Hp.
Qed.

(** When the status and the result are known, the reply that leaves is
    the serialization of the job identifier, the status and the address
    of the node, followed by the serialization of the result. *)
Lemma execute_and_reply_sends func args kwargs jobid s w st result w1 hb pb :
  run_function E func args kwargs w = (Ret (st, result), w1) ->
  dumps E (VDict [(VStr "jobid", jobid); (VStr "status", VStr st);
                  (VStr "address", VStr (address w1))]) = Ret hb ->
  dumps E result = Ret pb ->
  execute_and_reply E func args kwargs jobid (Some s) w
  = (Ret tt, push_reply s hb pb w1).
Proof.
  intros Hr Hh Hp.
  rewrite (execute_and_reply_after_run func args kwargs jobid (Some s) w Hr).
  now apply send_via_sent.
Qed.

Lemma stamped_header_jobid a jobid st :
  dict_lookup (VStr "jobid")
    (dict_set (VStr "address") a (reply_header jobid st)) = Some jobid.
Proof. reflexivity. Qed.

Lemma unpack_function_jobid h p hd func args kwargs jobid reply :
  loads E h = Ret (VDict hd) ->
  unpack_function E h p = Ret (func, args, kwargs, jobid, reply) ->
  jobid = match dict_lookup (VStr "jobid") hd with
          | Some j => j
          | None => VNone
          end
  /\ reply = match dict_lookup (VStr "reply") hd with
             | Some r => r
             | None => VBool true
             end.
Proof.
  intros Hh. unfold unpack_function.
  destruct (loads E p) as [pv | e |]; simpl; try discriminate.
  rewrite Hh. simpl.
  destruct (dict_lookup (VStr "jobid") hd) as [j | ];
    destruct (dict_lookup (VStr "reply") hd) as [r | ]; simpl;
    (destruct (py_getitem pv "function") as [f | e |]; simpl;
       try discriminate;
     destruct (py_get pv "args" (VTuple [])) as [a | e |]; simpl;
       try discriminate;
     destruct (py_get pv "kwargs" (VDict [])) as [k | e |]; simpl;
       try discriminate;
     intro H; injection H as <- <- <- <- <-; now split).
Qed.

End Reply.

(** ** Correlation of replies with requests *)



(** ** The polling loops *)

Section Loops.

Variable E : Env.

Lemma quiet_submit func args kwargs jobid send :
  quiet (submit func args kwargs jobid send).
Proof. intro w. now split. Qed.

Lemma quiet_close : quiet close.
Proof. intro w. now split. Qed.

Lemma quiet_submit_at_close accepted func args kwargs jobid send :
  quiet (submit_at_close accepted func args kwargs jobid send).
Proof. destruct accepted; intro w; now split. Qed.

Lemma quiet_listen_to_scheduler events : quiet (listen_to_scheduler E events).
Proof.
  induction events as [ | ev rest IH]; simpl; [apply quiet_ret | ].
  apply quiet_bind; [apply quiet_get_node | intro w0].
  destruct (String.eqb (status w0) "closed"); [apply quiet_ret | ].
  destruct ev as [ | frames | | frames accepted].
  - exact IH.
  - destruct frames as [ | h [ | p [ | ? ?]]]; try apply quiet_raise.
    apply quiet_bind;
      [apply quiet_lift | intros [[[[func args] kwargs] jobid] reply]].
    apply quiet_bind; [apply quiet_submit | intro; exact IH].
  - apply quiet_bind; [apply quiet_close | intro; exact IH].
  - destruct frames as [ | h [ | p [ | ? ?]]];
      (apply quiet_bind; [apply quiet_close | intro]);
      try apply quiet_raise.
    apply quiet_bind;
      [apply quiet_lift | intros [[[[func args] kwargs] jobid] reply]].
    apply quiet_bind; [apply quiet_submit_at_close | intro; exact IH].
Qed.

Lemma quiet_listen_to_workers events : quiet (listen_to_workers E events).
Proof.
  induction events as [ | ev rest IH]; simpl; [apply quiet_ret | ].
  apply quiet_bind; [apply quiet_get_node | intro w0].
  destruct (String.eqb (status w0) "closed"); [apply quiet_ret | ].
  destruct ev as [ | frames | | frames accepted].
  - exact IH.
  - destruct frames as [ | a [ | h [ | p [ | ? ?]]]]; try apply quiet_raise.
    apply quiet_bind;
      [apply quiet_lift | intros [[[[func args] kwargs] jobid] reply]].
    apply quiet_bind; [apply quiet_lift | intro hv].
    apply quiet_bind; [apply quiet_lift | intro].
    apply quiet_bind; [apply quiet_submit | intro; exact IH].
  - apply quiet_bind; [apply quiet_close | intro; exact IH].
  - destruct frames as [ | a [ | h [ | p [ | ? ?]]]];
      (apply quiet_bind; [apply quiet_close | intro]);
      try apply quiet_raise.
    apply quiet_bind;
      [apply quiet_lift | intros [[[[func args] kwargs] jobid] reply]].
    apply quiet_bind; [apply quiet_lift | intro hv].
    apply quiet_bind; [apply quiet_lift | intro].
    apply quiet_bind; [apply quiet_submit_at_close | intro; exact IH].
Qed.

Lemma listen_to_scheduler_incoming h p rest w func args kwargs jobid reply :
  String.eqb (status w) "closed" = false ->
  unpack_function E h p = Ret (func, args, kwargs, jobid, reply) ->
  listen_to_scheduler E (Incoming [h; p] :: rest) w
  = listen_to_scheduler E rest
      (push_job {| job_func := func; job_args := args; job_kwargs := kwargs;
                   job_jobid := jobid;
                   job_send := if truthy reply then Some SendToScheduler
                               else None |} w).
Proof.
  intros Hs Hu. simpl. unfold bind at 1. unfold get_node. rewrite Hs.
  unfold bind at 1. unfold lift. rewrite Hu.
  reflexivity.
Qed.

Lemma listen_to_workers_incoming peer h p rest w func args kwargs jobid reply
    hd a :
  String.eqb (status w) "closed" = false ->
  unpack_function E h p = Ret (func, args, kwargs, jobid, reply) ->
  loads E h = Ret (VDict hd) ->
  dict_lookup (VStr "address") hd = Some a ->
  listen_to_workers E (Incoming [peer; h; p] :: rest) w
  = listen_to_workers E rest
      (push_job {| job_func := func; job_args := args; job_kwargs := kwargs;
                   job_jobid := jobid;
                   job_send := if truthy reply then Some (SendToWorker peer)
                               else None |} w).
Proof.
  intros Hs Hu Hh Ha. simpl. unfold bind at 1. unfold get_node. rewrite Hs.
  unfold bind at 1. unfold lift. rewrite Hu.
  unfold bind at 1. rewrite Hh.
  unfold bind at 1. unfold py_getitem. rewrite Ha.
  reflexivity.
Qed.

Lemma listen_to_scheduler_raise h p rest w e :
  String.eqb (status w) "closed" = false ->
  unpack_function E h p = Raise e ->
  listen_to_scheduler E (Incoming [h; p] :: rest) w = (Raise e, w).
Proof.
  intros Hs Hu. simpl. unfold bind at 1. unfold get_node. rewrite Hs.
  unfold bind at 1. unfold lift. rewrite Hu. reflexivity.
Qed.

Lemma listen_to_workers_raise peer h p rest w e :
  String.eqb (status w) "closed" = false ->
  unpack_function E h p = Raise e ->
  listen_to_workers E (Incoming [peer; h; p] :: rest) w = (Raise e, w).
Proof.
  intros Hs Hu. simpl. unfold bind at 1. unfold get_node. rewrite Hs.
  unfold bind at 1. unfold lift. rewrite Hu. reflexivity.
Qed.

Lemma unpack_function_decode_failure h p e :
  loads E p = Raise e
  \/ (exists pv, loads E p = Ret pv /\ loads E h = Raise e) ->
  unpack_function E h p = Raise e.
Proof.
  unfold unpack_function. intros [Hp | (pv & Hp & Hh)]; rewrite Hp; simpl.
  - reflexivity.
  - rewrite Hh. reflexivity.
Qed.

Lemma quiet_execute_and_reply_none func args kwargs jobid :
  quiet (execute_and_reply E func args kwargs jobid None).
Proof.
  unfold execute_and_reply.
  apply quiet_bind; [apply quiet_run_function | ].
  intros [st result]. apply quiet_ret.
Qed.

End Loops.

(** ** Requests that ask for no reply *)

(** C6.  A request whose header has ['reply'] set to a false value is
    handed to the pool without a reply sink by either polling loop, and
    the job then leaves the traffic of both channels as it found it,
    whatever the function name and however the handler ends.  The loops
    send nothing themselves. *)
Theorem no_reply_wanted_no_message (E : Env) :
  forall (h p : bytes) (hd : store) (r : pyval) func args kwargs jobid reply,
    loads E h = Ret (VDict hd) ->
    dict_lookup (VStr "reply") hd = Some r ->
    truthy r = false ->
    unpack_function E h p = Ret (func, args, kwargs, jobid, reply) ->
    let jb := {| job_func := func; job_args := args; job_kwargs := kwargs;
                 job_jobid := jobid; job_send := None |} in
    (forall rest w,
        String.eqb (status w) "closed" = false ->
        listen_to_scheduler E (Incoming [h; p] :: rest) w
        = listen_to_scheduler E rest (push_job jb w))
    /\ (forall peer a rest w,
           String.eqb (status w) "closed" = false ->
           dict_lookup (VStr "address") hd = Some a ->
           listen_to_workers E (Incoming [peer; h; p] :: rest) w
           = listen_to_workers E rest (push_job jb w))
    /\ (forall events w,
           dealer_out (snd (listen_to_scheduler E events w)) = dealer_out w
           /\ router_out (snd (listen_to_scheduler E events w)) = router_out w
           /\ dealer_out (snd (listen_to_workers E events w)) = dealer_out w
           /\ router_out (snd (listen_to_workers E events w)) = router_out w)
    /\ (forall w,
           dealer_out (run_job E jb w) = dealer_out w
           /\ router_out (run_job E jb w) = router_out w).
Proof.
  intros h p hd r func args kwargs jobid reply Hh Hr Ht Hu jb.
  destruct (unpack_function_jobid E h p Hh Hu) as [_ Hreply].
  rewrite Hr in Hreply. subst reply.
  repeat split.
  - intros rest w Hs.
    rewrite (listen_to_scheduler_incoming E h p rest w Hs Hu).
    now rewrite Ht.
  - intros peer a rest w Hs Ha.
    rewrite (listen_to_workers_incoming E peer h p rest w Hs Hu Hh Ha).
    now rewrite Ht.
  - apply quiet_listen_to_scheduler.
  - apply quiet_listen_to_scheduler.
  - apply quiet_listen_to_workers.
  - apply quiet_listen_to_workers.
  - apply (quiet_execute_and_reply_none E func args kwargs jobid w).
  - apply (quiet_execute_and_reply_none E func args kwargs jobid w).
Qed.

Lemma no_reply_wanted_no_message_witness :
  let jb := {| job_func := VStr "frobnicate"; job_args := [];
               job_kwargs := VDict []; job_jobid := VInt 7;
               job_send := None |} in
  (forall rest w,
      String.eqb (status w) "closed" = false ->
      listen_to_scheduler sample_E
        (Incoming ["H:job7,noreply"; "P:frobnicate()"] :: rest) w
      = listen_to_scheduler sample_E rest (push_job jb w))
  /\ (forall peer a rest w,
         String.eqb (status w) "closed" = false ->
         dict_lookup (VStr "address")
           [(VStr "address", VStr "tcp://bob:5000"); (VStr "jobid", VInt 7);
            (VStr "reply", VBool false)] = Some a ->
         listen_to_workers sample_E
           (Incoming [peer; "H:job7,noreply"; "P:frobnicate()"] :: rest) w
         = listen_to_workers sample_E rest (push_job jb w))
  /\ (forall events w,
         dealer_out (snd (listen_to_scheduler sample_E events w))
         = dealer_out w
         /\ router_out (snd (listen_to_scheduler sample_E events w))
            = router_out w
         /\ dealer_out (snd (listen_to_workers sample_E events w))
            = dealer_out w
         /\ router_out (snd (listen_to_workers sample_E events w))
            = router_out w)
  /\ (forall w,
         dealer_out (run_job sample_E jb w) = dealer_out w
         /\ router_out (run_job sample_E jb w) = router_out w).
Proof.
  apply (@no_reply_wanted_no_message sample_E
           "H:job7,noreply" "P:frobnicate()"
           [(VStr "address", VStr "tcp://bob:5000"); (VStr "jobid", VInt 7);
            (VStr "reply", VBool false)]
           (VBool false) (VStr "frobnicate") [] (VDict []) (VInt 7)
           (VBool false)).
  - reflexivity.
  - reflexivity.
  - reflexivity.
  - vm_compute. reflexivity.
Defined.

(** ** Messages that fail to decode *)

(** C2, as the code has it.  [unpack_function] runs in the polling loop,
    before anything is handed to the pool and outside the [try] of
    [execute_and_reply].  When [loads] raises on the payload, or on the
    header once the payload has been decoded, the exception leaves the
    loop, in either loop: the remaining events are not served, no job is
    submitted and nothing is sent, the node being left as it was. *)
Theorem decode_failure_leaves_the_loop (E : Env) :
  forall (h p : bytes) (e : exn),
    loads E p = Raise e
    \/ (exists pv, loads E p = Ret pv /\ loads E h = Raise e) ->
    forall rest w,
      String.eqb (status w) "closed" = false ->
      listen_to_scheduler E (Incoming [h; p] :: rest) w = (Raise e, w)
      /\ forall peer,
          listen_to_workers E (Incoming [peer; h; p] :: rest) w = (Raise e, w).
Proof.
  intros h p e Hdec rest w Hs.
  pose proof (unpack_function_decode_failure E h p Hdec) as Hu.
  split.
  - now apply listen_to_scheduler_raise.
  - intro peer. now apply listen_to_workers_raise.
Qed.

Lemma decode_failure_leaves_the_loop_witness :
  listen_to_scheduler sample_E
    [Incoming ["H:job7"; "garbage"]; Timeout] (sample_node [])
  = (Raise (Exc "UnpicklingError" (VStr "invalid load key")), sample_node [])
  /\ forall peer,
      listen_to_workers sample_E
        [Incoming [peer; "H:job7"; "garbage"]; Timeout] (sample_node [])
      = (Raise (Exc "UnpicklingError" (VStr "invalid load key")),
         sample_node []).
Proof.
  apply (@decode_failure_leaves_the_loop sample_E "H:job7" "garbage"
           (Exc "UnpicklingError" (VStr "invalid load key"))).
  - left. reflexivity.
  - reflexivity.
Defined.

(** C2, as stated, fails: a payload that does not decode is not turned
    into a reply with status "Error".  The coordinator-facing loop ends
    with the decoding error; the well-formed request that follows is
    never dispatched and nothing is sent. *)
Lemma decode_failure_ends_polling_loop :
  loads sample_E "garbage"
  = Raise (Exc "UnpicklingError" (VStr "invalid load key"))
  /\ (let r := listen_to_scheduler sample_E
                 [Incoming ["H:job7"; "garbage"];
                  Incoming ["H:job7"; "P:getitem(x)"]] (sample_node []) in
      fst r = Raise (Exc "UnpicklingError" (VStr "invalid load key"))
      /\ submitted (snd r) = []
      /\ dealer_out (snd r) = dealer_out (sample_node [])
      /\ router_out (snd r) = router_out (sample_node []))
  /\ submitted
       (snd (listen_to_scheduler sample_E
               [Incoming ["H:job7"; "P:getitem(x)"]] (sample_node [])))
     = [{| job_func := VStr "getitem"; job_args := [VStr "x"];
           job_kwargs := VDict []; job_jobid := VInt 7;
           job_send := Some SendToScheduler |}].
Proof. vm_compute. repeat split. Qed.

(** ** Positional arguments *)

(** C7, as the code has it.  The positional arguments that
    [unpack_function] returns, and that the job hands to the handler,
    are the items of the payload's ['args'] when that is a tuple, no
    argument when the payload has no ['args'], and otherwise the one
    value found there, whatever it is: a list or a string is passed
    whole, as a single argument. *)
Theorem args_are_tuple_items_or_one_value (E : Env) :
  forall (h p : bytes) (pd : store) func args kwargs jobid reply,
    loads E p = Ret (VDict pd) ->
    unpack_function E h p = Ret (func, args, kwargs, jobid, reply) ->
    args = match dict_lookup (VStr "args") pd with
           | None => []
           | Some (VTuple items) => items
           | Some v => [v]
           end.
Proof.
  intros h p pd func args kwargs jobid reply Hp.
  unfold unpack_function. rewrite Hp. simpl.
  destruct (loads E h) as [hv | e |]; simpl; try discriminate.
  destruct (py_get hv "jobid" VNone) as [j | e |]; simpl; try discriminate.
  destruct (py_get hv "reply" (VBool true)) as [r | e |]; simpl;
    try discriminate.
  destruct (dict_lookup (VStr "function") pd) as [f | ]; simpl;
    try discriminate.
  destruct (dict_lookup (VStr "args") pd) as [a | ]; simpl;
    destruct (dict_lookup (VStr "kwargs") pd) as [k | ]; simpl;
    intro H; injection H as <- <- <- <- <-; try reflexivity;
    destruct a; reflexivity.
Qed.

Lemma args_are_tuple_items_or_one_value_witness :
  [VStr "x"; VInt 10]
  = match dict_lookup (VStr "args")
            [(VStr "function", VStr "setitem");
             (VStr "args", VTuple [VStr "x"; VInt 10])] with
    | None => []
    | Some (VTuple items) => items
    | Some v => [v]
    end.
Proof.
  apply (@args_are_tuple_items_or_one_value sample_E
           "H:job7" "P:setitem(x,10)"
           [(VStr "function", VStr "setitem");
            (VStr "args", VTuple [VStr "x"; VInt 10])]
           (VStr "setitem") [VStr "x"; VInt 10] (VDict []) (VInt 7)
           (VBool true)).
  - reflexivity.
  - vm_compute. reflexivity.
Defined.

(** C7, as stated, fails on a list: the payload's ['args'] is the
    sequence [['x', 10]], and the handler does not receive its two
    elements but one argument, the list itself, so that [setitem]
    answers with status "Error" and stores nothing. *)
Lemma list_args_are_passed_whole :
  loads sample_E "P:setitem[x,10]"
  = Ret (VDict [(VStr "function", VStr "setitem");
                (VStr "args", VList [VStr "x"; VInt 10])])
  /\ unpack_function sample_E "H:job7" "P:setitem[x,10]"
     = Ret (VStr "setitem", [VList [VStr "x"; VInt 10]], VDict [],
            VInt 7, VBool true)
  /\ [VList [VStr "x"; VInt 10]] <> [VStr "x"; VInt 10]
  /\ run_function sample_E (VStr "setitem") [VList [VStr "x"; VInt 10]]
       (VDict []) (sample_node [])
     = (Ret ("Error", VExc "TypeError" (VStr "expected 2 arguments")),
        sample_node []).
Proof.
  repeat split; try (vm_compute; reflexivity). discriminate.
Qed.

(** ** Unknown functions and failing handlers *)

Section Status.

Variable E : Env.

Lemma run_function_unknown name args kwargs w :
  assoc_handler name functions = None ->
  run_function E (VStr name) args kwargs w
  = (Ret (("Function " ++ name ++ " not found")%string,
          VExc "KeyError" (VStr name)), w).
Proof.
  intro H.
  unfold run_function, bind, attempt, call_function, bind, lift,
    functions_getitem, functions_contains.
  simpl hashable. cbv iota. rewrite H. reflexivity.
Qed.

Lemma run_function_not_found func args kwargs w st :
  functions_contains func = Ret false ->
  not_found_status E func = Ret st ->
  run_function E func args kwargs w = (Ret (st, VExc "KeyError" func), w).
Proof.
  intros Hc Hs.
  assert (Hg : functions_getitem func = Raise (KeyError func)).
  { unfold functions_contains in Hc. unfold functions_getitem.
    destruct (hashable func); [ | discriminate].
    destruct func; try reflexivity.
    destruct (assoc_handler s functions); [discriminate | reflexivity]. }
  unfold run_function, bind, attempt, call_function, bind, lift.
  rewrite Hg. simpl. rewrite Hc, Hs. reflexivity.
Qed.

Lemma run_function_unhashable func args kwargs w :
  hashable func = false ->
  run_function E func args kwargs w
  = (Ret ("Error", VExc "TypeError" (VStr "unhashable type")), w).
Proof.
  intro Hh.
  unfold run_function, bind, attempt, call_function, bind, lift,
    functions_getitem.
  now rewrite Hh.
Qed.

Lemma run_function_error func args kwargs w e w1 :
  functions_contains func = Ret true ->
  call_function E func args kwargs w = (Raise e, w1) ->
  is_Exception e = true ->
  run_function E func args kwargs w = (Ret ("Error", exn_value e), w1).
Proof.
  intros H Hc He.
  unfold run_function, bind, attempt. rewrite Hc, He.
  destruct (is_KeyError e); [ | reflexivity].
  unfold lift. now rewrite H.
Qed.

Lemma run_function_raise name h args kwargs w e w1 :
  assoc_handler name functions = Some h ->
  call_function E (VStr name) args kwargs w = (Raise e, w1) ->
  is_Exception e = true ->
  run_function E (VStr name) args kwargs w = (Ret ("Error", exn_value e), w1).
Proof.
  intros H. apply run_function_error.
  unfold functions_contains. simpl hashable. cbv iota. now rewrite H.
Qed.

(** An exception that is no [Exception] leaves the [try] statement. *)
Lemma run_function_escape func args kwargs w e w1 :
  call_function E func args kwargs w = (Raise e, w1) ->
  is_Exception e = false ->
  run_function E func args kwargs w = (Raise e, w1).
Proof.
  intros Hc He. unfold run_function, bind, attempt. now rewrite Hc, He.
Qed.

Lemma call_getitem_absent k w :
  hashable k = true ->
  dict_lookup k (data w) = None ->
  call_function E (VStr "getitem") [k] (VDict []) w = (Raise (KeyError k), w).
Proof.
  intros Hk Hl.
  unfold call_function, bind, lift. simpl.
  unfold getitem. now rewrite Hk, Hl.
Qed.

Lemma call_delitem_absent k w :
  hashable k = true ->
  dict_lookup k (data w) = None ->
  call_function E (VStr "delitem") [k] (VDict []) w = (Raise (KeyError k), w).
Proof.
  intros Hk Hl.
  unfold call_function, bind, lift. simpl.
  unfold delitem. now rewrite Hk, Hl.
Qed.

Lemma not_found_is_not_OK_nor_Error func st :
  not_found_status E func = Ret st -> st <> "OK" /\ st <> "Error".
Proof.
  unfold not_found_status. intro H.
  assert (Hs : exists x, st = ("Function " ++ x)%string).
  { destruct func; try (injection H as <-; eexists; reflexivity).
    destruct items as [ | x [ | y rest]]; try discriminate.
    injection H as <-. eexists. reflexivity. }
  destruct Hs as [x ->]. split; simpl; discriminate.
Qed.

Lemma not_found_status_text func st :
  not_found_status E func = Ret st ->
  match func with
  | VTuple _ => True
  | _ => st = ("Function " ++ str E func ++ " not found")%string
  end.
Proof.
  unfold not_found_status. intro H.
  destruct func; try exact I; now injection H as <-.
Qed.

End Status.

(** C3, as the code has it.  For a function name of which
    [func in self.functions] is false and which is not a tuple, the
    status of the reply is "Function <name> not found", with [str] of
    the name; it is neither "OK" nor "Error", and the result is the
    [KeyError] of the lookup.  A name that cannot be hashed gets the
    status "Error" with the [TypeError] of the lookup.  For a registered
    name whose handler raises an [Exception], a [KeyError] included, the
    status is "Error" and the result is the exception; so it is for
    [getitem] and [delitem] on a key that the Data Store does not hold.
    In each case the reply that leaves, when it can be serialized, is the
    job identifier, that status and the node's address, followed by that
    result, on the socket of the channel the request came from. *)
Theorem unknown_function_versus_handler_KeyError (E : Env) :
  forall (func : pyval) (args : list pyval) (kwargs jobid : pyval)
         (s : sender) (w : node),
    (functions_contains func = Ret false ->
     (forall items, func <> VTuple items) ->
     let st := ("Function " ++ str E func ++ " not found")%string in
     st <> "OK" /\ st <> "Error"
     /\ run_function E func args kwargs w
        = (Ret (st, VExc "KeyError" func), w)
     /\ forall hb pb,
          dumps E (VDict [(VStr "jobid", jobid); (VStr "status", VStr st);
                          (VStr "address", VStr (address w))]) = Ret hb ->
          dumps E (VExc "KeyError" func) = Ret pb ->
          execute_and_reply E func args kwargs jobid (Some s) w
          = (Ret tt,
             match s with
             | SendToScheduler => push_dealer [hb; pb] w
             | SendToWorker peer => push_router [peer; hb; pb] w
             end))
    /\ (hashable func = false ->
        run_function E func args kwargs w
        = (Ret ("Error", VExc "TypeError" (VStr "unhashable type")), w)
        /\ forall hb pb,
             dumps E (VDict [(VStr "jobid", jobid);
                             (VStr "status", VStr "Error");
                             (VStr "address", VStr (address w))]) = Ret hb ->
             dumps E (VExc "TypeError" (VStr "unhashable type")) = Ret pb ->
             execute_and_reply E func args kwargs jobid (Some s) w
             = (Ret tt,
                match s with
                | SendToScheduler => push_dealer [hb; pb] w
                | SendToWorker peer => push_router [peer; hb; pb] w
                end))
    /\ (forall e w1,
           functions_contains func = Ret true ->
           call_function E func args kwargs w = (Raise e, w1) ->
           is_Exception e = true ->
           run_function E func args kwargs w
           = (Ret ("Error", exn_value e), w1)
           /\ forall hb pb,
                dumps E (VDict [(VStr "jobid", jobid);
                                (VStr "status", VStr "Error");
                                (VStr "address", VStr (address w1))])
                = Ret hb ->
                dumps E (exn_value e) = Ret pb ->
                execute_and_reply E func args kwargs jobid (Some s) w
                = (Ret tt,
                   match s with
                   | SendToScheduler => push_dealer [hb; pb] w1
                   | SendToWorker peer => push_router [peer; hb; pb] w1
                   end))
    /\ (forall k,
           hashable k = true ->
           dict_lookup k (data w) = None ->
           run_function E (VStr "getitem") [k] (VDict []) w
           = (Ret ("Error", VExc "KeyError" k), w)
           /\ run_function E (VStr "delitem") [k] (VDict []) w
              = (Ret ("Error", VExc "KeyError" k), w)).
Proof.
  intros func args kwargs jobid s w. split; [ | split; [ | split]].
  - intros Hc Hfunc st.
    assert (Hs : not_found_status E func = Ret st)
      by (destruct func; try reflexivity; now destruct (Hfunc items)).
    pose proof (run_function_not_found E func args kwargs w Hc Hs) as Hr.
    destruct (not_found_is_not_OK_nor_Error E func Hs) as [H1 H2].
    repeat split; try assumption.
    intros hb pb Hh Hp.
    apply (execute_and_reply_sends E func args kwargs jobid s w Hr Hh Hp).
  - intro Hh.
    pose proof (run_function_unhashable E func args kwargs w Hh) as Hr.
    split; [exact Hr | ]. intros hb pb Hhb Hp.
    apply (execute_and_reply_sends E func args kwargs jobid s w Hr Hhb Hp).
  - intros e w1 Hc Hr He.
    pose proof (run_function_error E func args kwargs w Hc Hr He) as Hrun.
    split; [assumption | ].
    intros hb pb Hh Hp.
    apply (execute_and_reply_sends E func args kwargs jobid s w Hrun Hh Hp).
  - intros k Hk Hl. split.
    + apply (run_function_raise E "getitem" (h := HGetitem) [k] (VDict []) w
               (e := KeyError k) eq_refl); [ | reflexivity].
      now apply call_getitem_absent.
    + apply (run_function_raise E "delitem" (h := HDelitem) [k] (VDict []) w
               (e := KeyError k) eq_refl); [ | reflexivity].
      now apply call_delitem_absent.
Qed.

Lemma unknown_function_versus_handler_KeyError_witness :
  (run_function sample_E (VStr "frobnicate") [] (VDict []) (sample_node [])
   = (Ret ("Function frobnicate not found",
           VExc "KeyError" (VStr "frobnicate")),
      sample_node []))
  /\ (execute_and_reply sample_E (VStr "getitem") [VStr "x"] (VDict [])
        (VInt 7) (Some SendToScheduler) (sample_node [])
      = (Ret tt,
         push_dealer ["R:job7,Error"; "KeyError(x)"] (sample_node [])))
  /\ (run_function sample_E (VStr "delitem") [VStr "x"] (VDict [])
        (sample_node [])
      = (Ret ("Error", VExc "KeyError" (VStr "x")), sample_node []))
  /\ (run_function sample_E (VList [VStr "frobnicate"]) [] (VDict [])
        (sample_node [])
      = (Ret ("Error", VExc "TypeError" (VStr "unhashable type")),
         sample_node [])).
Proof.
  pose proof (@unknown_function_versus_handler_KeyError sample_E
                (VStr "frobnicate") [] (VDict []) (VInt 7) SendToScheduler
                (sample_node [])) as [Hunknown _].
  pose proof (@unknown_function_versus_handler_KeyError sample_E
                (VStr "getitem") [VStr "x"] (VDict []) (VInt 7)
                SendToScheduler (sample_node []))
    as [_ [_ [Hraise Habsent]]].
  pose proof (@unknown_function_versus_handler_KeyError sample_E
                (VList [VStr "frobnicate"]) [] (VDict []) (VInt 7)
                SendToScheduler (sample_node [])) as [_ [Hlist _]].
  split; [ | split; [ | split]].
  - refine (proj1 (proj2 (proj2 (Hunknown eq_refl _)))).
    intros items H. discriminate H.
  - exact (proj2 (Hraise (KeyError (VStr "x")) (sample_node [])
                    eq_refl eq_refl eq_refl)
             "R:job7,Error" "KeyError(x)" eq_refl eq_refl).
  - exact (proj2 (Habsent (VStr "x") eq_refl eq_refl)).
  - exact (proj1 (Hlist eq_refl)).
Defined.

(** C3, as stated, fails for a name that cannot be hashed: the list
    [['frobnicate']] is no key of the registry, and the lookup raises
    [TypeError], not [KeyError]; the reply has the status "Error", not
    "Function ... not found". *)
Lemma unhashable_name_gets_Error :
  existsb (fun entry => pyval_eqb (VStr (fst entry)) (VList [VStr "frobnicate"]))
    functions = false
  /\ run_function sample_E (VList [VStr "frobnicate"]) [] (VDict [])
       (sample_node [])
     = (Ret ("Error", VExc "TypeError" (VStr "unhashable type")),
        sample_node []).
Proof. split; vm_compute; reflexivity. Qed.

(** ** Construction *)

(** C8 (defect of the code).  The module never imports [socket], so the
    default address cannot be computed: constructing a worker without an
    explicit address, with or without a port, raises [NameError] at
    line 62, whatever the environment; no socket has been opened, no
    registration sent and no polling thread started. *)
Theorem init_without_address_raises_NameError (E : Env) :
  forall (scheduler_address : string) (d : store) (port : option Z),
    init E scheduler_address d None port
    = (Raise (Exc "NameError" (VStr "global name 'socket' is not defined")),
       new_node scheduler_address d).
Proof. intros scheduler_address d port. destruct port; reflexivity. Qed.

(** With an explicit address the constructor goes through when the
    DEALER socket accepts the address as its identity and the sockets
    accept their endpoints: the registration is sent, the ROUTER socket
    is bound and both polling threads are started. *)
Lemma init_with_address (E : Env) scheduler_address d a port :
  identity_ok a = true ->
  connect_ok E scheduler_address = true ->
  bind_ok E a = true ->
  exists w,
    init E scheduler_address d (Some a) port = (Ret tt, w)
    /\ address w = a /\ dealer_out w = [[""; "Register"]]
    /\ bound w = Some a /\ listeners w = 2 /\ data w = d.
Proof.
  intros Hi Hc Hb.
  unfold init, init_body, bind, ret, modify, get_node. cbn [snd fst].
  rewrite Hi. cbn [scheduler set_address new_node]. rewrite Hc, Hb.
  eexists. split; [reflexivity | ]. simpl. repeat split.
Qed.

(** ** [collect]: what is requested and what is stored *)

Section Collect.

Variable E : Env.

Lemma choice_same seq w : same_node w (snd (choice E seq w)).
Proof.
  unfold choice, same_node.
  destruct seq as [ | | | | s | items | items | d | ]; try now repeat split.
  - destruct s; now repeat split.
  - destruct items; now repeat split.
  - destruct items; now repeat split.
  - destruct d; [now repeat split | ].
    match goal with |- context [dict_lookup ?k ?d] =>
      destruct (dict_lookup k d) end; now repeat split.
Qed.

Lemma connect_same peer w : snd (connect E peer w) = w.
Proof.
  unfold connect. destruct peer; try reflexivity.
  destruct (connect_ok E s); reflexivity.
Qed.

Lemma requested_cons items kv d a s :
  requested E items d a s -> requested E (kv :: items) d a s.
Proof.
  intros (k & locs & Hin & Hm & Hr). exists k, locs. simpl. auto.
Qed.

(** The first loop has stopped at this key: nothing more was sent. *)
Ltac now_stopped H :=
  injection H as <- <-; repeat split; try assumption;
  exists []; repeat split;
  first [assumption | reflexivity | constructor | discriminate].

Lemma collect_send_spec items : forall socks w o w',
  collect_send E items socks w = (o, w') ->
  data w' = data w /\ address w' = address w
  /\ exists new,
      peer_socks w' = rev new ++ peer_socks w
      /\ Forall (requested E items (data w) (address w)) new
      /\ forall socks', o = Ret socks' -> socks' = socks ++ new.
Proof.
  induction items as [ | [key locs] rest IH]; intros socks w o w' H.
  - injection H as <- <-. repeat split. exists []. repeat split.
    + constructor.
    + intros socks' Hs. injection Hs as <-. now rewrite app_nil_r.
  - simpl in H. unfold bind at 1 in H. unfold contains in H.
    destruct (hashable key); [ | now_stopped H].
    destruct (dict_mem key (data w)) eqn:Hm.
    + apply IH in H. destruct H as (Hd & Ha & new & Hp & Hf & Hs).
      repeat split; try assumption. exists new. repeat split; try assumption.
      eapply Forall_impl; [ | exact Hf]. intros s. apply requested_cons.
    + unfold bind at 1 in H.
      pose proof (choice_same locs w) as (Hd1 & Ha1 & Hp1).
      destruct (choice E locs w) as [[peer | e |] w1]; simpl in Hd1, Ha1, Hp1;
        try now_stopped H.
      unfold bind at 1 in H.
      pose proof (connect_same peer w1) as Hc.
      destruct (connect E peer w1) as [[a | e |] w2]; simpl in Hc; subst w2;
        try now_stopped H.
      unfold bind at 1 in H. unfold get_node in H.
      unfold bind at 1 in H. unfold lift at 1 in H.
      destruct (dumps E (request_header (address w1) key))
        as [hb | e |] eqn:Hhb;
        try now_stopped H.
      unfold bind at 1 in H. unfold lift at 1 in H.
      destruct (dumps E (request_payload key)) as [pb | e |] eqn:Hpb;
        try now_stopped H.
      unfold bind at 1 in H. unfold send_request at 1 in H.
      apply IH in H. destruct H as (Hd & Ha & new & Hp & Hf & Hs).
      simpl in Hd, Ha, Hp.
      set (s0 := {| sock_id := List.length (peer_socks w1); sock_peer := a;
                    sock_sent := [hb; pb] |}) in *.
      repeat split; try congruence.
      exists (s0 :: new). repeat split.
      * simpl. rewrite <- app_assoc. simpl. congruence.
      * constructor.
        -- exists key, locs. repeat split; [now left | assumption | ].
           exists hb, pb. rewrite <- Ha1. now repeat split.
        -- eapply Forall_impl; [ | exact Hf]. intros s Hr.
           apply requested_cons. now rewrite <- Hd1, <- Ha1.
      * intros socks' Ho. rewrite (Hs _ Ho). now rewrite <- app_assoc.
Qed.

Lemma collect_recv_spec socks : forall w o w',
  collect_recv E socks w = (o, w') ->
  address w' = address w /\ peer_socks w' = peer_socks w
  /\ clock_tick w' = clock_tick w
  /\ exists done rest fetched,
      socks = done ++ rest
      /\ Forall2 (fetched_from E) done fetched
      /\ data w' = store_all fetched (data w)
      /\ (forall u, o = Ret u -> rest = []).
Proof.
  induction socks as [ | s socks IH]; intros w o w' H.
  - injection H as <- <-. repeat split. exists [], [], []. repeat split.
    constructor.
  - simpl in H. unfold bind at 1 in H. unfold recv in H.
    assert (Stop : forall o0 : outcome unit,
               (forall u, o0 <> Ret u) -> (o0, w) = (o, w') ->
               address w' = address w /\ peer_socks w' = peer_socks w
               /\ clock_tick w' = clock_tick w
               /\ exists done rest fetched,
                   s :: socks = done ++ rest
                   /\ Forall2 (fetched_from E) done fetched
                   /\ data w' = store_all fetched (data w)
                   /\ (forall u, o = Ret u -> rest = [])).
    { intros o0 Ho Heq. injection Heq as <- <-. repeat split.
      exists [], (s :: socks), []. repeat split; [constructor | ].
      intros u Hu. now destruct (Ho u). }
    destruct (peer_reply E (sock_id s) (sock_peer s) (sock_sent s))
      as [frames | ] eqn:Hr;
      [ | now apply (Stop Hang)].
    unfold ret in H.
    destruct frames as [ | h [ | p [ | ? ?]]];
      try (now apply
             (Stop (Raise (ValueError "wrong number of values to unpack")))).
    unfold bind at 1 in H. unfold lift at 1 in H.
    destruct (loads E h) as [hv | e | ] eqn:Hh;
      [ | now apply (Stop (Raise e)) | now apply (Stop Hang)].
    unfold bind at 1 in H. unfold lift at 1 in H.
    destruct (loads E p) as [pv | e | ] eqn:Hp;
      [ | now apply (Stop (Raise e)) | now apply (Stop Hang)].
    unfold bind at 1 in H. unfold lift at 1 in H.
    destruct (py_getitem hv "address") as [a | e | ] eqn:Ha;
      [ | now apply (Stop (Raise e)) | now apply (Stop Hang)].
    unfold bind at 1 in H. unfold lift at 1 in H.
    destruct (py_getitem hv "jobid") as [j | e | ] eqn:Hj;
      [ | now apply (Stop (Raise e)) | now apply (Stop Hang)].
    unfold bind at 1 in H. unfold lift at 1 in H.
    unfold bind at 1 in H. unfold setitem at 1 in H.
    destruct (hashable j);
      [ | now apply (Stop (Raise (TypeError "unhashable type")))].
    apply IH in H.
    destruct H as (Had & Hps & Hck & done & rest & fetched & Hs & Hf & Hd & Ho).
    simpl in Had, Hps, Hck, Hd.
    repeat split; try assumption.
    exists (s :: done), rest, ((j, pv) :: fetched). repeat split.
    + simpl. now rewrite Hs.
    + constructor; [ | assumption]. exists h, p, hv. now repeat split.
    + exact Hd.
    + exact Ho.
Qed.

Lemma fetched_keys_requested items d a socks fetched :
  peers_echo_jobid E ->
  Forall (requested E items d a) socks ->
  Forall2 (fetched_from E) socks fetched ->
  Forall (fun jv => In (fst jv) (map fst items) /\ dict_mem (fst jv) d = false)
    fetched.
Proof.
  intros Hecho Hreq Hf. induction Hf as [ | s jv socks fetched Hs Hf IH].
  - constructor.
  - inversion Hreq as [ | ? ? Hr Hrest]; subst. constructor; [ | now apply IH].
    destruct Hr as (k & locs & Hin & Hm & hb & pb & Hhb & Hpb & Hsent).
    destruct Hs as (h & p & hv & Hrep & Hh & Hj & Hp).
    rewrite Hsent in Hrep.
    rewrite (Hecho _ _ _ _ _ _ _ _ _ _ Hhb Hpb Hrep Hh Hj).
    split; [ | assumption].
    apply in_map_iff. now exists (k, locs).
Qed.

Lemma Forall_app_l {A : Type} (P : A -> Prop) l1 l2 :
  Forall P (l1 ++ l2) -> Forall P l1.
Proof. intro H. apply Forall_app in H. tauto. Qed.

(** Under the correlation rule, [collect] writes only under keys of
    [locations] that the store did not hold; any other entry, and the
    absence of any other key, is as before, however [collect] ends. *)
Lemma collect_frame items w o w' k :
  peers_echo_jobid E ->
  collect E (VDict items) w = (o, w') ->
  dict_mem k (data w) = true
  \/ Forall (fun kv => key_eqb (fst kv) k = false) items ->
  dict_lookup k (data w') = dict_lookup k (data w).
Proof.
  intros Hecho H Hk. unfold collect in H. unfold bind at 1 in H. simpl in H.
  unfold bind at 1 in H.
  destruct (collect_send E items [] w) as [[socks | e |] w1] eqn:Hsend;
    pose proof Hsend as Hspec; apply collect_send_spec in Hspec;
    destruct Hspec as (Hd1 & Ha1 & new & Hp1 & Hreq & Hs);
    try (injection H as <- <-; now rewrite Hd1).
  specialize (Hs socks eq_refl). simpl in Hs. subst socks.
  unfold bind at 1 in H.
  destruct (collect_recv E new w1) as [[[] | e |] w2] eqn:Hrecv;
    pose proof Hrecv as Hspec; apply collect_recv_spec in Hspec;
    destruct Hspec
      as (_ & _ & _ & done & rest & fetched & Hsplit & Hf & Hd2 & _);
    injection H as <- <-; rewrite Hd2, Hd1;
    apply store_all_lookup_other;
    subst new; apply Forall_app_l in Hreq;
    pose proof (fetched_keys_requested Hecho Hreq Hf) as Hkeys;
    (eapply Forall_impl; [ | exact Hkeys]);
    intros [j v] [Hj Hm]; simpl in *;
    (destruct Hk as [Hk | Hk];
     [now apply dict_mem_differ with (d := data w) | ]);
    rewrite Forall_forall in Hk;
    apply in_map_iff in Hj; destruct Hj as ([j' locs] & Hjj & Hin);
    simpl in Hjj; subst j'; exact (Hk _ Hin).
Qed.

End Collect.

Section Compute.

Variable E : Env.

Lemma store_all_mem_keeps k fetched : forall d,
  dict_mem k d = true -> dict_mem k (store_all fetched d) = true.
Proof.
  induction fetched as [ | [j v] rest IH]; intros d H; simpl.
  - exact H.
  - apply IH. now apply dict_mem_set.
Qed.

Lemma store_all_mem k fetched : forall d,
  key_eqb k k = true ->
  In k (map fst fetched) -> dict_mem k (store_all fetched d) = true.
Proof.
  induction fetched as [ | [j v] rest IH]; intros d Hk H; simpl in *.
  - contradiction.
  - destruct (pyval_eq_dec j k) as [-> | Hne].
    + apply store_all_mem_keeps. unfold dict_mem.
      now rewrite dict_lookup_set_same.
    + apply IH; tauto.
Qed.

(** What a [collect] that returns has done: one socket per request, in
    order, each reply read and stored under its own job identifier. *)
Lemma collect_returns locations w v w1 :
  collect E locations w = (Ret v, w1) ->
  exists items socks fetched,
    locations = VDict items
    /\ peer_socks w1 = rev socks ++ peer_socks w
    /\ Forall (requested E items (data w) (address w)) socks
    /\ Forall2 (fetched_from E) socks fetched
    /\ data w1 = store_all fetched (data w).
Proof.
  intro H. unfold collect in H. unfold bind at 1 in H.
  destruct locations as [ | | | | | | | items | ]; try discriminate.
  simpl in H. unfold bind at 1 in H.
  destruct (collect_send E items [] w) as [[socks | e |] w0] eqn:Hsend;
    try discriminate.
  apply collect_send_spec in Hsend.
  destruct Hsend as (Hd0 & Ha0 & new & Hp0 & Hreq & Hs).
  specialize (Hs socks eq_refl). simpl in Hs. subst socks.
  unfold bind at 1 in H.
  destruct (collect_recv E new w0) as [[[] | e |] w2] eqn:Hrecv;
    try discriminate.
  injection H as <- <-.
  apply collect_recv_spec in Hrecv.
  destruct Hrecv
    as (_ & Hp2 & _ & done & rest & fetched & Hsplit & Hf & Hd2 & Hr).
  rewrite (Hr tt eq_refl), app_nil_r in Hsplit. subst done.
  exists items, new, fetched. repeat split; try assumption; congruence.
Qed.

(** The sockets left by a [collect], however it ended. *)
Lemma collect_sockets items w o w1 :
  collect E (VDict items) w = (o, w1) ->
  exists socks,
    peer_socks w1 = rev socks ++ peer_socks w
    /\ Forall (requested E items (data w) (address w)) socks.
Proof.
  intro H. unfold collect in H. unfold bind at 1 in H. simpl in H.
  unfold bind at 1 in H.
  destruct (collect_send E items [] w) as [[socks | e |] w0] eqn:Hsend;
    apply collect_send_spec in Hsend;
    destruct Hsend as (Hd0 & Ha0 & new & Hp0 & Hreq & Hs);
    try (injection H as <- <-; now exists new).
  unfold bind at 1 in H.
  destruct (collect_recv E socks w0) as [[[] | e |] w2] eqn:Hrecv;
    apply collect_recv_spec in Hrecv;
    destruct Hrecv as (_ & Hp2 & _);
    injection H as <- <-; exists new; split; congruence.
Qed.

Lemma compute_on_failure key task locations w v w1 e :
  collect E locations w = (Ret v, w1) ->
  dask_get E (data w1) task = Raise e ->
  is_Exception e = true ->
  compute E key task locations w
  = (Ret (outcome_record key
            (float_sub (now E (S (clock_tick w1))) (now E (clock_tick w1)))
            (exn_value e)),
     tick_clock (tick_clock w1)).
Proof.
  intros Hc He Hx. unfold compute. unfold bind at 1. rewrite Hc.
  unfold bind at 1. unfold time at 1.
  unfold bind at 1. unfold attempt, bind, get_node, lift. simpl.
  rewrite He, Hx. reflexivity.
Qed.

(** An exception of the evaluator that is no [Exception] leaves
    [compute]; the clock has been read once. *)
Lemma compute_on_exit key task locations w v w1 e :
  collect E locations w = (Ret v, w1) ->
  dask_get E (data w1) task = Raise e ->
  is_Exception e = false ->
  compute E key task locations w = (Raise e, tick_clock w1).
Proof.
  intros Hc He Hx. unfold compute. unfold bind at 1. rewrite Hc.
  unfold bind at 1. unfold time at 1.
  unfold bind at 1. unfold attempt, bind, get_node, lift. simpl.
  rewrite He, Hx. reflexivity.
Qed.

Lemma compute_on_success key task locations w v w1 result :
  collect E locations w = (Ret v, w1) ->
  dask_get E (data w1) task = Ret result ->
  hashable key = true ->
  compute E key task locations w
  = (Ret (outcome_record key
            (float_sub (now E (S (clock_tick w1))) (now E (clock_tick w1)))
            (VStr "OK")),
     set_data (dict_set key result (data w1)) (tick_clock (tick_clock w1))).
Proof.
  intros Hc He Hk. unfold compute. unfold bind at 1. rewrite Hc.
  unfold bind at 1. unfold time at 1.
  unfold bind at 1. unfold attempt, bind, get_node, lift. simpl.
  rewrite He. unfold time. simpl. unfold setitem. rewrite Hk. reflexivity.
Qed.

End Compute.

(** ** The sample peers keep to the correlation rule *)

Lemma table_dumps_In t v b : table_dumps t v = Ret b -> In (b, v) t.
Proof.
  induction t as [ | [b' v'] t IH]; simpl; [discriminate | ].
  destruct (pyval_eqb v' v) eqn:Hv.
  - intro H. injection H as <-. apply pyval_eqb_true in Hv. subst. now left.
  - intro H. right. now apply IH.
Qed.

Lemma sample_peers_echo : peers_echo_jobid sample_E.
Proof.
  intros n peer a k hb pb h p hv j Hhb Hpb Hrep Hh Hj.
  simpl in Hrep. unfold bob_peers in Hrep.
  apply table_dumps_In in Hpb.
  destruct (String.eqb hb "Q:alice,y" && String.eqb pb "P:getitem(y,)") eqn:Hy.
  - apply andb_prop in Hy. destruct Hy as [_ Hy].
    apply String.eqb_eq in Hy. subst pb.
    injection Hrep as <- <-.
    vm_compute in Hh. injection Hh as <-.
    vm_compute in Hj. injection Hj as <-.
    unfold sample_codec in Hpb. simpl in Hpb.
    repeat (destruct Hpb as [Hpb | Hpb]; [try discriminate Hpb | ]);
      try contradiction.
    unfold request_payload in Hpb. now injection Hpb as <-.
  - destruct (String.eqb hb "Q:alice,z" && String.eqb pb "P:getitem(z,)")
      eqn:Hz;
      [ | discriminate].
    apply andb_prop in Hz. destruct Hz as [_ Hz].
    apply String.eqb_eq in Hz. subst pb.
    injection Hrep as <- <-.
    vm_compute in Hh. injection Hh as <-.
    vm_compute in Hj. injection Hj as <-.
    unfold sample_codec in Hpb. simpl in Hpb.
    repeat (destruct Hpb as [Hpb | Hpb]; [try discriminate Hpb | ]);
      try contradiction.
    unfold request_payload in Hpb. now injection Hpb as <-.
Qed.

(** ** Peers that run this module keep to the correlation rule *)

Lemma request_unpacks (E : Env) a k hb pb :
  loads E hb = Ret (request_header a k) ->
  loads E pb = Ret (request_payload k) ->
  unpack_function E hb pb
  = Ret (VStr "getitem", [k], VDict [], k, VBool true).
Proof.
  intros Hh Hp. unfold unpack_function. rewrite Hp. simpl. rewrite Hh.
  reflexivity.
Qed.

(** When every peer is a running worker of this module and the
    serializer reads back what it writes, the reply to a [getitem]
    request of [collect] carries the job identifier of the request. *)
Lemma worker_peers_echo (E : Env) (peer_node : nat -> string -> node)
    (identity : nat -> string -> bytes) :
  serializer_round_trip E ->
  (forall n peer,
      String.eqb (status (peer_node n peer)) "closed" = false) ->
  (forall n peer request,
      peer_reply E n peer request
      = worker_reply E (peer_node n peer) (identity n peer) request) ->
  peers_echo_jobid E.
Proof.
  intros Hrt Hnode Hpeers n peer a k hb pb h p hv j Hhb Hpb Hrep Hh Hj.
  rewrite Hpeers in Hrep. unfold worker_reply in Hrep.
  pose proof (Hnode n peer) as Hrun.
  assert (Hun : unpack_function E hb pb
                = Ret (VStr "getitem", [k], VDict [], k, VBool true)).
  { eapply request_unpacks; apply Hrt; eassumption. }
  assert (Hloop : listen_to_workers E [Incoming [identity n peer; hb; pb]]
                    (peer_node n peer)
                  = listen_to_workers E []
                      (push_job {| job_func := VStr "getitem";
                                   job_args := [k]; job_kwargs := VDict [];
                                   job_jobid := k;
                                   job_send :=
                                     if truthy (VBool true)
                                     then Some (SendToWorker (identity n peer))
                                     else None |} (peer_node n peer))).
  { eapply listen_to_workers_incoming.
    - exact Hrun.
    - exact Hun.
    - apply Hrt. exact Hhb.
    - reflexivity. }
  rewrite Hloop in Hrep. simpl in Hrep.
  unfold reply_of in Hrep. simpl in Hrep.
  match type of Hrep with
  | context [execute_and_reply ?E ?f ?a ?kw ?j ?s ?w] =>
      destruct (run_function E f a kw w) as [[[st result] | e |] w2] eqn:R;
      [ rewrite (execute_and_reply_after_run E f a kw j s w R) in Hrep
      | unfold execute_and_reply, bind in Hrep; rewrite R in Hrep;
        discriminate
      | unfold execute_and_reply, bind in Hrep; rewrite R in Hrep;
        discriminate ]
  end.
  simpl in Hrep.
  destruct (send_to_worker E (identity n peer) (reply_header k st) result w2)
    as [[[] | e |] w3] eqn:S; try discriminate.
  apply send_to_worker_sent in S. destruct S as (hb' & pb' & Hhb' & _ & ->).
  simpl in Hrep. injection Hrep as <- <-.
  rewrite (Hrt _ _ Hhb') in Hh. injection Hh as <-.
  simpl in Hj. now injection Hj as <-.
Qed.

(** ** Keys that are already held *)

(** C5, as the code has it.  When [collect] is called with a key [k] of
    [locations] that the Data Store already holds, then, however the
    call ends, every socket it has opened carries the request for a key
    that was missing, which is a key different from [k], and none
    carries a request for [k].  The value stored under [k] is the one
    that was there provided the peers keep to the correlation rule, each
    reply carrying the job identifier of its request. *)
Theorem collect_skips_present_keys (E : Env) :
  forall (k : pyval) (items : store) (w : node) (o : outcome pyval) (w' : node),
    dict_mem k (data w) = true ->
    In k (map fst items) ->
    collect E (VDict items) w = (o, w') ->
    (exists socks,
        peer_socks w' = rev socks ++ peer_socks w
        /\ Forall (fun s => exists k',
                       key_eqb k' k = false /\ dict_mem k' (data w) = false
                       /\ is_request_for E (address w) k' s) socks)
    /\ (peers_echo_jobid E ->
        dict_lookup k (data w') = dict_lookup k (data w)).
Proof.
  intros k items w o w' Hk Hin H. split.
  - destruct (collect_sockets E items w H) as (socks & Hp & Hreq).
    exists socks. split; [assumption | ].
    eapply Forall_impl; [ | exact Hreq].
    intros s (k' & locs & _ & Hm & Hr). exists k'. repeat split; try assumption.
    now apply dict_mem_differ with (d := data w).
  - intro Hecho. eapply collect_frame; eauto.
Qed.

Lemma collect_skips_present_keys_witness :
  let w := sample_node [(VStr "x", VInt 1)] in
  let items := [(VStr "x", VList [VStr "tcp://carol:5000"]);
                (VStr "y", VList [VStr "tcp://bob:5000"])] in
  let w' := snd (collect sample_E (VDict items) w) in
  (exists socks,
      peer_socks w' = rev socks ++ peer_socks w
      /\ Forall (fun s => exists k',
                     key_eqb k' (VStr "x") = false
                     /\ dict_mem k' (data w) = false
                     /\ is_request_for sample_E (address w) k' s) socks)
  /\ dict_lookup (VStr "x") (data w') = dict_lookup (VStr "x") (data w).
Proof.
  intros w items w'.
  assert (Hrun : collect sample_E (VDict items) w
                 = (fst (collect sample_E (VDict items) w), w'))
    by (vm_compute; reflexivity).
  destruct (@collect_skips_present_keys sample_E (VStr "x") items w
              (fst (collect sample_E (VDict items) w)) w'
              eq_refl (or_introl eq_refl) Hrun) as [Hsocks Hkept].
  split; [exact Hsocks | exact (Hkept sample_peers_echo)].
Defined.

Example collect_fetches_only_missing :
  let w' := snd (collect sample_E
                   (VDict [(VStr "x", VList [VStr "tcp://carol:5000"]);
                           (VStr "y", VList [VStr "tcp://bob:5000"])])
                   (sample_node [(VStr "x", VInt 1)])) in
  data w' = [(VStr "x", VInt 1); (VStr "y", VInt 2)]
  /\ map sock_sent (peer_socks w') = [["Q:alice,y"; "P:getitem(y,)"]].
Proof. vm_compute. split; reflexivity. Qed.

(** C5, as stated, fails when a peer answers under the job identifier of
    a key that is held: [x = 1] is in the store, so only [y] is asked
    for; the peer answers [666] under the job identifier [x], and
    [collect], which stores each reply under the job identifier of its
    header, returns with [x = 666]. *)
Lemma reply_under_held_key_overwrites_it :
  let w := sample_node [(VStr "x", VInt 1)] in
  let r := collect liar_E
             (VDict [(VStr "x", VList [VStr "tcp://carol:5000"]);
                     (VStr "y", VList [VStr "tcp://bob:5000"])]) w in
  dict_lookup (VStr "x") (data w) = Some (VInt 1)
  /\ fst r = Ret VNone
  /\ map sock_sent (peer_socks (snd r)) = [["Q:alice,y"; "P:getitem(y,)"]]
  /\ dict_lookup (VStr "x") (data (snd r)) = Some (VInt 666).
Proof. vm_compute. repeat split. Qed.

(** ** Failure of the evaluator *)

(** C4, as the code has it.  When [collect] has returned and the
    evaluator raises an [Exception], [compute] returns the record of the
    key, of the duration, which is the second clock reading minus the
    first, and of a status that is the exception and not "OK"; and it
    writes nothing: the Data Store is the one [collect] left.  So with
    peers that keep to the correlation rule a target key that is equal
    to no key of [locations] is as it was before the call, absent if it
    was absent. *)
Theorem compute_failure_writes_nothing (E : Env) :
  forall (key task locations v : pyval) (w w1 : node) (e : exn),
    collect E locations w = (Ret v, w1) ->
    dask_get E (data w1) task = Raise e ->
    is_Exception e = true ->
    let start := now E (clock_tick w1) in
    let stop := now E (S (clock_tick w1)) in
    exists w2,
      compute E key task locations w
      = (Ret (VDict [(VStr "key", key);
                     (VStr "duration", VFloat (float_sub stop start));
                     (VStr "status", exn_value e)]), w2)
      /\ exn_value e <> VStr "OK"
      /\ data w2 = data w1
      /\ (peers_echo_jobid E ->
          forall items,
            locations = VDict items ->
            Forall (fun kv => key_eqb (fst kv) key = false) items ->
            dict_lookup key (data w2) = dict_lookup key (data w)).
Proof.
  intros key task locations v w w1 e Hc He Hx start stop.
  exists (tick_clock (tick_clock w1)). repeat split.
  - now apply compute_on_failure with (v := v).
  - destruct e. discriminate.
  - intros Hecho items -> Hn. simpl.
    eapply collect_frame; eauto.
Qed.

Lemma compute_failure_writes_nothing_witness :
  let w := sample_node [(VStr "x", VInt 1)] in
  let locations := VDict [(VStr "y", VList [VStr "tcp://bob:5000"])] in
  let w1 := snd (collect sample_E locations w) in
  exists w2,
    compute sample_E (VStr "w") (VStr "nokey") locations w
    = (Ret (VDict [(VStr "key", VStr "w");
                   (VStr "duration",
                    VFloat (float_sub (now sample_E (S (clock_tick w1)))
                              (now sample_E (clock_tick w1))));
                   (VStr "status", VExc "KeyError" (VStr "nokey"))]), w2)
    /\ VExc "KeyError" (VStr "nokey") <> VStr "OK"
    /\ data w2 = data w1
    /\ dict_lookup (VStr "w") (data w2) = dict_lookup (VStr "w") (data w).
Proof.
  intros w locations w1.
  assert (Hcollect : collect sample_E locations w = (Ret VNone, w1))
    by (vm_compute; reflexivity).
  assert (Heval : dask_get sample_E (data w1) (VStr "nokey")
                  = Raise (KeyError (VStr "nokey")))
    by (vm_compute; reflexivity).
  destruct (@compute_failure_writes_nothing sample_E (VStr "w") (VStr "nokey")
              locations VNone w w1 (KeyError (VStr "nokey")) Hcollect Heval
              eq_refl)
    as (w2 & Hrun & Hstatus & Hdata & Hkey).
  exists w2. repeat split; try assumption.
  apply (Hkey sample_peers_echo [(VStr "y", VList [VStr "tcp://bob:5000"])]
           eq_refl).
  repeat constructor.
Defined.

Example compute_end_to_end :
  let r := compute sample_E (VStr "w") (VStr "y")
             (VDict [(VStr "x", VList [VStr "tcp://carol:5000"]);
                     (VStr "y", VList [VStr "tcp://bob:5000"])])
             (sample_node [(VStr "x", VInt 1)]) in
  fst r = Ret (VDict [(VStr "key", VStr "w");
                      (VStr "duration",
                       VFloat (float_sub (float_of_nat 1) (float_of_nat 0)));
                      (VStr "status", VStr "OK")])
  /\ data (snd r)
     = [(VStr "x", VInt 1); (VStr "y", VInt 2); (VStr "w", VInt 2)].
Proof. vm_compute. split; reflexivity. Qed.

(** C4, as stated, fails in two ways.  When the target key is itself one
    of the keys of [locations], [collect], the first step of [compute],
    fetches [z = 42] from the peer and stores it; the evaluator then
    raises, and the Data Store, which did not hold [z], holds it after
    the call.  And when the evaluator raises [SystemExit], which is no
    [Exception], [compute] returns no record: the exception leaves it. *)
Lemma failed_compute_leaves_fetched_target_key :
  let w := sample_node [] in
  let r := compute sample_E (VStr "z") (VStr "nokey")
             (VDict [(VStr "z", VList [VStr "tcp://bob:5000"])]) w in
  dict_mem (VStr "z") (data w) = false
  /\ dask_get sample_E [(VStr "z", VInt 42)] (VStr "nokey")
     = Raise (KeyError (VStr "nokey"))
  /\ (exists duration,
         fst r = Ret (VDict [(VStr "key", VStr "z");
                             (VStr "duration", VFloat duration);
                             (VStr "status",
                              VExc "KeyError" (VStr "nokey"))]))
  /\ dict_lookup (VStr "z") (data (snd r)) = Some (VInt 42)
  /\ dask_get exit_E [] (VStr "nokey") = Raise (Exc "SystemExit" (VInt 1))
  /\ fst (compute exit_E (VStr "w") (VStr "nokey") (VDict []) w)
     = Raise (Exc "SystemExit" (VInt 1)).
Proof.
  vm_compute. repeat split. eexists. reflexivity.
Qed.

Section Survive.

Variable E : Env.

(** An assignment under another key leaves an entry in place. *)
Lemma dict_set_keeps_entry k0 v0 k v d :
  In (k0, v0) d -> key_eqb k0 k = false -> In (k0, v0) (dict_set k v d).
Proof.
  intros Hin Hne. induction d as [ | [k1 v1] d IH]; simpl in *.
  - contradiction.
  - destruct Hin as [Heq | Hin].
    + injection Heq as -> ->. rewrite Hne. now left.
    + destruct (key_eqb k1 k); [now right | right; now apply IH].
Qed.

(** An assignment leaves an entry with the value, under the key or
    under the equal key that the dictionary already had. *)
Lemma dict_set_entry k v d :
  exists k0, In (k0, v) (dict_set k v d) /\ (k0 = k \/ key_eqb k0 k = true).
Proof.
  induction d as [ | [k1 v1] d IH]; simpl.
  - exists k. split; [now left | now left].
  - destruct (key_eqb k1 k) eqn:Hk.
    + exists k1. split; [now left | now right].
    + destruct IH as (k0 & Hin & Hk0). exists k0. split; [now right | exact Hk0].
Qed.

Lemma store_all_keeps_entry k0 v0 fetched : forall d,
  In (k0, v0) d ->
  Forall (fun jv => key_eqb k0 (fst jv) = false) fetched ->
  In (k0, v0) (store_all fetched d).
Proof.
  induction fetched as [ | [j v] rest IH]; intros d Hin Hn; simpl.
  - exact Hin.
  - inversion Hn as [ | ? ? Hj Hrest]; subst. simpl in Hj.
    unfold store_all in *. simpl. apply IH; [ | assumption].
    now apply dict_set_keeps_entry.
Qed.

(** The last value assigned under a key stays in the store. *)
Lemma store_all_entry j pv before after d :
  Forall (fun jv => key_eqb (fst jv) j = false) after ->
  exists k0,
    In (k0, pv) (store_all (before ++ (j, pv) :: after) d)
    /\ (k0 = j \/ key_eqb k0 j = true).
Proof.
  intro Hn. rewrite store_all_app. unfold store_all at 1. simpl.
  fold (store_all after (dict_set j pv (store_all before d))).
  destruct (dict_set_entry j pv (store_all before d)) as (k0 & Hin & Hk0).
  exists k0. split; [ | exact Hk0].
  apply store_all_keeps_entry; [exact Hin | ].
  eapply Forall_impl; [ | exact Hn]. intros [j' v'] Hj. simpl in *.
  destruct Hk0 as [-> | Hk0].
  - destruct (key_eqb j j') eqn:Hjj; [ | reflexivity].
    now rewrite key_eqb_sym, Hjj in Hj.
  - now rewrite (key_eqb_left _ _ j' Hk0), key_eqb_sym.
Qed.

(** [compute] after a [collect] that has returned and an evaluator that
    raises: the store is the one [collect] left, whether the exception
    is caught or leaves [compute]. *)
Lemma compute_failure_store key task locations w v w1 e :
  collect E locations w = (Ret v, w1) ->
  dask_get E (data w1) task = Raise e ->
  exists o w2,
    compute E key task locations w = (o, w2)
    /\ data w2 = data w1
    /\ (is_Exception e = true -> exists record, o = Ret record)
    /\ (is_Exception e = false -> o = Raise e).
Proof.
  intros Hc He. destruct (is_Exception e) eqn:Hx.
  - eexists. exists (tick_clock (tick_clock w1)).
    split; [eapply compute_on_failure; eassumption | ].
    split; [reflexivity | ].
    split; [intros _; eexists; reflexivity | discriminate].
  - exists (Raise e), (tick_clock w1).
    split; [eapply compute_on_exit; eassumption | ].
    split; [reflexivity | ].
    split; [discriminate | reflexivity].
Qed.

End Survive.

(** C10, as the code has it.  When [collect] has returned and the
    evaluator raises, [compute] ends, with a record when the exception
    is an [Exception], with the Data Store that [collect] left: the
    store of before the call with every reply read from the sockets of
    [collect] assigned, in order, under the job identifier of its
    header.  The value of the last reply under a job identifier is in
    the store after the call, and is what a lookup of that job
    identifier gives when the identifier is a key that is equal to
    itself.  Nothing is rolled back: the entry of the target key after
    the call is the one [collect] left, for the failure only withholds
    the assignment of a result. *)
Theorem collected_values_survive_failure (E : Env) :
  forall (key task locations v : pyval) (w w1 : node) (e : exn),
    collect E locations w = (Ret v, w1) ->
    dask_get E (data w1) task = Raise e ->
    exists o w2 socks fetched,
      compute E key task locations w = (o, w2)
      /\ (is_Exception e = true -> exists record, o = Ret record)
      /\ (is_Exception e = false -> o = Raise e)
      /\ peer_socks w1 = rev socks ++ peer_socks w
      /\ Forall2 (fetched_from E) socks fetched
      /\ data w2 = store_all fetched (data w)
      /\ data w2 = data w1
      /\ dict_lookup key (data w2) = dict_lookup key (data w1)
      /\ (forall j pv before after,
             fetched = before ++ (j, pv) :: after ->
             Forall (fun jv => key_eqb (fst jv) j = false) after ->
             (exists k0,
                 In (k0, pv) (data w2) /\ (k0 = j \/ key_eqb k0 j = true))
             /\ (key_eqb j j = true -> dict_lookup j (data w2) = Some pv)).
Proof.
  intros key task locations v w w1 e Hc He.
  destruct (collect_returns E locations w Hc)
    as (items & socks & fetched & _ & Hp & _ & Hf & Hd).
  destruct (compute_failure_store E key task locations w Hc He)
    as (o & w2 & Hrun & Hd2 & Hret & Hexit).
  exists o, w2, socks, fetched.
  split; [exact Hrun | ]. split; [exact Hret | ]. split; [exact Hexit | ].
  split; [exact Hp | ]. split; [exact Hf | ].
  split; [congruence | ]. split; [exact Hd2 | ].
  split; [now rewrite Hd2 | ].
  intros j pv before after -> Hn. rewrite Hd2, Hd. split.
  - now apply store_all_entry.
  - intro Hj. now apply store_all_lookup_last.
Qed.

Lemma collected_values_survive_failure_witness :
  let w := sample_node [(VStr "x", VInt 1)] in
  let locations := VDict [(VStr "y", VList [VStr "tcp://bob:5000"])] in
  let w1 := snd (collect sample_E locations w) in
  data w1 = [(VStr "x", VInt 1); (VStr "y", VInt 2)]
  /\ exists o w2 socks fetched,
      compute sample_E (VStr "w") (VStr "nokey") locations w = (o, w2)
      /\ (is_Exception (KeyError (VStr "nokey")) = true ->
          exists record, o = Ret record)
      /\ (is_Exception (KeyError (VStr "nokey")) = false ->
          o = Raise (KeyError (VStr "nokey")))
      /\ peer_socks w1 = rev socks ++ peer_socks w
      /\ Forall2 (fetched_from sample_E) socks fetched
      /\ data w2 = store_all fetched (data w)
      /\ data w2 = data w1
      /\ dict_lookup (VStr "w") (data w2) = dict_lookup (VStr "w") (data w1)
      /\ (forall j pv before after,
             fetched = before ++ (j, pv) :: after ->
             Forall (fun jv => key_eqb (fst jv) j = false) after ->
             (exists k0,
                 In (k0, pv) (data w2) /\ (k0 = j \/ key_eqb k0 j = true))
             /\ (key_eqb j j = true -> dict_lookup j (data w2) = Some pv)).
Proof.
  intros w locations w1. split; [vm_compute; reflexivity | ].
  apply (@collected_values_survive_failure sample_E (VStr "w") (VStr "nokey")
           locations VNone w w1 (KeyError (VStr "nokey"))).
  - vm_compute. reflexivity.
  - vm_compute. reflexivity.
Defined.

(** C10, as stated, fails for a target key that [collect] has fetched:
    the store does not hold [y]; [compute] of [y] first collects it from
    the peer, the evaluator then raises, and after the call the target
    key [y] is bound to the collected value.  The failure has rolled
    back nothing. *)
Lemma failed_compute_rolls_back_nothing :
  let w := sample_node [] in
  let locations := VDict [(VStr "y", VList [VStr "tcp://bob:5000"])] in
  let r := compute sample_E (VStr "y") (VStr "nokey") locations w in
  dict_lookup (VStr "y") (data w) = None
  /\ data (snd (collect sample_E locations w)) = [(VStr "y", VInt 2)]
  /\ dask_get sample_E [(VStr "y", VInt 2)] (VStr "nokey")
     = Raise (KeyError (VStr "nokey"))
  /\ (exists duration,
         fst r = Ret (VDict [(VStr "key", VStr "y");
                             (VStr "duration", VFloat duration);
                             (VStr "status",
                              VExc "KeyError" (VStr "nokey"))]))
  /\ dict_lookup (VStr "y") (data (snd r)) = Some (VInt 2).
Proof.
  vm_compute. repeat split. eexists. reflexivity.
Qed.

(** ** One lock for both send paths *)

Section SendLock.

Variable msgs : list outgoing.

Lemma send_steps_nth (m : outgoing) (p : nat) :
  nth_error (send_steps m) p
  = match p with
    | 0 => Some (Acquire (send_lock (out_send m)))
    | S q =>
        match nth_error (send_frames m) q with
        | Some f => Some (SendFrame (send_channel (out_send m)) f)
        | None => if Nat.eqb q (List.length (send_frames m))
                  then Some (Release (send_lock (out_send m)))
                  else None
        end
    end.
Proof.
  unfold send_steps. destruct p as [ | q]; [reflexivity | ]. simpl.
  destruct (nth_error (send_frames m) q) as [f | ] eqn:Hq.
  - rewrite nth_error_app1.
    + now rewrite nth_error_map, Hq.
    + rewrite length_map. apply nth_error_Some. congruence.
  - apply nth_error_None in Hq.
    rewrite nth_error_app2 by (rewrite length_map; exact Hq).
    rewrite length_map.
    destruct (Nat.eqb q (List.length (send_frames m))) eqn:He.
    + apply Nat.eqb_eq in He. subst q. now rewrite Nat.sub_diag.
    + apply Nat.eqb_neq in He.
      destruct (q - List.length (send_frames m)) as [ | r] eqn:Hr; [lia | ].
      simpl. now destruct r.
Qed.

Lemma firstn_S_nth_error {A : Type} (l : list A) : forall q x,
  nth_error l q = Some x -> firstn (S q) l = firstn q l ++ [x].
Proof.
  induction l as [ | a l IH]; intros [ | q] x H; simpl in *; try discriminate.
  - now injection H as <-.
  - f_equal. now apply IH.
Qed.

Lemma pool_inv_start : pool_inv msgs pool_start.
Proof.
  split.
  - intro i. unfold sending. simpl. split; [discriminate | ].
    destruct (nth_error msgs i); discriminate.
  - exists []. reflexivity.
Qed.

Lemma sending_advance_other s i j h w :
  j <> i ->
  sending msgs {| holder := h; pc := advance i (pc s); wire := w |} j
  = sending msgs s j.
Proof.
  intro Hne. unfold sending, advance. cbn [pc].
  apply Nat.eqb_neq in Hne. now rewrite Hne.
Qed.

Lemma pool_step_inv i s s' :
  pool_inv msgs s -> pool_step msgs i s = Some s' -> pool_inv msgs s'.
Proof.
  intros [Hhold [done Hwire]] Hstep. unfold pool_step in Hstep.
  destruct (nth_error msgs i) as [m | ] eqn:Hm; [ | discriminate].
  rewrite send_steps_nth in Hstep.
  destruct (pc s i) as [ | q] eqn:Hpc.
  - (* acquire *)
    destruct (send_lock (out_send m)).
    destruct (holder s SelfLock) as [h | ] eqn:Hh; [discriminate | ].
    injection Hstep as <-. split.
    + intro j. simpl. unfold set_holder. simpl.
      destruct (Nat.eq_dec j i) as [-> | Hne].
      * unfold sending, advance. cbn [pc]. rewrite Hm, Nat.eqb_refl, Hpc.
        simpl. tauto.
      * rewrite (sending_advance_other s _ _ Hne).
        rewrite <- Hhold. split; congruence.
    + exists done. simpl. rewrite Hwire. unfold partial_frames. simpl.
      rewrite Hh. unfold set_holder, advance. simpl.
      now rewrite Nat.eqb_refl, Hpc.
  - destruct (nth_error (send_frames m) q) as [f | ] eqn:Hq.
    + (* one frame *)
      assert (Hlt : q < List.length (send_frames m))
        by (apply nth_error_Some; congruence).
      assert (Hi : holder s SelfLock = Some i).
      { apply Hhold. unfold sending. rewrite Hm, Hpc.
        apply andb_true_iff. split; apply Nat.leb_le; lia. }
      injection Hstep as <-. split.
      * intro j. simpl. destruct (Nat.eq_dec j i) as [-> | Hne].
        -- unfold sending, advance. cbn [pc]. rewrite Hm, Nat.eqb_refl, Hpc.
           split; [ | intros _; exact Hi]. intros _.
           apply andb_true_iff. split; apply Nat.leb_le; lia.
        -- rewrite (sending_advance_other s _ _ Hne). apply Hhold.
      * exists done. simpl. rewrite Hwire. unfold partial_frames. simpl.
        rewrite Hi. unfold advance. rewrite Nat.eqb_refl, Hpc. simpl.
        rewrite Nat.sub_0_r, <- app_assoc. f_equal.
        symmetry. apply firstn_S_nth_error.
        unfold wire_frames. rewrite Hm, nth_error_map, Hq. reflexivity.
    + (* release *)
      destruct (Nat.eqb q (List.length (send_frames m))) eqn:Hlen;
        [ | discriminate].
      apply Nat.eqb_eq in Hlen.
      destruct (send_lock (out_send m)).
      assert (Hi : holder s SelfLock = Some i).
      { apply Hhold. unfold sending. rewrite Hm, Hpc.
        apply andb_true_iff. split; apply Nat.leb_le; lia. }
      rewrite Hi in Hstep. injection Hstep as <-. split.
      * intro j. simpl. unfold set_holder. simpl.
        split; [discriminate | ]. intro Hs. exfalso.
        destruct (Nat.eq_dec j i) as [-> | Hne].
        -- unfold sending, advance in Hs. cbn [pc] in Hs.
           rewrite Hm, Nat.eqb_refl, Hpc in Hs.
           apply andb_true_iff in Hs. destruct Hs as [_ Hs].
           apply Nat.leb_le in Hs. lia.
        -- rewrite (sending_advance_other s _ _ Hne) in Hs.
           apply Hhold in Hs. congruence.
      * exists (done ++ [i]). simpl. rewrite Hwire.
        rewrite flat_map_app. simpl. rewrite app_nil_r.
        unfold partial_frames. simpl. rewrite Hi. unfold set_holder. simpl.
        rewrite app_nil_r. f_equal. rewrite Hpc. simpl. rewrite Nat.sub_0_r.
        apply firstn_all2. unfold wire_frames. rewrite Hm, length_map. lia.
Qed.

Lemma pool_run_inv schedule : pool_inv msgs (pool_run msgs schedule).
Proof.
  unfold pool_run.
  assert (H : forall s, pool_inv msgs s ->
            pool_inv msgs (fold_left (fun s i => match pool_step msgs i s with
                                            | Some s' => s'
                                            | None => s
                                            end) schedule s)).
  { induction schedule as [ | i rest IH]; intros s Hs; simpl; [exact Hs | ].
    apply IH. destruct (pool_step msgs i s) as [s' | ] eqn:Hstep.
    - now apply pool_step_inv with (i := i) (s := s).
    - exact Hs. }
  apply H, pool_inv_start.
Qed.

End SendLock.

Lemma pool_run_exclusive msgs schedule i j :
  sending msgs (pool_run msgs schedule) i = true ->
  sending msgs (pool_run msgs schedule) j = true ->
  i = j.
Proof.
  intros Hi Hj. destruct (pool_run_inv msgs schedule) as [Hhold _].
  apply Hhold in Hi. apply Hhold in Hj. congruence.
Qed.

(** The frames that the send functions of the node put on a socket are
    those that a pool thread writes one by one. *)
Lemma send_via_frames (E : Env) s header result w w1 :
  send_via E s header result w = (Ret tt, w1) ->
  exists hb pb,
    let m := {| out_send := s; out_header := hb; out_result := pb |} in
    w1 = match s with
         | SendToScheduler => push_dealer (send_frames m) w
         | SendToWorker _ => push_router (send_frames m) w
         end.
Proof.
  destruct s as [ | peer]; simpl; intro H.
  - apply send_to_scheduler_sent in H.
    destruct H as (hb & pb & _ & _ & ->). now exists hb, pb.
  - apply send_to_worker_sent in H.
    destruct H as (hb & pb & _ & _ & ->). now exists hb, pb.
Qed.

(** C9, as the code has it.  Both send paths take the same lock,
    [self.lock], the only one of the node.  So for any replies being
    sent by any number of pool threads under any schedule: at most one
    thread is inside a send, whichever socket it writes to, and the
    frames written so far, in order, are whole messages followed by the
    frames that the holder of the lock has written of its own; no two
    messages are interleaved on a socket, and the two sockets are never
    written at the same time. *)
Theorem one_lock_serializes_both_channels :
  forall (msgs : list outgoing) (schedule : list nat),
    let s := pool_run msgs schedule in
    (forall a b, send_lock a = send_lock b)
    /\ (forall i j,
           sending msgs s i = true -> sending msgs s j = true -> i = j)
    /\ exists done,
        rev (wire s)
        = flat_map (wire_frames msgs) done ++ partial_frames msgs s.
Proof.
  intros msgs schedule s. repeat split.
  - intros a b. now destruct a, b.
  - intros i j. apply pool_run_exclusive.
  - destruct (pool_run_inv msgs schedule) as [_ Hwire]. exact Hwire.
Qed.

Lemma one_lock_serializes_both_channels_witness :
  let msgs := [{| out_send := SendToScheduler; out_header := "h0";
                  out_result := "r0" |};
               {| out_send := SendToWorker "bob"; out_header := "h1";
                  out_result := "r1" |}] in
  let s := pool_run msgs [1; 0; 1; 0; 1] in
  sending msgs s 1 = true
  /\ (forall j, sending msgs s j = true -> 1 = j)
  /\ exists done,
      rev (wire s) = flat_map (wire_frames msgs) done ++ partial_frames msgs s.
Proof.
  intros msgs s.
  destruct (one_lock_serializes_both_channels msgs [1; 0; 1; 0; 1])
    as (_ & Hexcl & Hwire).
  split; [reflexivity | ]. split; [ | exact Hwire].
  intros j Hj. apply (Hexcl 1 j); [reflexivity | exact Hj].
Defined.

(** C9, as stated, fails: the two send paths do not have a lock each.
    With one thread replying to the coordinator and one replying to the
    peer [bob], once the first has written its header frame on the
    DEALER socket the second cannot take a step towards the ROUTER
    socket, and under no schedule are the two inside their sends
    together. *)
Lemma send_paths_share_self_lock :
  let msgs := [{| out_send := SendToScheduler; out_header := "h0";
                  out_result := "r0" |};
               {| out_send := SendToWorker "bob"; out_header := "h1";
                  out_result := "r1" |}] in
  send_lock SendToScheduler = send_lock (SendToWorker "bob")
  /\ wire (pool_run msgs [0; 0]) = [(0, Dealer, "h0")]
  /\ sending msgs (pool_run msgs [0; 0]) 0 = true
  /\ pool_step msgs 1 (pool_run msgs [0; 0]) = None
  /\ forall schedule,
      ~ (sending msgs (pool_run msgs schedule) 0 = true
         /\ sending msgs (pool_run msgs schedule) 1 = true).
Proof.
  intro msgs. repeat split.
  intros schedule [H0 H1].
  pose proof (pool_run_exclusive msgs schedule 0 1 H0 H1). discriminate.
Qed.

Example two_replies_interleaved_schedule :
  let msgs := [{| out_send := SendToScheduler; out_header := "h0";
                  out_result := "r0" |};
               {| out_send := SendToWorker "bob"; out_header := "h1";
                  out_result := "r1" |}] in
  rev (wire (pool_run msgs [0; 1; 1; 0; 1; 0; 0; 1; 1; 1; 1; 1]))
  = [(0, Dealer, "h0"); (0, Dealer, "r0");
     (1, Router, "bob"); (1, Router, "h1"); (1, Router, "r1")].
Proof. reflexivity. Qed.

(** * Further properties of the worker *)

(** ** The Data Store through the registry *)

Section StoreRoundTrip.

Variable E : Env.

Lemma run_function_ok func args kwargs w r w1 :
  call_function E func args kwargs w = (Ret r, w1) ->
  run_function E func args kwargs w = (Ret ("OK", r), w1).
Proof.
  intro H. unfold run_function, bind, attempt. now rewrite H.
Qed.

Lemma call_setitem k v w :
  hashable k = true ->
  call_function E (VStr "setitem") [k; v] (VDict []) w
  = (Ret VNone, set_data (dict_set k v (data w)) w).
Proof.
  intro Hk. unfold call_function, bind, lift. simpl.
  unfold setitem. now rewrite Hk.
Qed.

Lemma call_getitem_present k v w :
  hashable k = true ->
  dict_lookup k (data w) = Some v ->
  call_function E (VStr "getitem") [k] (VDict []) w = (Ret v, w).
Proof.
  intros Hk Hl. unfold call_function, bind, lift. simpl.
  unfold getitem. now rewrite Hk, Hl.
Qed.

Lemma call_delitem_present k v w :
  hashable k = true ->
  dict_lookup k (data w) = Some v ->
  call_function E (VStr "delitem") [k] (VDict []) w
  = (Ret VNone, set_data (dict_del k (data w)) w).
Proof.
  intros Hk Hl. unfold call_function, bind, lift. simpl.
  unfold delitem. now rewrite Hk, Hl.
Qed.

(** A key that is not equal to itself is equal to no key. *)
Lemma key_eqb_never k k0 : key_eqb k k = false -> key_eqb k0 k = false.
Proof.
  unfold key_eqb. destruct (key_norm k) as [x | ].
  - now rewrite pyval_eqb_refl.
  - now destruct (key_norm k0).
Qed.

Lemma dict_lookup_not_in k d :
  Forall (fun kv => key_eqb (fst kv) k = false) d -> dict_lookup k d = None.
Proof.
  induction d as [ | [k' v'] d IH]; simpl; intro H; [reflexivity | ].
  inversion H as [ | ? ? Hk Hd]; subst. simpl in Hk. rewrite Hk. now apply IH.
Qed.

Lemma dict_lookup_never k d : key_eqb k k = false -> dict_lookup k d = None.
Proof.
  intro H. apply dict_lookup_not_in. apply Forall_forall.
  intros kv _. now apply key_eqb_never.
Qed.

Lemma dict_lookup_del_same k d :
  unique_keys d -> dict_lookup k (dict_del k d) = None.
Proof.
  induction d as [ | [k' v'] d IH]; simpl; intro H.
  - reflexivity.
  - destruct H as [Hn Hd].
    destruct (key_eqb k' k) eqn:Hk.
    + apply dict_lookup_not_in. eapply Forall_impl; [ | exact Hn].
      intros [k1 v1] H1. simpl in *.
      now rewrite <- (key_eqb_right _ _ k1 Hk), key_eqb_sym.
    + simpl. rewrite Hk. now apply IH.
Qed.

Lemma dict_lookup_del_other k k' d :
  key_eqb k' k = false -> dict_lookup k (dict_del k' d) = dict_lookup k d.
Proof.
  intro Hne. induction d as [ | [k0 v0] d IH]; simpl; [reflexivity | ].
  destruct (key_eqb k0 k') eqn:Hk.
  - now rewrite (key_eqb_left _ _ k Hk), Hne.
  - simpl. now rewrite IH.
Qed.

Lemma dict_del_Forall (P : pyval * pyval -> Prop) k d :
  Forall P d -> Forall P (dict_del k d).
Proof.
  induction d as [ | [k0 v0] d IH]; simpl; intro H; [constructor | ].
  inversion H; subst.
  destruct (key_eqb k0 k); [assumption | ]. constructor; auto.
Qed.

Lemma unique_keys_del k d : unique_keys d -> unique_keys (dict_del k d).
Proof.
  induction d as [ | [k0 v0] d IH]; simpl; intro H.
  - exact I.
  - destruct H as [Hn Hd].
    destruct (key_eqb k0 k); [assumption | ].
    simpl. split; [now apply dict_del_Forall | now apply IH].
Qed.

Lemma dict_set_Forall (P : pyval -> Prop) k v d :
  P k -> Forall (fun kv => P (fst kv)) d ->
  Forall (fun kv => P (fst kv)) (dict_set k v d).
Proof.
  intro Hk. induction d as [ | [k0 v0] d IH]; simpl; intro H.
  - now repeat constructor.
  - inversion H; subst.
    destruct (key_eqb k0 k); constructor; auto.
Qed.

Lemma unique_keys_set k v d : unique_keys d -> unique_keys (dict_set k v d).
Proof.
  induction d as [ | [k0 v0] d IH]; simpl; intro H.
  - split; [constructor | exact I].
  - destruct H as [Hn Hd].
    destruct (key_eqb k0 k) eqn:Hk; simpl.
    + now split.
    + split; [ | now apply IH].
      now apply (dict_set_Forall (fun x => key_eqb k0 x = false)).
Qed.

End StoreRoundTrip.

(** X1.  Through the registry, [setitem] on a hashable key is answered
    "OK", whether or not the key was held before.  A [getitem] of that
    key that follows is answered "OK" with the value just stored when
    the key is equal to itself; a key that is not (a NaN, or a tuple
    that holds one) cannot be read back, and the answer is "Error" with
    the [KeyError].  Every key that is not equal to the one assigned
    reads as it did, and the keys of the store stay pairwise different. *)
Theorem setitem_then_getitem (E : Env) :
  forall (k v : pyval) (w : node),
    hashable k = true ->
    exists w1,
      run_function E (VStr "setitem") [k; v] (VDict []) w
      = (Ret ("OK", VNone), w1)
      /\ (key_eqb k k = true ->
          run_function E (VStr "getitem") [k] (VDict []) w1
          = (Ret ("OK", v), w1))
      /\ (key_eqb k k = false ->
          run_function E (VStr "getitem") [k] (VDict []) w1
          = (Ret ("Error", VExc "KeyError" k), w1))
      /\ (forall k', key_eqb k k' = false ->
            dict_lookup k' (data w1) = dict_lookup k' (data w))
      /\ (unique_keys (data w) -> unique_keys (data w1)).
Proof.
  intros k v w Hk. exists (set_data (dict_set k v (data w)) w).
  split; [ | split; [ | split; [ | split]]].
  - apply run_function_ok. now apply call_setitem.
  - intro Hs. apply run_function_ok. apply call_getitem_present; [exact Hk | ].
    simpl. now apply dict_lookup_set_same.
  - intro Hs.
    apply (run_function_raise E "getitem" (h := HGetitem) [k] (VDict [])
             _ (e := KeyError k) eq_refl); [ | reflexivity].
    apply call_getitem_absent; [exact Hk | ]. now apply dict_lookup_never.
  - intros k' Hne. simpl. now apply dict_lookup_set_other.
  - simpl. apply unique_keys_set.
Qed.

Lemma setitem_then_getitem_witness :
  exists w1,
    run_function sample_E (VStr "setitem") [VStr "x"; VInt 10] (VDict [])
      (sample_node [(VStr "x", VInt 1)])
    = (Ret ("OK", VNone), w1)
    /\ run_function sample_E (VStr "getitem") [VStr "x"] (VDict []) w1
       = (Ret ("OK", VInt 10), w1)
    /\ dict_lookup (VStr "y") (data w1)
       = dict_lookup (VStr "y") (data (sample_node [(VStr "x", VInt 1)])).
Proof.
  destruct (@setitem_then_getitem sample_E (VStr "x") (VInt 10)
              (sample_node [(VStr "x", VInt 1)]) eq_refl)
    as (w1 & Hset & Hget & _ & Hother & _).
  exists w1. split; [exact Hset | ].
  split; [exact (Hget eq_refl) | exact (Hother (VStr "y") eq_refl)].
Defined.

(** Numbers that are equal are one key, and a NaN is never found. *)
Example setitem_then_getitem_numbers :
  fst (run_function sample_E (VStr "getitem") [VBool true] (VDict [])
         (sample_node [(VInt 1, VStr "a")]))
  = Ret ("OK", VStr "a")
  /\ data (snd (run_function sample_E (VStr "setitem") [VBool true; VStr "b"]
                  (VDict []) (sample_node [(VInt 1, VStr "a")])))
     = [(VInt 1, VStr "b")]
  /\ fst (run_function sample_E (VStr "getitem") [VFloat S754_nan] (VDict [])
            (sample_node [(VFloat S754_nan, VInt 1)]))
     = Ret ("Error", VExc "KeyError" (VFloat S754_nan)).
Proof. vm_compute. repeat split. Qed.

(** X2.  Through the registry, [delitem] on a key that the store holds
    (its keys pairwise different) is answered "OK"; a [getitem] of that
    key that follows is answered "Error" with the [KeyError], so is a
    second [delitem]; every key that is not equal to the one deleted
    reads as it did. *)
Theorem delitem_then_getitem (E : Env) :
  forall (k v : pyval) (w : node),
    hashable k = true ->
    unique_keys (data w) ->
    dict_lookup k (data w) = Some v ->
    exists w1,
      run_function E (VStr "delitem") [k] (VDict []) w
      = (Ret ("OK", VNone), w1)
      /\ run_function E (VStr "getitem") [k] (VDict []) w1
         = (Ret ("Error", VExc "KeyError" k), w1)
      /\ run_function E (VStr "delitem") [k] (VDict []) w1
         = (Ret ("Error", VExc "KeyError" k), w1)
      /\ (forall k', key_eqb k k' = false ->
            dict_lookup k' (data w1) = dict_lookup k' (data w))
      /\ unique_keys (data w1).
Proof.
  intros k v w Hk Hu Hl. exists (set_data (dict_del k (data w)) w).
  assert (Hgone : dict_lookup k (data (set_data (dict_del k (data w)) w))
                  = None) by (simpl; now apply dict_lookup_del_same).
  split; [ | split; [ | split; [ | split]]].
  - apply run_function_ok. now apply call_delitem_present with (v := v).
  - apply (run_function_raise E "getitem" (h := HGetitem) [k] (VDict [])
             _ (e := KeyError k) eq_refl); [ | reflexivity].
    now apply call_getitem_absent.
  - apply (run_function_raise E "delitem" (h := HDelitem) [k] (VDict [])
             _ (e := KeyError k) eq_refl); [ | reflexivity].
    now apply call_delitem_absent.
  - intros k' Hne. simpl. now apply dict_lookup_del_other.
  - simpl. now apply unique_keys_del.
Qed.

Lemma delitem_then_getitem_witness :
  exists w1,
    run_function sample_E (VStr "delitem") [VStr "x"] (VDict [])
      (sample_node [(VStr "x", VInt 1); (VStr "y", VInt 2)])
    = (Ret ("OK", VNone), w1)
    /\ run_function sample_E (VStr "getitem") [VStr "x"] (VDict []) w1
       = (Ret ("Error", VExc "KeyError" (VStr "x")), w1)
    /\ run_function sample_E (VStr "delitem") [VStr "x"] (VDict []) w1
       = (Ret ("Error", VExc "KeyError" (VStr "x")), w1)
    /\ dict_lookup (VStr "y") (data w1) = Some (VInt 2)
    /\ unique_keys (data w1).
Proof.
  assert (Hunique : unique_keys
                      (data (sample_node [(VStr "x", VInt 1);
                                          (VStr "y", VInt 2)])))
    by (simpl; repeat constructor).
  destruct (@delitem_then_getitem sample_E (VStr "x") (VInt 1)
              (sample_node [(VStr "x", VInt 1); (VStr "y", VInt 2)])
              eq_refl Hunique eq_refl)
    as (w1 & Hdel & Hget & Hdel2 & Hother & Hu).
  exists w1.
  split; [exact Hdel | ]. split; [exact Hget | ]. split; [exact Hdel2 | ].
  split; [ | exact Hu].
  now rewrite (Hother (VStr "y") eq_refl).
Defined.

(** ** [compute] when the evaluator returns *)

Section ComputeMore.

Variable E : Env.

Lemma call_compute key task locations w :
  call_function E (VStr "compute") [key; task; locations] (VDict []) w
  = compute E key task locations w.
Proof.
  unfold call_function, bind, lift. simpl. unfold bind, lift. simpl.
  destruct (compute E key task locations w) as [[r | e |] w1]; reflexivity.
Qed.

Lemma call_collect locations w :
  call_function E (VStr "collect") [locations] (VDict []) w
  = collect E locations w.
Proof.
  unfold call_function, bind, lift. simpl. unfold bind, lift. simpl.
  destruct (collect E locations w) as [[r | e |] w1]; reflexivity.
Qed.

Lemma compute_unhashable key task locations w v w1 result :
  collect E locations w = (Ret v, w1) ->
  dask_get E (data w1) task = Ret result ->
  hashable key = false ->
  compute E key task locations w
  = (Raise (TypeError "unhashable type"), tick_clock (tick_clock w1)).
Proof.
  intros Hc He Hk. unfold compute. unfold bind at 1. rewrite Hc.
  unfold bind at 1. unfold time at 1.
  unfold bind at 1. unfold attempt, bind, get_node, lift. simpl.
  rewrite He. unfold time. simpl. unfold setitem. now rewrite Hk.
Qed.

(** The first loop of [collect] cannot get past a missing key that has
    no candidate peer. *)
Lemma collect_send_no_candidates items k locs d :
  In (k, locs) items ->
  locs = VList [] \/ locs = VTuple [] ->
  hashable k = true ->
  dict_mem k d = false ->
  forall socks w socks' w',
    data w = d ->
    collect_send E items socks w <> (Ret socks', w').
Proof.
  intros Hin Hlocs Hk Hm.
  induction items as [ | [key l] rest IH]; [contradiction | ].
  intros socks w socks' w' Hd. simpl. unfold bind at 1. unfold contains.
  destruct Hin as [Heq | Hin].
  - injection Heq as -> ->. rewrite Hk, Hd, Hm.
    unfold bind at 1. destruct Hlocs as [-> | ->]; simpl; discriminate.
  - destruct (hashable key); [ | discriminate].
    destruct (dict_mem key (data w)); [now apply IH | ].
    unfold bind at 1.
    pose proof (choice_same E l w) as (Hd1 & _ & _).
    destruct (choice E l w) as [[peer | e |] w1]; simpl in Hd1;
      try discriminate.
    unfold bind at 1.
    pose proof (connect_same E peer w1) as Hc.
    destruct (connect E peer w1) as [[a | e |] w2]; simpl in Hc; subst w2;
      try discriminate.
    unfold bind at 1. unfold get_node.
    unfold bind at 1. unfold lift at 1.
    destruct (dumps E (request_header (address w1) key)) as [hb | e |];
      try discriminate.
    unfold bind at 1. unfold lift at 1.
    destruct (dumps E (request_payload key)) as [pb | e |]; try discriminate.
    unfold bind at 1. unfold send_request at 1.
    apply IH; [assumption | ]. simpl. congruence.
Qed.

End ComputeMore.

(** X3.  When [collect] has returned and the evaluator returns a value,
    [compute] with a hashable key returns the record of the key, of the
    duration (second clock reading minus the first) and of the status
    "OK", and the Data Store is the one [collect] left with the value
    assigned under the key: the value is in the store, a lookup of the
    key gives it when the key is equal to itself, and every key that is
    not equal to the target key reads as [collect] left it. *)
Theorem compute_success_stores_result (E : Env) :
  forall (key task locations v result : pyval) (w w1 : node),
    collect E locations w = (Ret v, w1) ->
    dask_get E (data w1) task = Ret result ->
    hashable key = true ->
    exists w2,
      compute E key task locations w
      = (Ret (VDict [(VStr "key", key);
                     (VStr "duration",
                      VFloat (float_sub (now E (S (clock_tick w1)))
                                (now E (clock_tick w1))));
                     (VStr "status", VStr "OK")]), w2)
      /\ data w2 = dict_set key result (data w1)
      /\ (exists k0,
             In (k0, result) (data w2)
             /\ (k0 = key \/ key_eqb k0 key = true))
      /\ (key_eqb key key = true -> dict_lookup key (data w2) = Some result)
      /\ (forall k, key_eqb key k = false ->
            dict_lookup k (data w2) = dict_lookup k (data w1))
      /\ (unique_keys (data w1) -> unique_keys (data w2)).
Proof.
  intros key task locations v result w w1 Hc He Hk.
  eexists. split; [ | split; [ | split; [ | split; [ | split]]]].
  - eapply compute_on_success; eassumption.
  - reflexivity.
  - simpl. apply dict_set_entry.
  - intro Hs. simpl. now apply dict_lookup_set_same.
  - intros k Hne. simpl. now apply dict_lookup_set_other.
  - simpl. apply unique_keys_set.
Qed.

Lemma compute_success_stores_result_witness :
  let w := sample_node [(VStr "x", VInt 1)] in
  let locations := VDict [(VStr "y", VList [VStr "tcp://bob:5000"])] in
  let w1 := snd (collect sample_E locations w) in
  exists w2,
    compute sample_E (VStr "w") (VStr "y") locations w
    = (Ret (VDict [(VStr "key", VStr "w");
                   (VStr "duration",
                    VFloat (float_sub (now sample_E (S (clock_tick w1)))
                              (now sample_E (clock_tick w1))));
                   (VStr "status", VStr "OK")]), w2)
    /\ data w2 = [(VStr "x", VInt 1); (VStr "y", VInt 2); (VStr "w", VInt 2)]
    /\ dict_lookup (VStr "w") (data w2) = Some (VInt 2)
    /\ dict_lookup (VStr "y") (data w2) = dict_lookup (VStr "y") (data w1).
Proof.
  intros w locations w1.
  assert (Hcollect : collect sample_E locations w = (Ret VNone, w1))
    by (vm_compute; reflexivity).
  assert (Heval : dask_get sample_E (data w1) (VStr "y") = Ret (VInt 2))
    by (vm_compute; reflexivity).
  destruct (@compute_success_stores_result sample_E (VStr "w") (VStr "y")
              locations VNone (VInt 2) w w1 Hcollect Heval eq_refl)
    as (w2 & Hrun & Hdata & _ & Hkey & Hother & _).
  exists w2. split; [exact Hrun | ].
  split; [rewrite Hdata; vm_compute; reflexivity | ].
  split; [exact (Hkey eq_refl) | exact (Hother (VStr "y") eq_refl)].
Defined.

(** X4.  The assignment of the result is outside the [try] of
    [compute]: with a key that cannot be hashed (a list, say), a
    [compute] whose evaluator has returned raises [TypeError] instead of
    returning a record; the result is not stored, and the caller is
    answered "Error". *)
Theorem compute_unhashable_key_raises (E : Env) :
  forall (key task locations v result : pyval) (w w1 : node),
    collect E locations w = (Ret v, w1) ->
    dask_get E (data w1) task = Ret result ->
    hashable key = false ->
    exists w2,
      compute E key task locations w
      = (Raise (Exc "TypeError" (VStr "unhashable type")), w2)
      /\ data w2 = data w1
      /\ run_function E (VStr "compute") [key; task; locations] (VDict []) w
         = (Ret ("Error", VExc "TypeError" (VStr "unhashable type")), w2).
Proof.
  intros key task locations v result w w1 Hc He Hk.
  pose proof (compute_unhashable E key task locations w Hc He Hk) as H.
  eexists. split; [exact H | ]. split; [reflexivity | ].
  apply (run_function_raise E "compute" (h := HCompute)
           [key; task; locations] (VDict []) w
           (e := TypeError "unhashable type") eq_refl); [ | reflexivity].
  now rewrite call_compute.
Qed.

Lemma compute_unhashable_key_raises_witness :
  let w := sample_node [(VStr "x", VInt 1)] in
  let key := VList [VStr "w"] in
  exists w2,
    compute sample_E key (VStr "x") (VDict []) w
    = (Raise (Exc "TypeError" (VStr "unhashable type")), w2)
    /\ data w2 = data w
    /\ run_function sample_E (VStr "compute") [key; VStr "x"; VDict []]
         (VDict []) w
       = (Ret ("Error", VExc "TypeError" (VStr "unhashable type")), w2).
Proof.
  intros w key.
  apply (@compute_unhashable_key_raises sample_E key (VStr "x") (VDict [])
           VNone (VInt 1) w w).
  - reflexivity.
  - reflexivity.
  - reflexivity.
Defined.

(** ** [collect] that cannot complete *)

(** X5.  When [locations] lists a key that the store does not hold with
    an empty list (or tuple) of candidate peers, [collect] does not
    return: [random.choice] raises [IndexError] on it unless the call
    has failed earlier.  No reply is read, the Data Store is left as it
    was, and [compute] on the same [locations] does not return a record
    either, [collect] being outside its [try]. *)
Theorem collect_fails_without_candidates (E : Env) :
  forall (items : store) (k locs : pyval) (w : node),
    In (k, locs) items ->
    locs = VList [] \/ locs = VTuple [] ->
    hashable k = true ->
    dict_mem k (data w) = false ->
    (forall v, fst (collect E (VDict items) w) <> Ret v)
    /\ data (snd (collect E (VDict items) w)) = data w
    /\ (forall key task r,
           fst (compute E key task (VDict items) w) <> Ret r)
    /\ (forall key task,
           data (snd (compute E key task (VDict items) w)) = data w).
Proof.
  intros items k locs w Hin Hlocs Hk Hm.
  assert (Hc : exists o w1,
             collect E (VDict items) w = (o, w1)
             /\ (forall v, o <> Ret v) /\ data w1 = data w).
  { unfold collect. unfold bind at 1. simpl. unfold bind at 1.
    destruct (collect_send E items [] w) as [[socks | e |] w1] eqn:Hs.
    - exfalso. revert Hs.
      eapply collect_send_no_candidates; eauto.
    - apply collect_send_spec in Hs. destruct Hs as (Hd & _).
      exists (Raise e), w1. repeat split; [discriminate | exact Hd].
    - apply collect_send_spec in Hs. destruct Hs as (Hd & _).
      exists Hang, w1. repeat split; [discriminate | exact Hd]. }
  destruct Hc as (o & w1 & Hc & Ho & Hd).
  rewrite Hc. simpl. repeat split; try assumption.
  - intros key task r. unfold compute. unfold bind at 1. rewrite Hc.
    destruct o as [v | e |]; [now destruct (Ho v) | discriminate ..].
  - intros key task. unfold compute. unfold bind at 1. rewrite Hc.
    destruct o as [v | e |]; [now destruct (Ho v) | exact Hd ..].
Qed.

Lemma collect_fails_without_candidates_witness :
  let w := sample_node [(VStr "x", VInt 1)] in
  let items := [(VStr "y", VList [VStr "tcp://bob:5000"]);
                (VStr "q", VList [])] in
  collect sample_E (VDict items) w
  = (Raise (Exc "IndexError" (VStr "index out of range")),
     snd (collect sample_E (VDict items) w))
  /\ (forall v, fst (collect sample_E (VDict items) w) <> Ret v)
  /\ data (snd (collect sample_E (VDict items) w)) = data w
  /\ (forall key task r,
         fst (compute sample_E key task (VDict items) w) <> Ret r)
  /\ (forall key task,
         data (snd (compute sample_E key task (VDict items) w)) = data w).
Proof.
  intros w items. split; [vm_compute; reflexivity | ].
  apply (@collect_fails_without_candidates sample_E items (VStr "q")
           (VList []) w).
  - simpl. right. left. reflexivity.
  - left. reflexivity.
  - reflexivity.
  - reflexivity.
Defined.

(** X6.  The replies are awaited in the order of the requests, after
    all requests have been sent: when the first loop has sent its
    requests and the peer of the first one never answers, [collect]
    blocks for ever; every request is out, and nothing has been stored,
    whatever the other peers have answered. *)
Theorem collect_blocks_on_silent_peer (E : Env) :
  forall (items : store) (w w1 : node) (s : peer_sock) (socks : list peer_sock),
    collect_send E items [] w = (Ret (s :: socks), w1) ->
    peer_reply E (sock_id s) (sock_peer s) (sock_sent s) = None ->
    collect E (VDict items) w = (Hang, w1)
    /\ data w1 = data w
    /\ peer_socks w1 = rev (s :: socks) ++ peer_socks w
    /\ forall key task, compute E key task (VDict items) w = (Hang, w1).
Proof.
  intros items w w1 s socks Hs Hsilent.
  assert (Hc : collect E (VDict items) w = (Hang, w1)).
  { unfold collect. unfold bind at 1. simpl. unfold bind at 1. rewrite Hs.
    unfold bind at 1. simpl. unfold bind at 1. unfold recv.
    now rewrite Hsilent. }
  pose proof Hs as Hspec. apply collect_send_spec in Hspec.
  destruct Hspec as (Hd & _ & new & Hp & _ & Hnew).
  specialize (Hnew _ eq_refl). simpl in Hnew. subst new.
  repeat split; try assumption.
  intros key task. unfold compute. unfold bind at 1. now rewrite Hc.
Qed.

Lemma collect_blocks_on_silent_peer_witness :
  let w := sample_node [] in
  let items := [(VStr "x", VList [VStr "tcp://carol:5000"]);
                (VStr "y", VList [VStr "tcp://bob:5000"])] in
  let w1 := snd (collect_send silent_E items [] w) in
  collect silent_E (VDict items) w = (Hang, w1)
  /\ data w1 = data w
  /\ map sock_sent (peer_socks w1)
     = [["Q:alice,y"; "P:getitem(y,)"]; ["Q:alice,x"; "P:getitem(x,)"]]
  /\ forall key task, compute silent_E key task (VDict items) w = (Hang, w1).
Proof.
  intros w items w1.
  destruct (@collect_blocks_on_silent_peer silent_E items w w1
              {| sock_id := 0; sock_peer := "tcp://carol:5000";
                 sock_sent := ["Q:alice,x"; "P:getitem(x,)"] |}
              [{| sock_id := 1; sock_peer := "tcp://bob:5000";
                  sock_sent := ["Q:alice,y"; "P:getitem(y,)"] |}])
    as (Hc & Hd & Hp & Hcompute).
  - vm_compute. reflexivity.
  - reflexivity.
  - split; [exact Hc | ]. split; [exact Hd | ].
    split; [rewrite Hp; reflexivity | exact Hcompute].
Defined.

(** ** What leaves [execute_and_reply] *)

Section Dispatch.

Variable E : Env.

Lemma call_function_unhashable func args kwargs w :
  hashable func = false ->
  call_function E func args kwargs w
  = (Raise (TypeError "unhashable type"), w).
Proof.
  intro H. unfold call_function, bind, lift, functions_getitem.
  now rewrite H.
Qed.

Lemma not_found_status_returns func :
  (forall items, func = VTuple items -> List.length items = 1) ->
  exists st, not_found_status E func = Ret st.
Proof.
  intro H. destruct func; simpl; try (eexists; reflexivity).
  specialize (H items eq_refl).
  destruct items as [ | x [ | y rest]]; simpl in H; try discriminate.
  eexists. reflexivity.
Qed.

Lemma call_function_tuple items args kwargs w :
  hashable (VTuple items) = true ->
  call_function E (VTuple items) args kwargs w
  = (Raise (KeyError (VTuple items)), w).
Proof.
  intro H. unfold call_function, bind, lift, functions_getitem.
  now rewrite H.
Qed.

Lemma send_via_raises s header result w e :
  dumps E (VDict (dict_set (VStr "address") (VStr (address w)) header))
  = Raise e
  \/ (exists hb,
         dumps E (VDict (dict_set (VStr "address") (VStr (address w)) header))
         = Ret hb
         /\ dumps E result = Raise e) ->
  send_via E s header result w = (Raise e, w).
Proof.
  intros [H | (hb & H & Hr)];
    destruct s; simpl;
    unfold send_to_scheduler, send_to_worker, bind, get_node, lift;
    rewrite H; try rewrite Hr; reflexivity.
Qed.

End Dispatch.

(** X7.  Whatever the handler does, no [Exception] is raised out of the
    [try] statement of [execute_and_reply] as long as the function name
    is not a tuple (or is a tuple of one item): the outcome is a status
    and a result, or the handler never returns, or the call has raised
    an exception that is no [Exception] ([SystemExit], say), which the
    [except] clauses let through. *)
Theorem run_function_raises_no_Exception (E : Env) :
  forall (func : pyval) (args : list pyval) (kwargs : pyval) (w : node),
    (forall items, func = VTuple items -> List.length items = 1) ->
    forall e w',
      run_function E func args kwargs w = (Raise e, w') ->
      is_Exception e = false
      /\ call_function E func args kwargs w = (Raise e, w').
Proof.
  intros func args kwargs w Hfunc e w'.
  unfold run_function, bind, attempt.
  destruct (hashable func) eqn:Hh.
  - destruct (call_function E func args kwargs w) as [[r | e0 |] w1];
      try discriminate.
    destruct (is_Exception e0) eqn:Hx;
      [ | intro H; injection H as <- <-; now split].
    destruct (is_KeyError e0); [ | discriminate].
    unfold lift, functions_contains. rewrite Hh.
    destruct (not_found_status_returns E Hfunc) as [st Hst].
    destruct func; try discriminate;
      try (rewrite Hst; discriminate).
    destruct (assoc_handler s functions); [discriminate | ].
    rewrite Hst. discriminate.
  - rewrite call_function_unhashable by exact Hh.
    discriminate.
Qed.

Lemma run_function_raises_no_Exception_witness :
  let args := [VStr "w"; VStr "nokey"; VDict []] in
  run_function exit_E (VStr "compute") args (VDict []) (sample_node [])
  = (Raise (Exc "SystemExit" (VInt 1)), tick_clock (sample_node []))
  /\ is_Exception (Exc "SystemExit" (VInt 1)) = false
  /\ call_function exit_E (VStr "compute") args (VDict []) (sample_node [])
     = (Raise (Exc "SystemExit" (VInt 1)), tick_clock (sample_node [])).
Proof.
  intro args.
  assert (Hrun : run_function exit_E (VStr "compute") args (VDict [])
                   (sample_node [])
                 = (Raise (Exc "SystemExit" (VInt 1)),
                    tick_clock (sample_node [])))
    by (vm_compute; reflexivity).
  split; [exact Hrun | ].
  apply (@run_function_raises_no_Exception exit_E (VStr "compute") args
           (VDict []) (sample_node [])); [ | exact Hrun].
  intros items H. discriminate H.
Defined.

(** X8.  A function name that is a hashable tuple of no item or of
    several is not in the registry, and the status cannot be built for
    it: the formatting of "Function %s not found" takes the tuple for
    its argument list and raises [TypeError] inside the [except] clause.
    [execute_and_reply] ends with that exception, with a reply sink or
    without, and the node is left as it was: no reply is sent. *)
Theorem tuple_function_name_gets_no_reply (E : Env) :
  forall (items args : list pyval) (kwargs jobid : pyval)
         (send : option sender) (w : node),
    hashable (VTuple items) = true ->
    List.length items <> 1 ->
    exists msg,
      execute_and_reply E (VTuple items) args kwargs jobid send w
      = (Raise (Exc "TypeError" (VStr msg)), w).
Proof.
  intros items args kwargs jobid send w Hh Hlen.
  unfold execute_and_reply, run_function. unfold bind at 1 2.
  unfold attempt. rewrite call_function_tuple by exact Hh.
  simpl is_KeyError. cbv iota.
  unfold bind at 1. unfold lift at 1. unfold functions_contains.
  rewrite Hh. unfold bind at 1. unfold lift.
  destruct items as [ | x [ | y rest]]; simpl.
  - eexists. reflexivity.
  - now destruct Hlen.
  - eexists. reflexivity.
Qed.

Lemma tuple_function_name_gets_no_reply_witness :
  exists msg,
    execute_and_reply sample_E (VTuple [VStr "get"; VStr "item"]) []
      (VDict []) (VInt 7) (Some SendToScheduler) (sample_node [])
    = (Raise (Exc "TypeError" (VStr msg)), sample_node []).
Proof.
  apply (@tuple_function_name_gets_no_reply sample_E
           [VStr "get"; VStr "item"] [] (VDict []) (VInt 7)
           (Some SendToScheduler) (sample_node [])).
  - reflexivity.
  - simpl. discriminate.
Defined.

(** X9.  When the header or the result of a reply cannot be serialized,
    the exception of [dumps] leaves [execute_and_reply] (the [logerrors]
    block raises it again) and nothing is sent on either socket: the
    caller that asked for a reply receives none. *)
Theorem unserializable_reply_is_not_sent (E : Env) :
  forall (func : pyval) (args : list pyval) (kwargs jobid : pyval)
         (s : sender) (w w1 : node) (st : string) (result : pyval) (e : exn),
    run_function E func args kwargs w = (Ret (st, result), w1) ->
    (let header := VDict (dict_set (VStr "address") (VStr (address w1))
                            (reply_header jobid st)) in
     dumps E header = Raise e
     \/ (exists hb, dumps E header = Ret hb /\ dumps E result = Raise e)) ->
    execute_and_reply E func args kwargs jobid (Some s) w = (Raise e, w1)
    /\ dealer_out w1 = dealer_out w
    /\ router_out w1 = router_out w.
Proof.
  intros func args kwargs jobid s w w1 st result e Hrun Hd.
  rewrite (execute_and_reply_after_run E func args kwargs jobid (Some s) w
             Hrun).
  split; [now apply send_via_raises | ].
  pose proof (quiet_run_function E func args kwargs w) as Hq.
  now rewrite Hrun in Hq.
Qed.

Lemma unserializable_reply_is_not_sent_witness :
  let w := sample_node [(VStr "x", VInt 99)] in
  execute_and_reply sample_E (VStr "getitem") [VStr "x"] (VDict []) (VInt 7)
    (Some SendToScheduler) w
  = (Raise (Exc "PicklingError" (VInt 99)), w)
  /\ dealer_out w = dealer_out w
  /\ router_out w = router_out w.
Proof.
  intro w.
  apply (@unserializable_reply_is_not_sent sample_E (VStr "getitem")
           [VStr "x"] (VDict []) (VInt 7) SendToScheduler w w "OK"
           (VInt 99) (Exc "PicklingError" (VInt 99))).
  - vm_compute. reflexivity.
  - right. exists "R:job7,OK". split; vm_compute; reflexivity.
Defined.

(** ** Messages that decode but are not requests *)

Section Malformed.

Variable E : Env.

Lemma unpack_function_no_function h p hd pd :
  loads E h = Ret (VDict hd) ->
  loads E p = Ret (VDict pd) ->
  dict_lookup (VStr "function") pd = None ->
  unpack_function E h p = Raise (KeyError (VStr "function")).
Proof.
  intros Hh Hp Hf. unfold unpack_function. rewrite Hp. simpl. rewrite Hh.
  simpl.
  destruct (dict_lookup (VStr "jobid") hd);
    destruct (dict_lookup (VStr "reply") hd); simpl; now rewrite Hf.
Qed.

Lemma unpack_function_defaults h p hd pd f :
  loads E h = Ret (VDict hd) ->
  loads E p = Ret (VDict pd) ->
  dict_lookup (VStr "jobid") hd = None ->
  dict_lookup (VStr "reply") hd = None ->
  dict_lookup (VStr "function") pd = Some f ->
  dict_lookup (VStr "args") pd = None ->
  dict_lookup (VStr "kwargs") pd = None ->
  unpack_function E h p = Ret (f, [], VDict [], VNone, VBool true).
Proof.
  intros Hh Hp Hj Hr Hf Ha Hk. unfold unpack_function.
  rewrite Hp. simpl. rewrite Hh. simpl. now rewrite Hj, Hr, Hf, Ha, Hk.
Qed.

End Malformed.

(** X10.  A request that names only its function, with a header that
    has neither ['jobid'] nor ['reply'], is dispatched with no
    positional argument, no keyword argument, the job identifier [None],
    and the reply sink of the channel it came from: a reply is wanted
    unless the header says otherwise. *)
Theorem request_defaults (E : Env) :
  forall (h p : bytes) (hd pd : store) (f : pyval),
    loads E h = Ret (VDict hd) ->
    loads E p = Ret (VDict pd) ->
    dict_lookup (VStr "jobid") hd = None ->
    dict_lookup (VStr "reply") hd = None ->
    dict_lookup (VStr "function") pd = Some f ->
    dict_lookup (VStr "args") pd = None ->
    dict_lookup (VStr "kwargs") pd = None ->
    unpack_function E h p = Ret (f, [], VDict [], VNone, VBool true)
    /\ (forall rest w,
           String.eqb (status w) "closed" = false ->
           listen_to_scheduler E (Incoming [h; p] :: rest) w
           = listen_to_scheduler E rest
               (push_job {| job_func := f; job_args := [];
                            job_kwargs := VDict []; job_jobid := VNone;
                            job_send := Some SendToScheduler |} w))
    /\ (forall peer a rest w,
           String.eqb (status w) "closed" = false ->
           dict_lookup (VStr "address") hd = Some a ->
           listen_to_workers E (Incoming [peer; h; p] :: rest) w
           = listen_to_workers E rest
               (push_job {| job_func := f; job_args := [];
                            job_kwargs := VDict []; job_jobid := VNone;
                            job_send := Some (SendToWorker peer) |} w)).
Proof.
  intros h p hd pd f Hh Hp Hj Hr Hf Ha Hk.
  assert (Hu : unpack_function E h p
               = Ret (f, [], VDict [], VNone, VBool true))
    by (eapply unpack_function_defaults; eassumption).
  split; [exact Hu | split].
  - intros rest w Hs.
    now rewrite (listen_to_scheduler_incoming E h p rest w Hs Hu).
  - intros peer a rest w Hs Haddr.
    now rewrite (listen_to_workers_incoming E peer h p rest w Hs Hu Hh Haddr).
Qed.

Lemma request_defaults_witness :
  unpack_function silent_E "H:empty" "P:frobnicate()"
  = Ret (VStr "frobnicate", [], VDict [], VNone, VBool true)
  /\ (forall rest w,
         String.eqb (status w) "closed" = false ->
         listen_to_scheduler silent_E
           (Incoming ["H:empty"; "P:frobnicate()"] :: rest) w
         = listen_to_scheduler silent_E rest
             (push_job {| job_func := VStr "frobnicate"; job_args := [];
                          job_kwargs := VDict []; job_jobid := VNone;
                          job_send := Some SendToScheduler |} w)).
Proof.
  destruct (@request_defaults silent_E "H:empty" "P:frobnicate()" []
              [(VStr "function", VStr "frobnicate")] (VStr "frobnicate")
              eq_refl eq_refl eq_refl eq_refl eq_refl eq_refl eq_refl)
    as (Hu & Hs & _).
  split; [exact Hu | exact Hs].
Defined.

Section MalformedLoops.

Variable E : Env.

Lemma listen_to_scheduler_frames frames rest w :
  String.eqb (status w) "closed" = false ->
  List.length frames <> 2 ->
  listen_to_scheduler E (Incoming frames :: rest) w
  = (Raise (ValueError "wrong number of values to unpack"), w).
Proof.
  intros Hs Hlen. simpl. unfold bind at 1. unfold get_node. rewrite Hs.
  destruct frames as [ | h [ | p [ | ? ?]]]; try reflexivity.
  now destruct Hlen.
Qed.

Lemma listen_to_workers_frames frames rest w :
  String.eqb (status w) "closed" = false ->
  List.length frames <> 3 ->
  listen_to_workers E (Incoming frames :: rest) w
  = (Raise (ValueError "wrong number of values to unpack"), w).
Proof.
  intros Hs Hlen. simpl. unfold bind at 1. unfold get_node. rewrite Hs.
  destruct frames as [ | a [ | h [ | p [ | ? ?]]]]; try reflexivity.
  now destruct Hlen.
Qed.

Lemma listen_closed_scheduler events w :
  String.eqb (status w) "closed" = true ->
  listen_to_scheduler E events w = (Ret tt, w).
Proof.
  intro Hs. destruct events; simpl; [reflexivity | ].
  unfold bind at 1. unfold get_node. now rewrite Hs.
Qed.

Lemma listen_closed_workers events w :
  String.eqb (status w) "closed" = true ->
  listen_to_workers E events w = (Ret tt, w).
Proof.
  intro Hs. destruct events; simpl; [reflexivity | ].
  unfold bind at 1. unfold get_node. now rewrite Hs.
Qed.

Lemma listen_to_scheduler_cons ev rest w :
  listen_to_scheduler E (ev :: rest) w
  = if String.eqb (status w) "closed" then (Ret tt, w)
    else
      match ev with
      | Timeout => listen_to_scheduler E rest w
      | Closing => listen_to_scheduler E rest (set_status "closed" w)
      | Incoming [h; p] =>
          match unpack_function E h p with
          | Ret (func, args, kwargs, jobid, reply) =>
              listen_to_scheduler E rest
                (push_job {| job_func := func; job_args := args;
                             job_kwargs := kwargs; job_jobid := jobid;
                             job_send := if truthy reply
                                         then Some SendToScheduler
                                         else None |} w)
          | Raise e => (Raise e, w)
          | Hang => (Hang, w)
          end
      | Incoming _ =>
          (Raise (ValueError "wrong number of values to unpack"), w)
      | IncomingAtClose [h; p] accepted =>
          match unpack_function E h p with
          | Ret (func, args, kwargs, jobid, reply) =>
              if accepted
              then listen_to_scheduler E rest
                     (push_job {| job_func := func; job_args := args;
                                  job_kwargs := kwargs; job_jobid := jobid;
                                  job_send := if truthy reply
                                              then Some SendToScheduler
                                              else None |}
                        (set_status "closed" w))
              else (Raise AssertionError, set_status "closed" w)
          | Raise e => (Raise e, set_status "closed" w)
          | Hang => (Hang, set_status "closed" w)
          end
      | IncomingAtClose _ _ =>
          (Raise (ValueError "wrong number of values to unpack"),
           set_status "closed" w)
      end.
Proof.
  simpl. unfold bind at 1. unfold get_node.
  destruct (String.eqb (status w) "closed"); [reflexivity | ].
  destruct ev as [ | frames | | frames accepted]; try reflexivity.
  - destruct frames as [ | h [ | p [ | ? ?]]]; try reflexivity.
    unfold bind at 1. unfold lift.
    destruct (unpack_function E h p)
      as [[[[[func args] kwargs] jobid] reply] | e |]; reflexivity.
  - destruct frames as [ | h [ | p [ | ? ?]]]; try reflexivity.
    unfold bind at 1. unfold close, modify. unfold bind at 1. unfold lift.
    destruct (unpack_function E h p)
      as [[[[[func args] kwargs] jobid] reply] | e |]; try reflexivity.
    destruct accepted; reflexivity.
Qed.

Lemma listen_to_workers_cons ev rest w :
  listen_to_workers E (ev :: rest) w
  = if String.eqb (status w) "closed" then (Ret tt, w)
    else
      match ev with
      | Timeout => listen_to_workers E rest w
      | Closing => listen_to_workers E rest (set_status "closed" w)
      | Incoming [peer; h; p] =>
          match unpack_function E h p with
          | Ret (func, args, kwargs, jobid, reply) =>
              match obind (loads E h) (fun hv => py_getitem hv "address") with
              | Ret _ =>
                  listen_to_workers E rest
                    (push_job {| job_func := func; job_args := args;
                                 job_kwargs := kwargs; job_jobid := jobid;
                                 job_send := if truthy reply
                                             then Some (SendToWorker peer)
                                             else None |} w)
              | Raise e => (Raise e, w)
              | Hang => (Hang, w)
              end
          | Raise e => (Raise e, w)
          | Hang => (Hang, w)
          end
      | Incoming _ =>
          (Raise (ValueError "wrong number of values to unpack"), w)
      | IncomingAtClose [peer; h; p] accepted =>
          match unpack_function E h p with
          | Ret (func, args, kwargs, jobid, reply) =>
              match obind (loads E h) (fun hv => py_getitem hv "address") with
              | Ret _ =>
                  if accepted
                  then listen_to_workers E rest
                         (push_job {| job_func := func; job_args := args;
                                      job_kwargs := kwargs;
                                      job_jobid := jobid;
                                      job_send := if truthy reply
                                                  then Some (SendToWorker peer)
                                                  else None |}
                            (set_status "closed" w))
                  else (Raise AssertionError, set_status "closed" w)
              | Raise e => (Raise e, set_status "closed" w)
              | Hang => (Hang, set_status "closed" w)
              end
          | Raise e => (Raise e, set_status "closed" w)
          | Hang => (Hang, set_status "closed" w)
          end
      | IncomingAtClose _ _ =>
          (Raise (ValueError "wrong number of values to unpack"),
           set_status "closed" w)
      end.
Proof.
  simpl. unfold bind at 1. unfold get_node.
  destruct (String.eqb (status w) "closed"); [reflexivity | ].
  destruct ev as [ | frames | | frames accepted]; try reflexivity.
  - destruct frames as [ | a [ | h [ | p [ | ? ?]]]]; try reflexivity.
    unfold bind at 1. unfold lift at 1.
    destruct (unpack_function E h p)
      as [[[[[func args] kwargs] jobid] reply] | e |]; try reflexivity.
    unfold bind at 1. unfold lift at 1.
    destruct (loads E h) as [hv | e |]; reflexivity.
  - destruct frames as [ | a [ | h [ | p [ | ? ?]]]]; try reflexivity.
    unfold bind at 1. unfold close, modify.
    unfold bind at 1. unfold lift at 1.
    destruct (unpack_function E h p)
      as [[[[[func args] kwargs] jobid] reply] | e |]; try reflexivity.
    unfold bind at 1. unfold lift at 1.
    destruct (loads E h) as [hv | e |]; try reflexivity. simpl.
    unfold bind at 1. unfold lift at 1.
    destruct (py_getitem hv "address") as [a0 | e |]; try reflexivity.
    destruct accepted; reflexivity.
Qed.

(** The status is ['closed'] after a turn in which [close()] has been
    called, however the turn ends. *)
Lemma listen_to_scheduler_closing c post w :
  closes c = true ->
  listen_to_scheduler E (c :: post) w = listen_to_scheduler E [c] w.
Proof.
  intro Hc. rewrite !listen_to_scheduler_cons.
  destruct (String.eqb (status w) "closed"); [reflexivity | ].
  destruct c as [ | frames | | frames accepted]; try discriminate.
  - now rewrite !listen_closed_scheduler.
  - destruct frames as [ | h [ | p [ | ? ?]]]; try reflexivity.
    destruct (unpack_function E h p)
      as [[[[[func args] kwargs] jobid] reply] | e |]; try reflexivity.
    destruct accepted; [ | reflexivity].
    now rewrite !listen_closed_scheduler.
Qed.

Lemma listen_to_workers_closing c post w :
  closes c = true ->
  listen_to_workers E (c :: post) w = listen_to_workers E [c] w.
Proof.
  intro Hc. rewrite !listen_to_workers_cons.
  destruct (String.eqb (status w) "closed"); [reflexivity | ].
  destruct c as [ | frames | | frames accepted]; try discriminate.
  - now rewrite !listen_closed_workers.
  - destruct frames as [ | a [ | h [ | p [ | ? ?]]]]; try reflexivity.
    destruct (unpack_function E h p)
      as [[[[[func args] kwargs] jobid] reply] | e |]; try reflexivity.
    destruct (obind (loads E h) (fun hv => py_getitem hv "address"));
      try reflexivity.
    destruct accepted; [ | reflexivity].
    now rewrite !listen_closed_workers.
Qed.

Lemma listen_to_scheduler_after_close pre c post : forall w,
  closes c = true ->
  listen_to_scheduler E (pre ++ c :: post) w
  = listen_to_scheduler E (pre ++ [c]) w.
Proof.
  induction pre as [ | ev pre IH]; intros w Hc.
  - now apply listen_to_scheduler_closing.
  - simpl app. rewrite !listen_to_scheduler_cons.
    destruct (String.eqb (status w) "closed"); [reflexivity | ].
    destruct ev as [ | frames | | frames accepted].
    + now apply IH.
    + destruct frames as [ | h [ | p [ | ? ?]]]; try reflexivity.
      destruct (unpack_function E h p)
        as [[[[[func args] kwargs] jobid] reply] | e |]; try reflexivity.
      now apply IH.
    + now apply IH.
    + destruct frames as [ | h [ | p [ | ? ?]]]; try reflexivity.
      destruct (unpack_function E h p)
        as [[[[[func args] kwargs] jobid] reply] | e |]; try reflexivity.
      destruct accepted; [now apply IH | reflexivity].
Qed.

Lemma listen_to_workers_after_close pre c post : forall w,
  closes c = true ->
  listen_to_workers E (pre ++ c :: post) w
  = listen_to_workers E (pre ++ [c]) w.
Proof.
  induction pre as [ | ev pre IH]; intros w Hc.
  - now apply listen_to_workers_closing.
  - simpl app. rewrite !listen_to_workers_cons.
    destruct (String.eqb (status w) "closed"); [reflexivity | ].
    destruct ev as [ | frames | | frames accepted].
    + now apply IH.
    + destruct frames as [ | a [ | h [ | p [ | ? ?]]]]; try reflexivity.
      destruct (unpack_function E h p)
        as [[[[[func args] kwargs] jobid] reply] | e |]; try reflexivity.
      destruct (obind (loads E h) (fun hv => py_getitem hv "address"));
        try reflexivity.
      now apply IH.
    + now apply IH.
    + destruct frames as [ | a [ | h [ | p [ | ? ?]]]]; try reflexivity.
      destruct (unpack_function E h p)
        as [[[[[func args] kwargs] jobid] reply] | e |]; try reflexivity.
      destruct (obind (loads E h) (fun hv => py_getitem hv "address"));
        try reflexivity.
      destruct accepted; [now apply IH | reflexivity].
Qed.

End MalformedLoops.

(** X11.  A message that decodes to dictionaries but whose payload has
    no ['function'] is not answered: [payload['function']] raises
    [KeyError] in [unpack_function], and the exception leaves the
    polling loop, in either loop; no job is submitted and the node is
    left as it was. *)
Theorem payload_without_function_ends_the_loop (E : Env) :
  forall (h p : bytes) (hd pd : store),
    loads E h = Ret (VDict hd) ->
    loads E p = Ret (VDict pd) ->
    dict_lookup (VStr "function") pd = None ->
    forall rest w,
      String.eqb (status w) "closed" = false ->
      listen_to_scheduler E (Incoming [h; p] :: rest) w
      = (Raise (Exc "KeyError" (VStr "function")), w)
      /\ forall peer,
          listen_to_workers E (Incoming [peer; h; p] :: rest) w
          = (Raise (Exc "KeyError" (VStr "function")), w).
Proof.
  intros h p hd pd Hh Hp Hf rest w Hs.
  assert (Hu : unpack_function E h p = Raise (KeyError (VStr "function")))
    by (eapply unpack_function_no_function; eassumption).
  split.
  - now apply listen_to_scheduler_raise.
  - intro peer. now apply listen_to_workers_raise.
Qed.

Lemma payload_without_function_ends_the_loop_witness :
  listen_to_scheduler silent_E
    [Incoming ["H:job7"; "H:empty"]; Timeout] (sample_node [])
  = (Raise (Exc "KeyError" (VStr "function")), sample_node [])
  /\ forall peer,
      listen_to_workers silent_E
        [Incoming [peer; "H:job7"; "H:empty"]; Timeout] (sample_node [])
      = (Raise (Exc "KeyError" (VStr "function")), sample_node []).
Proof.
  apply (@payload_without_function_ends_the_loop silent_E "H:job7" "H:empty"
           [(VStr "jobid", VInt 7)] []).
  - reflexivity.
  - reflexivity.
  - reflexivity.
  - reflexivity.
Defined.

(** X12.  The peer-facing loop reads ['address'] in the header of every
    request, for its log line, before it hands the job to the pool: a
    well-formed request whose header has no ['address'] ends that loop
    with [KeyError] and is not dispatched, while the coordinator-facing
    loop dispatches the same header and payload. *)
Theorem peer_request_without_address_ends_the_loop (E : Env) :
  forall (h p : bytes) (hd : store) func args kwargs jobid reply,
    loads E h = Ret (VDict hd) ->
    dict_lookup (VStr "address") hd = None ->
    unpack_function E h p = Ret (func, args, kwargs, jobid, reply) ->
    forall rest w,
      String.eqb (status w) "closed" = false ->
      (forall peer,
          listen_to_workers E (Incoming [peer; h; p] :: rest) w
          = (Raise (Exc "KeyError" (VStr "address")), w))
      /\ listen_to_scheduler E (Incoming [h; p] :: rest) w
         = listen_to_scheduler E rest
             (push_job {| job_func := func; job_args := args;
                          job_kwargs := kwargs; job_jobid := jobid;
                          job_send := if truthy reply
                                      then Some SendToScheduler
                                      else None |} w).
Proof.
  intros h p hd func args kwargs jobid reply Hh Ha Hu rest w Hs. split.
  - intro peer. simpl. unfold bind at 1. unfold get_node. rewrite Hs.
    unfold bind at 1. unfold lift. rewrite Hu.
    unfold bind at 1. rewrite Hh.
    unfold bind at 1. unfold py_getitem. rewrite Ha. reflexivity.
  - now apply listen_to_scheduler_incoming.
Qed.

Lemma peer_request_without_address_ends_the_loop_witness :
  (forall peer,
      listen_to_workers sample_E
        [Incoming [peer; "H:job7"; "P:getitem(x)"]] (sample_node [])
      = (Raise (Exc "KeyError" (VStr "address")), sample_node []))
  /\ listen_to_scheduler sample_E
       [Incoming ["H:job7"; "P:getitem(x)"]] (sample_node [])
     = listen_to_scheduler sample_E []
         (push_job {| job_func := VStr "getitem"; job_args := [VStr "x"];
                      job_kwargs := VDict []; job_jobid := VInt 7;
                      job_send := if truthy (VBool true)
                                  then Some SendToScheduler
                                  else None |} (sample_node [])).
Proof.
  apply (@peer_request_without_address_ends_the_loop sample_E
           "H:job7" "P:getitem(x)" [(VStr "jobid", VInt 7)]
           (VStr "getitem") [VStr "x"] (VDict []) (VInt 7) (VBool true)).
  - reflexivity.
  - reflexivity.
  - vm_compute. reflexivity.
  - reflexivity.
Defined.

(** X13.  The coordinator-facing loop unpacks every message into two
    frames and the peer-facing loop into three: a message with any other
    number of frames ends the loop with [ValueError] before anything is
    decoded; no job is submitted and the node is left as it was. *)
Theorem wrong_frame_count_ends_the_loop (E : Env) :
  forall (frames : list bytes) (rest : list event) (w : node),
    String.eqb (status w) "closed" = false ->
    (List.length frames <> 2 ->
     listen_to_scheduler E (Incoming frames :: rest) w
     = (Raise (Exc "ValueError" (VStr "wrong number of values to unpack")),
        w))
    /\ (List.length frames <> 3 ->
        listen_to_workers E (Incoming frames :: rest) w
        = (Raise (Exc "ValueError" (VStr "wrong number of values to unpack")),
           w)).
Proof.
  intros frames rest w Hs. split; intro Hlen.
  - now apply listen_to_scheduler_frames.
  - now apply listen_to_workers_frames.
Qed.

Lemma wrong_frame_count_ends_the_loop_witness :
  listen_to_scheduler sample_E
    [Incoming ["P:frobnicate()"]; Incoming ["H:job7"; "P:getitem(x)"]]
    (sample_node [])
  = (Raise (Exc "ValueError" (VStr "wrong number of values to unpack")),
     sample_node [])
  /\ listen_to_workers sample_E
       [Incoming ["P:frobnicate()"]; Incoming ["H:job7"; "P:getitem(x)"]]
       (sample_node [])
     = (Raise (Exc "ValueError" (VStr "wrong number of values to unpack")),
        sample_node []).
Proof.
  destruct (@wrong_frame_count_ends_the_loop sample_E ["P:frobnicate()"]
              [Incoming ["H:job7"; "P:getitem(x)"]] (sample_node [])
              eq_refl) as [H2 H3].
  split; [apply H2 | apply H3]; simpl; discriminate.
Defined.

(** ** After [close] *)

(** X14.  A polling loop tests the status before each poll, so once
    another thread has called [close] the loop handles at most the
    message of the poll that was in progress: after a turn in which
    [close] has been called, with a message or without, whatever arrives
    is not read by the loop and has no effect on the node.  The message
    of that turn itself is still unpacked and handed to the pool, unless
    the pool is closed already, in which case [apply_async] raises and
    the loop ends with [AssertionError].  A loop that finds the status
    ['closed'] at its test reads nothing. *)
Theorem closed_loop_reads_nothing (E : Env) :
  forall (pre post : list event) (c : event) (w : node),
    closes c = true ->
    listen_to_scheduler E (pre ++ c :: post) w
    = listen_to_scheduler E (pre ++ [c]) w
    /\ listen_to_workers E (pre ++ c :: post) w
       = listen_to_workers E (pre ++ [c]) w
    /\ (String.eqb (status w) "closed" = true ->
        listen_to_scheduler E post w = (Ret tt, w)
        /\ listen_to_workers E post w = (Ret tt, w)).
Proof.
  intros pre post c w Hc. split; [ | split].
  - now apply listen_to_scheduler_after_close.
  - now apply listen_to_workers_after_close.
  - intro Hs. split.
    + now apply listen_closed_scheduler.
    + now apply listen_closed_workers.
Qed.

Lemma closed_loop_reads_nothing_witness :
  let w := sample_node [(VStr "x", VInt 1)] in
  let m := ["H:job7"; "P:getitem(x)"] in
  let j := {| job_func := VStr "getitem"; job_args := [VStr "x"];
              job_kwargs := VDict []; job_jobid := VInt 7;
              job_send := Some SendToScheduler |} in
  listen_to_scheduler sample_E [Closing; Incoming m] w
  = (Ret tt, set_status "closed" w)
  /\ listen_to_scheduler sample_E
       [IncomingAtClose m true; Incoming m] w
     = (Ret tt, push_job j (set_status "closed" w))
  /\ listen_to_scheduler sample_E
       [IncomingAtClose m false; Incoming m] w
     = (Raise AssertionError, set_status "closed" w)
  /\ listen_to_workers sample_E
       [IncomingAtClose ("bob" :: m) true; Incoming ("bob" :: m)] w
     = listen_to_workers sample_E [IncomingAtClose ("bob" :: m) true] w.
Proof.
  intros w m j.
  destruct (@closed_loop_reads_nothing sample_E [] [Incoming m] Closing w
              eq_refl) as (H1 & _ & _).
  destruct (@closed_loop_reads_nothing sample_E [] [Incoming m]
              (IncomingAtClose m true) w eq_refl) as (H2 & _ & _).
  destruct (@closed_loop_reads_nothing sample_E [] [Incoming m]
              (IncomingAtClose m false) w eq_refl) as (H3 & _ & _).
  destruct (@closed_loop_reads_nothing sample_E [] [Incoming ("bob" :: m)]
              (IncomingAtClose ("bob" :: m) true) w eq_refl)
    as (_ & H4 & _).
  split; [ | split; [ | split]].
  - refine (eq_trans H1 _). reflexivity.
  - refine (eq_trans H2 _). reflexivity.
  - refine (eq_trans H3 _). reflexivity.
  - exact H4.
Defined.

(** ** What jobs and loops leave alone *)

Lemma preserves_ret {A X : Type} (f : node -> X) (a : A) :
  preserves f (ret a).
Proof. intro w. reflexivity. Qed.

Lemma preserves_raise {A X : Type} (f : node -> X) (e : exn) :
  preserves f (@raise A e).
Proof. intro w. reflexivity. Qed.

Lemma preserves_hang {A X : Type} (f : node -> X) : preserves f (@hang A).
Proof. intro w. reflexivity. Qed.

Lemma preserves_lift {A X : Type} (f : node -> X) (c : outcome A) :
  preserves f (lift c).
Proof. intro w. reflexivity. Qed.

Lemma preserves_get_node {X : Type} (f : node -> X) : preserves f get_node.
Proof. intro w. reflexivity. Qed.

Lemma preserves_bind {A B X : Type} (f : node -> X) (c : M A) (k : A -> M B) :
  preserves f c -> (forall a, preserves f (k a)) -> preserves f (bind c k).
Proof.
  intros Hc Hk w. unfold bind. specialize (Hc w).
  destruct (c w) as [[a | e |] w1]; simpl in *; try exact Hc.
  now rewrite (Hk a w1).
Qed.

Lemma preserves_attempt {A X : Type} (f : node -> X) (c : M A) :
  preserves f c -> preserves f (attempt c).
Proof.
  intros Hc w. unfold attempt. specialize (Hc w).
  destruct (c w) as [[a | e |] w1]; try exact Hc.
  destruct (is_Exception e); exact Hc.
Qed.

Lemma preserves_modify {X : Type} (f : node -> X) (g : node -> node) :
  (forall w, f (g w) = f w) -> preserves f (modify g).
Proof. intros H w. apply H. Qed.

Create HintDb preserves.
#[local] Hint Resolve preserves_ret preserves_raise preserves_hang
  preserves_lift preserves_get_node preserves_attempt : preserves.

Ltac preserves_step :=
  first
    [ apply preserves_bind; [ | intro ]
    | solve [ auto with preserves ] ].

Section JobFrame.

Variable E : Env.
Variable X : Type.
Variable f : node -> X.

Hypothesis f_set_data : forall d w, f (set_data d w) = f w.
Hypothesis f_push_sock : forall s w, f (push_sock s w) = f w.
Hypothesis f_tick_clock : forall w, f (tick_clock w) = f w.
Hypothesis f_tick_rand : forall w, f (tick_rand w) = f w.

Lemma preserves_getitem k : preserves f (getitem k).
Proof.
  intro w. unfold getitem.
  destruct (hashable k); [destruct (dict_lookup k (data w)) | ]; reflexivity.
Qed.

Lemma preserves_setitem k v : preserves f (setitem k v).
Proof.
  intro w. unfold setitem. destruct (hashable k); simpl; auto.
Qed.

Lemma preserves_delitem k : preserves f (delitem k).
Proof.
  intro w. unfold delitem.
  destruct (hashable k); [destruct (dict_lookup k (data w)) | ]; simpl; auto.
Qed.

Lemma preserves_contains k : preserves f (contains k).
Proof. intro w. unfold contains. destruct (hashable k); reflexivity. Qed.

Lemma preserves_time : preserves f (time E).
Proof. intro w. simpl. auto. Qed.

Lemma preserves_choice seq : preserves f (choice E seq).
Proof.
  intro w. unfold choice.
  destruct seq as [ | | | | s | items | items | d | ]; try reflexivity.
  - destruct s; simpl; auto.
  - destruct items; simpl; auto.
  - destruct items; simpl; auto.
  - destruct d; [reflexivity | ].
    match goal with |- context [dict_lookup ?k ?d] =>
      destruct (dict_lookup k d) end; simpl; auto.
Qed.

Lemma preserves_connect peer : preserves f (connect E peer).
Proof.
  unfold connect. destruct peer; auto with preserves.
  destruct (connect_ok E s); auto with preserves.
Qed.

Lemma preserves_send_request peer frames :
  preserves f (send_request peer frames).
Proof. intro w. simpl. auto. Qed.

Lemma preserves_recv s : preserves f (recv E s).
Proof. unfold recv. destruct (peer_reply E _ _ _); auto with preserves. Qed.

#[local] Hint Resolve preserves_getitem preserves_setitem preserves_delitem
  preserves_contains preserves_time preserves_choice preserves_connect
  preserves_send_request preserves_recv : preserves.

Lemma preserves_collect_send items :
  forall socks, preserves f (collect_send E items socks).
Proof.
  induction items as [ | [key locs] rest IH]; intro socks; simpl.
  - auto with preserves.
  - preserves_step; [auto with preserves | ].
    destruct a; [apply IH | ].
    repeat preserves_step.
Qed.

Lemma preserves_collect_recv socks : preserves f (collect_recv E socks).
Proof.
  induction socks as [ | s rest IH]; simpl.
  - auto with preserves.
  - preserves_step; [auto with preserves | ].
    destruct a as [ | h [ | p [ | ? ?]]]; auto with preserves.
    repeat preserves_step.
Qed.

Lemma preserves_collect locations : preserves f (collect E locations).
Proof.
  unfold collect. repeat preserves_step.
  - apply preserves_collect_send.
  - apply preserves_collect_recv.
Qed.

#[local] Hint Resolve preserves_collect : preserves.

Lemma preserves_compute key task locations :
  preserves f (compute E key task locations).
Proof.
  unfold compute. preserves_step; [auto with preserves | ].
  preserves_step; [auto with preserves | ].
  preserves_step.
  - apply preserves_attempt. repeat preserves_step.
  - destruct a1 as [[result stop] | e]; repeat preserves_step.
Qed.

#[local] Hint Resolve preserves_compute : preserves.

Lemma preserves_invoke h args kw : preserves f (invoke E h args kw).
Proof.
  destruct h; simpl.
  - preserves_step; [auto with preserves | ].
    unfold status_function. auto with preserves.
  - preserves_step; [auto with preserves | ].
    destruct a as [ | l [ | ? ?]]; auto with preserves.
  - preserves_step; [auto with preserves | ].
    destruct a as [ | k [ | t [ | l [ | ? ?]]]]; auto with preserves.
  - destruct kw; [ | auto with preserves].
    destruct args as [ | k [ | ? ?]]; auto with preserves.
  - destruct kw; [ | auto with preserves].
    destruct args as [ | k [ | v [ | ? ?]]]; auto with preserves.
  - destruct kw; [ | auto with preserves].
    destruct args as [ | k [ | ? ?]]; auto with preserves.
Qed.

Lemma preserves_run_function func args kwargs :
  preserves f (run_function E func args kwargs).
Proof.
  unfold run_function. preserves_step.
  - apply preserves_attempt. unfold call_function.
    repeat preserves_step. apply preserves_invoke.
  - destruct a as [result | e]; [auto with preserves | ].
    destruct (is_KeyError e); [ | auto with preserves].
    preserves_step; [auto with preserves | ].
    destruct a; [auto with preserves | ].
    repeat preserves_step.
Qed.

Hypothesis f_push_dealer : forall m w, f (push_dealer m w) = f w.
Hypothesis f_push_router : forall m w, f (push_router m w) = f w.

Lemma preserves_send_via s header result :
  preserves f (send_via E s header result).
Proof.
  destruct s; simpl; unfold send_to_scheduler, send_to_worker;
    repeat preserves_step; apply preserves_modify; auto.
Qed.

Lemma preserves_execute_and_reply func args kwargs jobid send :
  preserves f (execute_and_reply E func args kwargs jobid send).
Proof.
  unfold execute_and_reply.
  apply preserves_bind; [apply preserves_run_function | ].
  intros [st result]. destruct send.
  - apply preserves_send_via.
  - apply preserves_ret.
Qed.

Lemma preserves_run_pool jobs : forall w, f (run_pool E jobs w) = f w.
Proof.
  unfold run_pool. induction jobs as [ | j jobs IH]; intro w; simpl.
  - reflexivity.
  - rewrite IH. unfold run_job. apply preserves_execute_and_reply.
Qed.

End JobFrame.

Section LoopFrame.

Variable E : Env.
Variable X : Type.
Variable f : node -> X.

Hypothesis f_push_job : forall j w, f (push_job j w) = f w.
Hypothesis f_set_status : forall s w, f (set_status s w) = f w.

Lemma preserves_listen_to_scheduler events :
  preserves f (listen_to_scheduler E events).
Proof.
  induction events as [ | ev rest IH]; intro w; [reflexivity | ].
  rewrite listen_to_scheduler_cons.
  destruct (String.eqb (status w) "closed"); [reflexivity | ].
  destruct ev as [ | frames | | frames accepted].
  - apply IH.
  - destruct frames as [ | h [ | p [ | ? ?]]]; try reflexivity.
    destruct (unpack_function E h p)
      as [[[[[func args] kwargs] jobid] reply] | e |]; try reflexivity.
    rewrite IH. apply f_push_job.
  - rewrite IH. apply f_set_status.
  - destruct frames as [ | h [ | p [ | ? ?]]]; try apply f_set_status.
    destruct (unpack_function E h p)
      as [[[[[func args] kwargs] jobid] reply] | e |];
      try apply f_set_status.
    destruct accepted; [ | apply f_set_status].
    rewrite IH, f_push_job. apply f_set_status.
Qed.

Lemma preserves_listen_to_workers events :
  preserves f (listen_to_workers E events).
Proof.
  induction events as [ | ev rest IH]; intro w; [reflexivity | ].
  rewrite listen_to_workers_cons.
  destruct (String.eqb (status w) "closed"); [reflexivity | ].
  destruct ev as [ | frames | | frames accepted].
  - apply IH.
  - destruct frames as [ | a [ | h [ | p [ | ? ?]]]]; try reflexivity.
    destruct (unpack_function E h p)
      as [[[[[func args] kwargs] jobid] reply] | e |]; try reflexivity.
    destruct (obind (loads E h) (fun hv => py_getitem hv "address"));
      try reflexivity.
    rewrite IH. apply f_push_job.
  - rewrite IH. apply f_set_status.
  - destruct frames as [ | a [ | h [ | p [ | ? ?]]]]; try apply f_set_status.
    destruct (unpack_function E h p)
      as [[[[[func args] kwargs] jobid] reply] | e |];
      try apply f_set_status.
    destruct (obind (loads E h) (fun hv => py_getitem hv "address"));
      try apply f_set_status.
    destruct accepted; [ | apply f_set_status].
    rewrite IH, f_push_job. apply f_set_status.
Qed.

End LoopFrame.

(** X15.  Nothing that runs after the constructor changes the identity
    of the node: the jobs of the pool, in any number and order, and the
    two polling loops leave the address, the address of the coordinator
    and the bound endpoint as they were; and no job changes the
    life-cycle status or the list of submitted jobs. *)
Theorem identity_is_kept (E : Env) :
  forall (jobs : list job) (events : list event) (w : node),
    (address (run_pool E jobs w) = address w
     /\ scheduler (run_pool E jobs w) = scheduler w
     /\ bound (run_pool E jobs w) = bound w
     /\ status (run_pool E jobs w) = status w
     /\ submitted (run_pool E jobs w) = submitted w)
    /\ (address (snd (listen_to_scheduler E events w)) = address w
        /\ scheduler (snd (listen_to_scheduler E events w)) = scheduler w
        /\ bound (snd (listen_to_scheduler E events w)) = bound w)
    /\ (address (snd (listen_to_workers E events w)) = address w
        /\ scheduler (snd (listen_to_workers E events w)) = scheduler w
        /\ bound (snd (listen_to_workers E events w)) = bound w).
Proof.
  intros jobs events w. repeat split.
  all: try (apply preserves_run_pool; reflexivity).
  all: try (apply preserves_listen_to_scheduler; reflexivity).
  all: apply preserves_listen_to_workers; reflexivity.
Qed.

(** X16.  A polling loop only hands jobs to the pool: whatever arrives,
    and however the loop ends, the Data Store, the sockets opened by
    [collect], the clock and the random source are as they were, the
    jobs submitted before are still there under the new ones, and the
    status is the one it was or ['closed']. *)
Theorem loops_only_submit (E : Env) :
  forall (events : list event) (w : node),
    let ws := snd (listen_to_scheduler E events w) in
    let ww := snd (listen_to_workers E events w) in
    (data ws = data w /\ peer_socks ws = peer_socks w
     /\ clock_tick ws = clock_tick w /\ rand_tick ws = rand_tick w
     /\ (exists new, submitted ws = new ++ submitted w)
     /\ (status ws = status w \/ status ws = "closed"))
    /\ (data ww = data w /\ peer_socks ww = peer_socks w
        /\ clock_tick ww = clock_tick w /\ rand_tick ww = rand_tick w
        /\ (exists new, submitted ww = new ++ submitted w)
        /\ (status ww = status w \/ status ww = "closed")).
Proof.
  intros events w ws ww. subst ws ww.
  split; (split; [ | split; [ | split; [ | split; [ | split]]]]).
  all: try (apply preserves_listen_to_scheduler; reflexivity).
  all: try (apply preserves_listen_to_workers; reflexivity).
  - revert w. induction events as [ | ev rest IH]; intro w;
      [now exists [] | ].
    rewrite listen_to_scheduler_cons.
    destruct (String.eqb (status w) "closed"); [now exists [] | ].
    destruct ev as [ | frames | | frames accepted].
    + apply IH.
    + destruct frames as [ | h [ | p [ | ? ?]]]; try (now exists []).
      destruct (unpack_function E h p)
        as [[[[[func args] kwargs] jobid] reply] | e |];
        try (now exists []).
      match goal with |- context [push_job ?j w] =>
        destruct (IH (push_job j w)) as [new Hn]; exists (new ++ [j]) end.
      rewrite Hn. simpl. now rewrite <- app_assoc.
    + destruct (IH (set_status "closed" w)) as [new Hn]. now exists new.
    + destruct frames as [ | h [ | p [ | ? ?]]]; try (now exists []).
      destruct (unpack_function E h p)
        as [[[[[func args] kwargs] jobid] reply] | e |];
        try (now exists []).
      destruct accepted; [ | now exists []].
      match goal with |- context [push_job ?j ?w0] =>
        destruct (IH (push_job j w0)) as [new Hn]; exists (new ++ [j]) end.
      rewrite Hn. simpl. now rewrite <- app_assoc.
  - revert w. induction events as [ | ev rest IH]; intro w;
      [now left | ].
    rewrite listen_to_scheduler_cons.
    destruct (String.eqb (status w) "closed"); [now left | ].
    destruct ev as [ | frames | | frames accepted].
    + apply IH.
    + destruct frames as [ | h [ | p [ | ? ?]]]; try (now left).
      destruct (unpack_function E h p)
        as [[[[[func args] kwargs] jobid] reply] | e |];
        try (now left).
      match goal with |- context [push_job ?j w] =>
        destruct (IH (push_job j w)) as [Hn | Hn] end; auto.
    + destruct (IH (set_status "closed" w)) as [Hn | Hn]; auto.
    + destruct frames as [ | h [ | p [ | ? ?]]]; try (now right).
      destruct (unpack_function E h p)
        as [[[[[func args] kwargs] jobid] reply] | e |];
        try (now right).
      destruct accepted; [ | now right].
      match goal with |- context [push_job ?j ?w0] =>
        destruct (IH (push_job j w0)) as [Hn | Hn] end; auto.
  - revert w. induction events as [ | ev rest IH]; intro w;
      [now exists [] | ].
    rewrite listen_to_workers_cons.
    destruct (String.eqb (status w) "closed"); [now exists [] | ].
    destruct ev as [ | frames | | frames accepted].
    + apply IH.
    + destruct frames as [ | a [ | h [ | p [ | ? ?]]]]; try (now exists []).
      destruct (unpack_function E h p)
        as [[[[[func args] kwargs] jobid] reply] | e |];
        try (now exists []).
      destruct (obind (loads E h) (fun hv => py_getitem hv "address"));
        try (now exists []).
      match goal with |- context [push_job ?j w] =>
        destruct (IH (push_job j w)) as [new Hn]; exists (new ++ [j]) end.
      rewrite Hn. simpl. now rewrite <- app_assoc.
    + destruct (IH (set_status "closed" w)) as [new Hn]. now exists new.
    + destruct frames as [ | a [ | h [ | p [ | ? ?]]]]; try (now exists []).
      destruct (unpack_function E h p)
        as [[[[[func args] kwargs] jobid] reply] | e |];
        try (now exists []).
      destruct (obind (loads E h) (fun hv => py_getitem hv "address"));
        try (now exists []).
      destruct accepted; [ | now exists []].
      match goal with |- context [push_job ?j ?w0] =>
        destruct (IH (push_job j w0)) as [new Hn]; exists (new ++ [j]) end.
      rewrite Hn. simpl. now rewrite <- app_assoc.
  - revert w. induction events as [ | ev rest IH]; intro w;
      [now left | ].
    rewrite listen_to_workers_cons.
    destruct (String.eqb (status w) "closed"); [now left | ].
    destruct ev as [ | frames | | frames accepted].
    + apply IH.
    + destruct frames as [ | a [ | h [ | p [ | ? ?]]]]; try (now left).
      destruct (unpack_function E h p)
        as [[[[[func args] kwargs] jobid] reply] | e |];
        try (now left).
      destruct (obind (loads E h) (fun hv => py_getitem hv "address"));
        try (now left).
      match goal with |- context [push_job ?j w] =>
        destruct (IH (push_job j w)) as [Hn | Hn] end; auto.
    + destruct (IH (set_status "closed" w)) as [Hn | Hn]; auto.
    + destruct frames as [ | a [ | h [ | p [ | ? ?]]]]; try (now right).
      destruct (unpack_function E h p)
        as [[[[[func args] kwargs] jobid] reply] | e |];
        try (now right).
      destruct (obind (loads E h) (fun hv => py_getitem hv "address"));
        try (now right).
      destruct accepted; [ | now right].
      match goal with |- context [push_job ?j ?w0] =>
        destruct (IH (push_job j w0)) as [Hn | Hn] end; auto.
Qed.

(** X17.  The header of a reply is exactly the job identifier, the
    status and the address of the node that sends it, the address being
    the one the node had before the job ran: when a job has sent its
    reply, the header frame is the serialization of that three-entry
    dictionary and the last frame the serialization of the result. *)
Theorem reply_header_is_jobid_status_address (E : Env) :
  forall (j : job) (w : node) (msg : list bytes),
    reply_of E j w = Some msg ->
    exists st result hb pb w1,
      run_function E (job_func j) (job_args j) (job_kwargs j) w
      = (Ret (st, result), w1)
      /\ dumps E (VDict [(VStr "jobid", job_jobid j);
                         (VStr "status", VStr st);
                         (VStr "address", VStr (address w))]) = Ret hb
      /\ dumps E result = Ret pb
      /\ (job_send j = Some SendToScheduler /\ msg = [hb; pb]
          \/ exists peer,
              job_send j = Some (SendToWorker peer) /\ msg = [peer; hb; pb]).
Proof.
  intros j w msg. unfold reply_of.
  destruct (run_function E (job_func j) (job_args j) (job_kwargs j) w)
    as [[[st result] | e |] w1] eqn:R.
  - rewrite (execute_and_reply_after_run E (job_func j) (job_args j)
               (job_kwargs j) (job_jobid j) (job_send j) w R).
    assert (Ha : address w1 = address w).
    { pose proof (preserves_run_function E address
                    (fun _ _ => eq_refl) (fun _ _ => eq_refl)
                    (fun _ => eq_refl) (fun _ => eq_refl)
                    (job_func j) (job_args j) (job_kwargs j) w) as H.
      now rewrite R in H. }
    destruct (job_send j) as [[ | peer] | ]; simpl.
    + destruct (send_to_scheduler E (reply_header (job_jobid j) st) result w1)
        as [[[] | e |] w2] eqn:S; try discriminate.
      apply send_to_scheduler_sent in S.
      destruct S as (hb & pb & Hhb & Hpb & ->). simpl.
      intro Hm. injection Hm as <-.
      exists st, result, hb, pb, w1. rewrite <- Ha.
      repeat split; try assumption. now left.
    + destruct (send_to_worker E peer (reply_header (job_jobid j) st) result w1)
        as [[[] | e |] w2] eqn:S; try discriminate.
      apply send_to_worker_sent in S.
      destruct S as (hb & pb & Hhb & Hpb & ->). simpl.
      intro Hm. injection Hm as <-.
      exists st, result, hb, pb, w1. rewrite <- Ha.
      repeat split; try assumption. right. now exists peer.
    + discriminate.
  - unfold execute_and_reply, bind. rewrite R. discriminate.
  - unfold execute_and_reply, bind. rewrite R. discriminate.
Qed.

Lemma reply_header_is_jobid_status_address_witness :
  let j := {| job_func := VStr "getitem"; job_args := [VStr "x"];
              job_kwargs := VDict []; job_jobid := VInt 7;
              job_send := Some SendToScheduler |} in
  exists st result hb pb w1,
    run_function sample_E (job_func j) (job_args j) (job_kwargs j)
      (sample_node [])
    = (Ret (st, result), w1)
    /\ dumps sample_E (VDict [(VStr "jobid", job_jobid j);
                              (VStr "status", VStr st);
                              (VStr "address",
                               VStr (address (sample_node [])))]) = Ret hb
    /\ dumps sample_E result = Ret pb
    /\ (job_send j = Some SendToScheduler
        /\ ["R:job7,Error"; "KeyError(x)"] = [hb; pb]
        \/ exists peer,
            job_send j = Some (SendToWorker peer)
            /\ ["R:job7,Error"; "KeyError(x)"] = [peer; hb; pb]).
Proof.
  intro j.
  apply (@reply_header_is_jobid_status_address sample_E j (sample_node [])
           ["R:job7,Error"; "KeyError(x)"]).
  vm_compute. reflexivity.
Defined.

(** ** Construction with an explicit address *)

(** X18.  With an explicit address the constructor does not need the
    host name, and ignores the port: when the address is accepted as the
    identity of the DEALER socket (1 to 255 bytes), the coordinator's
    endpoint is accepted and the address can be bound, the node is
    running at that address with the given store, the one message it has
    sent is the registration [['', 'Register']] on the DEALER socket, the
    ROUTER socket is bound to the address and both polling threads are
    started. *)
Theorem construction_with_address (E : Env) :
  forall (scheduler_address a : string) (d : store) (port : option Z),
    identity_ok a = true ->
    connect_ok E scheduler_address = true ->
    bind_ok E a = true ->
    init E scheduler_address d (Some a) port
    = (Ret tt,
       {| data := d; address := a; scheduler := scheduler_address;
          status := "run"; dealer_out := [[""; "Register"]];
          router_out := []; peer_socks := []; submitted := [];
          bound := Some a; listeners := 2; clock_tick := 0;
          rand_tick := 0 |}).
Proof.
  intros scheduler_address a d port Hi Hc Hb.
  unfold init, init_body, bind, ret, modify, get_node. cbn [snd fst].
  rewrite Hi. cbn [scheduler set_address new_node]. now rewrite Hc, Hb.
Qed.

Lemma construction_with_address_witness :
  init sample_E "tcp://scheduler:4000" [] (Some "tcp://alice:5000")
    (Some 7000%Z)
  = (Ret tt, sample_node []).
Proof.
  apply (@construction_with_address sample_E "tcp://scheduler:4000"
           "tcp://alice:5000" [] (Some 7000%Z)); reflexivity.
Defined.

(** X19.  The constructor fails in three places.  When the address is
    not accepted as the identity of the DEALER socket, because it is
    empty or longer than 255 bytes, or when the coordinator's endpoint
    is refused, it raises before anything is sent.  The registration is
    sent before the listening socket is bound: when the address cannot
    be bound the constructor raises the error of [bind], no polling
    thread has been started, and the coordinator has already been sent
    the registration of a node that does not exist. *)
Theorem construction_failure (E : Env) :
  forall (scheduler_address a : string) (d : store) (port : option Z),
    (identity_ok a = false ->
     exists w,
       init E scheduler_address d (Some a) port
       = (Raise (Exc "ZMQError" (VStr "Invalid argument")), w)
       /\ dealer_out w = [] /\ bound w = None /\ listeners w = 0)
    /\ (identity_ok a = true ->
        connect_ok E scheduler_address = false ->
        exists w,
          init E scheduler_address d (Some a) port
          = (Raise (Exc "ZMQError" (VStr "Invalid argument")), w)
          /\ dealer_out w = [] /\ bound w = None /\ listeners w = 0)
    /\ (identity_ok a = true ->
        connect_ok E scheduler_address = true ->
        bind_ok E a = false ->
        exists w,
          init E scheduler_address d (Some a) port
          = (Raise (Exc "ZMQError" (VStr "Address already in use")), w)
          /\ dealer_out w = [[""; "Register"]]
          /\ bound w = None /\ listeners w = 0).
Proof.
  intros scheduler_address a d port. split; [ | split].
  - intro Hi. unfold init, init_body, bind, ret, modify, get_node.
    cbn [snd fst]. rewrite Hi.
    eexists. split; [reflexivity | ]. repeat split.
  - intros Hi Hc. unfold init, init_body, bind, ret, modify, get_node.
    cbn [snd fst]. rewrite Hi. cbn [scheduler set_address new_node].
    rewrite Hc. eexists. split; [reflexivity | ]. repeat split.
  - intros Hi Hc Hb. unfold init, init_body, bind, ret, modify, get_node.
    cbn [snd fst]. rewrite Hi. cbn [scheduler set_address new_node].
    rewrite Hc, Hb. eexists. split; [reflexivity | ]. repeat split.
Qed.

Lemma construction_failure_witness :
  (exists w,
      init busy_E "tcp://scheduler:4000" [] (Some "tcp://alice:5000") None
      = (Raise (Exc "ZMQError" (VStr "Address already in use")), w)
      /\ dealer_out w = [[""; "Register"]]
      /\ bound w = None /\ listeners w = 0)
  /\ (exists w,
         init sample_E "tcp://scheduler:4000" [] (Some "") None
         = (Raise (Exc "ZMQError" (VStr "Invalid argument")), w)
         /\ dealer_out w = [] /\ bound w = None /\ listeners w = 0).
Proof.
  split.
  - destruct (@construction_failure busy_E "tcp://scheduler:4000"
                "tcp://alice:5000" [] None) as [_ [_ H]].
    apply H; reflexivity.
  - destruct (@construction_failure sample_E "tcp://scheduler:4000"
                "" [] None) as [H _].
    apply H; reflexivity.
Defined.

(** ** The send lock: progress and completeness *)

Section SendLockMore.

Variable msgs : list outgoing.

Lemma send_steps_length m :
  List.length (send_steps m) = S (S (List.length (send_frames m))).
Proof.
  unfold send_steps. simpl. rewrite length_app, length_map. simpl. lia.
Qed.

Lemma pool_step_sending i s m :
  nth_error msgs i = Some m ->
  sending msgs s i = true ->
  holder s SelfLock = Some i ->
  exists s', pool_step msgs i s = Some s'.
Proof.
  intros Hm Hs Hh. unfold pool_step. rewrite Hm, send_steps_nth.
  unfold sending in Hs. rewrite Hm in Hs.
  apply andb_true_iff in Hs. destruct Hs as [H1 H2].
  apply Nat.leb_le in H1. apply Nat.leb_le in H2.
  destruct (pc s i) as [ | q]; [lia | ].
  destruct (nth_error (send_frames m) q) as [f | ] eqn:Hq.
  - eexists. reflexivity.
  - apply nth_error_None in Hq.
    assert (Hlen : q = List.length (send_frames m)) by lia.
    rewrite <- Hlen, Nat.eqb_refl.
    destruct (send_lock (out_send m)). rewrite Hh. eexists. reflexivity.
Qed.

Lemma pool_inv_done_start : pool_inv_done msgs pool_start.
Proof.
  split.
  - intros i m _. simpl. lia.
  - exists []. split; [constructor | ]. split; [ | reflexivity].
    intro i. unfold finished. simpl. split; [contradiction | ].
    destruct (nth_error msgs i) as [m | ]; discriminate.
Qed.

Lemma finished_advance_other s i j h w :
  j <> i ->
  finished msgs {| holder := h; pc := advance i (pc s); wire := w |} j
  = finished msgs s j.
Proof.
  intro Hne. unfold finished, advance. cbn [pc].
  apply Nat.eqb_neq in Hne. now rewrite Hne.
Qed.

Lemma pool_step_inv_done i s s' :
  pool_inv msgs s -> pool_inv_done msgs s ->
  pool_step msgs i s = Some s' -> pool_inv_done msgs s'.
Proof.
  intros [Hhold _] [Hbound (done & Hnd & Hdone & Hwire)] Hstep.
  unfold pool_step in Hstep.
  destruct (nth_error msgs i) as [m | ] eqn:Hm; [ | discriminate].
  pose proof (Hbound i m Hm) as Hle. rewrite send_steps_length in Hle.
  rewrite send_steps_nth in Hstep.
  assert (Hb' : forall h w,
             forall j mj, nth_error msgs j = Some mj ->
               pc s i < List.length (send_steps m) ->
               pc {| holder := h; pc := advance i (pc s); wire := w |} j
               <= List.length (send_steps mj)).
  { intros h w j mj Hj Hlt. cbn [pc]. unfold advance.
    destruct (Nat.eqb j i) eqn:Hji.
    - apply Nat.eqb_eq in Hji. subst j. rewrite Hm in Hj.
      injection Hj as <-. lia.
    - now apply Hbound. }
  assert (Hnot : forall h w,
             S (pc s i) < List.length (send_steps m) ->
             forall j,
               In j done
               <-> finished msgs
                     {| holder := h; pc := advance i (pc s); wire := w |} j
                   = true).
  { intros h w Hlt j. destruct (Nat.eq_dec j i) as [-> | Hne].
    - rewrite Hdone. unfold finished, advance. cbn [pc].
      rewrite Hm, Nat.eqb_refl.
      split; intro H; apply Nat.eqb_eq in H; lia.
    - rewrite (finished_advance_other s h w Hne). apply Hdone. }
  rewrite send_steps_length in Hb', Hnot.
  destruct (pc s i) as [ | q] eqn:Hpc.
  - (* acquire *)
    destruct (send_lock (out_send m)).
    destruct (holder s SelfLock) as [h | ] eqn:Hh; [discriminate | ].
    injection Hstep as <-. split.
    + intros j mj Hj. apply Hb'; [exact Hj | lia].
    + exists done. split; [exact Hnd | ]. split; [apply Hnot; lia | ].
      simpl. rewrite Hwire. unfold partial_frames. simpl.
      rewrite Hh. unfold set_holder, advance. simpl.
      now rewrite Nat.eqb_refl, Hpc.
  - destruct (nth_error (send_frames m) q) as [f | ] eqn:Hq.
    + (* one frame *)
      assert (Hlt : q < List.length (send_frames m))
        by (apply nth_error_Some; congruence).
      assert (Hi : holder s SelfLock = Some i).
      { apply Hhold. unfold sending. rewrite Hm, Hpc.
        apply andb_true_iff. split; apply Nat.leb_le; lia. }
      injection Hstep as <-. split.
      * intros j mj Hj. apply Hb'; [exact Hj | lia].
      * exists done. split; [exact Hnd | ]. split; [apply Hnot; lia | ].
        simpl. rewrite Hwire. unfold partial_frames. simpl.
        rewrite Hi. unfold advance. rewrite Nat.eqb_refl, Hpc. simpl.
        rewrite Nat.sub_0_r, <- app_assoc. f_equal.
        symmetry. apply firstn_S_nth_error.
        unfold wire_frames. rewrite Hm, nth_error_map, Hq. reflexivity.
    + (* release *)
      destruct (Nat.eqb q (List.length (send_frames m))) eqn:Hlen;
        [ | discriminate].
      apply Nat.eqb_eq in Hlen.
      destruct (send_lock (out_send m)).
      assert (Hi : holder s SelfLock = Some i).
      { apply Hhold. unfold sending. rewrite Hm, Hpc.
        apply andb_true_iff. split; apply Nat.leb_le; lia. }
      rewrite Hi in Hstep. injection Hstep as <-.
      assert (Hnotin : ~ In i done).
      { rewrite Hdone. unfold finished. rewrite Hm, Hpc, send_steps_length.
        intro H. apply Nat.eqb_eq in H. lia. }
      split.
      * intros j mj Hj. apply Hb'; [exact Hj | lia].
      * exists (done ++ [i]). split; [ | split].
        -- apply NoDup_app; [exact Hnd | repeat constructor; simpl; tauto | ].
           intros x Hx [<- | []]. contradiction.
        -- intro j. rewrite in_app_iff. simpl.
           destruct (Nat.eq_dec j i) as [-> | Hne].
           ++ unfold finished, advance. cbn [pc].
              rewrite Hm, Nat.eqb_refl, Hpc, send_steps_length.
              split; [intros _; apply Nat.eqb_eq; lia | auto].
           ++ rewrite (finished_advance_other s _ _ Hne), <- Hdone.
              split; [intros [H | [H | []]]; [exact H | congruence] | auto].
        -- simpl. rewrite Hwire.
           rewrite flat_map_app. simpl. rewrite app_nil_r.
           unfold partial_frames. simpl. rewrite Hi.
           unfold set_holder. simpl.
           rewrite app_nil_r. f_equal. rewrite Hpc. simpl.
           rewrite Nat.sub_0_r.
           apply firstn_all2. unfold wire_frames.
           rewrite Hm, length_map. lia.
Qed.

Lemma pool_run_inv_done schedule : pool_inv_done msgs (pool_run msgs schedule).
Proof.
  unfold pool_run.
  assert (H : forall s, pool_inv msgs s -> pool_inv_done msgs s ->
            pool_inv_done msgs
              (fold_left (fun s i => match pool_step msgs i s with
                                     | Some s' => s'
                                     | None => s
                                     end) schedule s)).
  { induction schedule as [ | i rest IH]; intros s Hs Hd; simpl;
      [exact Hd | ].
    destruct (pool_step msgs i s) as [s' | ] eqn:Hstep.
    - apply IH.
      + now apply pool_step_inv with (i := i) (s := s).
      + now apply pool_step_inv_done with (i := i) (s := s).
    - now apply IH. }
  apply H; [apply pool_inv_start | apply pool_inv_done_start].
Qed.

End SendLockMore.

(** X20.  The lock of the send functions cannot deadlock the pool: in
    every state that the sending threads can reach, under any schedule,
    if some thread has not finished its send then some thread can take a
    step. *)
Theorem send_lock_never_deadlocks :
  forall (msgs : list outgoing) (schedule : list nat) (i : nat) (m : outgoing),
    nth_error msgs i = Some m ->
    finished msgs (pool_run msgs schedule) i = false ->
    exists j s', pool_step msgs j (pool_run msgs schedule) = Some s'.
Proof.
  intros msgs schedule i m Hm Hfin.
  destruct (pool_run_inv msgs schedule) as [Hhold _].
  destruct (pool_run_inv_done msgs schedule) as [Hbound _].
  set (s := pool_run msgs schedule) in *.
  destruct (holder s SelfLock) as [h | ] eqn:Hh.
  - pose proof (proj1 (Hhold h) eq_refl) as Hs.
    assert (Hmh : exists mh, nth_error msgs h = Some mh).
    { unfold sending in Hs. destruct (nth_error msgs h) as [mh | ];
        [now exists mh | discriminate]. }
    destruct Hmh as [mh Hmh]. exists h.
    now apply pool_step_sending with (m := mh).
  - exists i. unfold pool_step. rewrite Hm, send_steps_nth.
    assert (Hpc : pc s i = 0).
    { pose proof (Hbound i m Hm) as Hle.
      unfold finished in Hfin. rewrite Hm in Hfin.
      apply Nat.eqb_neq in Hfin. rewrite send_steps_length in Hle, Hfin.
      destruct (sending msgs s i) eqn:Hs.
      - apply Hhold in Hs. congruence.
      - unfold sending in Hs. rewrite Hm in Hs.
        apply andb_false_iff in Hs.
        destruct Hs as [Hs | Hs]; apply Nat.leb_gt in Hs; lia. }
    rewrite Hpc. destruct (send_lock (out_send m)). rewrite Hh.
    eexists. reflexivity.
Qed.

Lemma send_lock_never_deadlocks_witness :
  let msgs := [{| out_send := SendToScheduler; out_header := "h0";
                  out_result := "r0" |};
               {| out_send := SendToWorker "bob"; out_header := "h1";
                  out_result := "r1" |}] in
  exists j s', pool_step msgs j (pool_run msgs [1; 0; 1; 0]) = Some s'.
Proof.
  intro msgs.
  apply (@send_lock_never_deadlocks msgs [1; 0; 1; 0] 0
           {| out_send := SendToScheduler; out_header := "h0";
              out_result := "r0" |}); reflexivity.
Defined.

(** X21.  No frame of a reply is lost, repeated or mixed with another:
    in every state that the sending threads can reach, the frames
    written so far are the whole messages of the threads that have
    finished, each once, in the order in which they finished, followed
    by the frames that the holder of the lock has written of its
    message.  When every thread has finished, the wire is the messages
    one after the other. *)
Theorem every_reply_is_written_once_and_whole :
  forall (msgs : list outgoing) (schedule : list nat),
    let s := pool_run msgs schedule in
    exists done,
      NoDup done
      /\ (forall i, In i done <-> finished msgs s i = true)
      /\ rev (wire s)
         = flat_map (wire_frames msgs) done ++ partial_frames msgs s
      /\ ((forall i, i < List.length msgs -> finished msgs s i = true) ->
          rev (wire s) = flat_map (wire_frames msgs) done
          /\ List.length done = List.length msgs).
Proof.
  intros msgs schedule s.
  destruct (pool_run_inv_done msgs schedule)
    as [Hbound (done & Hnd & Hdone & Hwire)].
  destruct (pool_run_inv msgs schedule) as [Hhold _].
  fold s in Hbound, Hdone, Hwire, Hhold.
  exists done. repeat split; try assumption; try (now apply Hdone).
  - rewrite Hwire.
    assert (Hnone : partial_frames msgs s = []).
    { unfold partial_frames.
      destruct (holder s SelfLock) as [h | ] eqn:Hh; [ | reflexivity].
      exfalso. pose proof (proj1 (Hhold h) eq_refl) as Hs. clear Hh.
      rename Hs into Hh. unfold sending in Hh.
      destruct (nth_error msgs h) as [mh | ] eqn:Hmh; [ | discriminate].
      assert (Hlt : h < List.length msgs)
        by (apply nth_error_Some; congruence).
      pose proof (H h Hlt) as Hf. unfold finished in Hf.
      rewrite Hmh, send_steps_length in Hf. apply Nat.eqb_eq in Hf.
      apply andb_true_iff in Hh. destruct Hh as [_ Hh].
      apply Nat.leb_le in Hh. lia. }
    now rewrite Hnone, app_nil_r.
  - assert (Hperm : forall i, In i done <-> In i (seq 0 (List.length msgs))).
    { intro i. rewrite in_seq, Hdone. split.
      - intro Hf. unfold finished in Hf.
        destruct (nth_error msgs i) eqn:Hm; [ | discriminate].
        split; [lia | ]. apply nth_error_Some. congruence.
      - intros [_ Hlt]. now apply H. }
    rewrite <- (length_seq (List.length msgs) 0).
    apply Nat.le_antisymm.
    + apply NoDup_incl_length; [exact Hnd | ]. intros x Hx. now apply Hperm.
    + apply NoDup_incl_length; [apply seq_NoDup | ].
      intros x Hx. now apply Hperm.
Qed.

Lemma every_reply_is_written_once_and_whole_witness :
  let msgs := [{| out_send := SendToScheduler; out_header := "h0";
                  out_result := "r0" |};
               {| out_send := SendToWorker "bob"; out_header := "h1";
                  out_result := "r1" |}] in
  let s := pool_run msgs [1; 0; 1; 0; 1; 1; 1; 0; 0; 0; 0] in
  exists done,
    rev (wire s) = flat_map (wire_frames msgs) done
    /\ List.length done = List.length msgs.
Proof.
  intros msgs s.
  destruct (every_reply_is_written_once_and_whole msgs
              [1; 0; 1; 0; 1; 1; 1; 0; 0; 0; 0])
    as (done & _ & _ & _ & Hall).
  exists done. apply Hall.
  intros i Hi. destruct i as [ | [ | i]]; [reflexivity | reflexivity | ].
  simpl in Hi. lia.
Defined.

(** ** Two workers: [collect] against a peer that runs this module *)

Section TwoNodes.

Variables E E' : Env.

Hypothesis Hser : same_serializer E E'.
Hypothesis Hrt : serializer_round_trip E.

Lemma peer_loads v b : dumps E v = Ret b -> loads E' b = Ret v.
Proof. intro H. destruct Hser as [_ Hl]. rewrite Hl. now apply Hrt. Qed.

Lemma peer_run_getitem k w :
  hashable k = true ->
  run_function E' (VStr "getitem") [k] (VDict []) w
  = (Ret (getitem_outcome k (data w)), w).
Proof.
  intro Hk. unfold getitem_outcome.
  destruct (dict_lookup k (data w)) as [v | ] eqn:Hl.
  - apply run_function_ok. now apply call_getitem_present.
  - apply (run_function_raise E' "getitem" (h := HGetitem) [k] (VDict []) w
             (e := KeyError k) eq_refl); [ | reflexivity].
    now apply call_getitem_absent.
Qed.

(** What a running worker answers to the [getitem] request of
    [collect]. *)
Lemma worker_reply_getitem pw ident a k hb pb hb' pb' :
  String.eqb (status pw) "closed" = false ->
  hashable k = true ->
  dumps E (request_header a k) = Ret hb ->
  dumps E (request_payload k) = Ret pb ->
  dumps E (VDict [(VStr "jobid", k);
                  (VStr "status", VStr (fst (getitem_outcome k (data pw))));
                  (VStr "address", VStr (address pw))]) = Ret hb' ->
  dumps E (snd (getitem_outcome k (data pw))) = Ret pb' ->
  worker_reply E' pw ident [hb; pb] = Some [hb'; pb'].
Proof.
  intros Hrun Hk Hhb Hpb Hhb' Hpb'.
  assert (Hun : unpack_function E' hb pb
                = Ret (VStr "getitem", [k], VDict [], k, VBool true)).
  { eapply request_unpacks; apply peer_loads; eassumption. }
  assert (Hloop : listen_to_workers E' [Incoming [ident; hb; pb]] pw
                  = listen_to_workers E' []
                      (push_job {| job_func := VStr "getitem";
                                   job_args := [k]; job_kwargs := VDict [];
                                   job_jobid := k;
                                   job_send :=
                                     if truthy (VBool true)
                                     then Some (SendToWorker ident)
                                     else None |} pw)).
  { eapply listen_to_workers_incoming.
    - exact Hrun.
    - exact Hun.
    - apply peer_loads. exact Hhb.
    - reflexivity. }
  unfold worker_reply. rewrite Hloop. simpl.
  unfold reply_of. simpl.
  match goal with
  | |- context [execute_and_reply ?E0 ?f ?ar ?kw ?j ?s ?w0] =>
      assert (R : run_function E0 f ar kw w0
                  = (Ret (getitem_outcome k (data w0)), w0))
        by (apply peer_run_getitem; exact Hk);
      cbn [data push_job] in R;
      destruct (getitem_outcome k (data pw)) as [st result];
      rewrite (execute_and_reply_after_run E0 f ar kw j s w0 R)
  end.
  simpl. unfold send_to_worker, bind, get_node, lift, modify. simpl.
  destruct Hser as [Hd _]. rewrite !Hd. simpl in Hhb', Hpb'.
  now rewrite Hhb', Hpb'.
Qed.

Lemma collect_single k peer w hb pb hb' pb' hv pv :
  hashable k = true ->
  dict_mem k (data w) = false ->
  connect_ok E peer = true ->
  dumps E (request_header (address w) k) = Ret hb ->
  dumps E (request_payload k) = Ret pb ->
  peer_reply E (List.length (peer_socks w)) peer [hb; pb] = Some [hb'; pb'] ->
  loads E hb' = Ret (VDict hv) ->
  dict_lookup (VStr "address") hv <> None ->
  dict_lookup (VStr "jobid") hv = Some k ->
  loads E pb' = Ret pv ->
  exists w1,
    collect E (VDict [(k, VList [VStr peer])]) w = (Ret VNone, w1)
    /\ data w1 = dict_set k pv (data w)
    /\ map sock_sent (peer_socks w1) = [hb; pb] :: map sock_sent (peer_socks w).
Proof.
  intros Hk Hm Hc Hhb Hpb Hrep Hh Ha Hj Hp.
  unfold collect. unfold bind at 1. simpl py_items. unfold lift at 1.
  unfold bind at 1. simpl collect_send.
  unfold bind at 1. unfold contains. rewrite Hk, Hm.
  unfold bind at 1. unfold choice.
  change (List.length [VStr peer]) with 1. rewrite Nat.mod_1_r.
  change (nth 0 [VStr peer] VNone) with (VStr peer).
  unfold bind at 1. unfold connect. rewrite Hc. unfold ret at 1.
  unfold bind at 1. unfold get_node at 1.
  unfold bind at 1. unfold lift at 1. simpl address. rewrite Hhb.
  unfold bind at 1. unfold lift at 1. rewrite Hpb.
  unfold bind at 1. unfold send_request at 1. unfold ret at 1.
  simpl app. simpl peer_socks.
  unfold bind at 1. simpl collect_recv.
  unfold bind at 1. unfold recv.
  cbn [sock_id sock_peer sock_sent peer_socks tick_rand].
  rewrite Hrep. unfold ret at 1.
  unfold bind at 1. unfold lift at 1. rewrite Hh.
  unfold bind at 1. unfold lift at 1. rewrite Hp.
  unfold bind at 1. unfold lift at 1. unfold py_getitem.
  destruct (dict_lookup (VStr "address") hv) as [a | ];
    [ | now destruct Ha].
  unfold bind at 1. unfold lift at 1. rewrite Hj.
  unfold bind at 1. unfold lift at 1.
  unfold bind at 1. unfold setitem. rewrite Hk.
  eexists. split; [reflexivity | ]. split; reflexivity.
Qed.

End TwoNodes.

(** X22.  A worker of this module, running, answers the [getitem]
    request of another worker's [collect] under the job identifier of
    the request: with peers that are such workers, sharing a serializer
    that reads back what it writes, the correlation rule that [collect]
    relies on holds. *)
Theorem worker_peers_keep_the_correlation_rule (E E' : Env) :
  forall (peer_node : nat -> string -> node)
         (identity : nat -> string -> bytes),
    same_serializer E E' ->
    serializer_round_trip E ->
    (forall n peer,
        String.eqb (status (peer_node n peer)) "closed" = false) ->
    (forall n peer request,
        peer_reply E n peer request
        = worker_reply E' (peer_node n peer) (identity n peer) request) ->
    peers_echo_jobid E.
Proof.
  intros peer_node identity Hser Hrt Hnode Hpeers
         n peer a k hb pb h p hv j Hhb Hpb Hrep Hh Hj.
  rewrite Hpeers in Hrep. unfold worker_reply in Hrep.
  pose proof (Hnode n peer) as Hrun.
  assert (Hun : unpack_function E' hb pb
                = Ret (VStr "getitem", [k], VDict [], k, VBool true)).
  { eapply request_unpacks; eapply peer_loads; eassumption. }
  assert (Hloop : listen_to_workers E' [Incoming [identity n peer; hb; pb]]
                    (peer_node n peer)
                  = listen_to_workers E' []
                      (push_job {| job_func := VStr "getitem";
                                   job_args := [k]; job_kwargs := VDict [];
                                   job_jobid := k;
                                   job_send :=
                                     if truthy (VBool true)
                                     then Some (SendToWorker (identity n peer))
                                     else None |} (peer_node n peer))).
  { eapply listen_to_workers_incoming.
    - exact Hrun.
    - exact Hun.
    - eapply peer_loads; eassumption.
    - reflexivity. }
  rewrite Hloop in Hrep. simpl in Hrep.
  unfold reply_of in Hrep. simpl in Hrep.
  match type of Hrep with
  | context [execute_and_reply ?E0 ?f ?ar ?kw ?j0 ?s ?w0] =>
      destruct (run_function E0 f ar kw w0) as [[[st result] | e |] w2] eqn:R;
      [ rewrite (execute_and_reply_after_run E0 f ar kw j0 s w0 R) in Hrep
      | unfold execute_and_reply, bind in Hrep; rewrite R in Hrep;
        discriminate
      | unfold execute_and_reply, bind in Hrep; rewrite R in Hrep;
        discriminate ]
  end.
  simpl in Hrep.
  destruct (send_to_worker E' (identity n peer) (reply_header k st) result w2)
    as [[[] | e |] w3] eqn:S; try discriminate.
  apply send_to_worker_sent in S. destruct S as (hb' & pb' & Hhb' & _ & ->).
  simpl in Hrep. injection Hrep as <- <-.
  destruct Hser as [Hd _]. rewrite Hd in Hhb'.
  rewrite (Hrt _ _ Hhb') in Hh. injection Hh as <-.
  simpl in Hj. now injection Hj as <-.
Qed.

(** ** The sample serializer reads back what it writes *)

Lemma table_loads_In t b v :
  NoDup (map fst t) -> In (b, v) t -> table_loads t b = Ret v.
Proof.
  induction t as [ | [b' v'] t IH]; simpl; intros Hnd Hin; [contradiction | ].
  inversion Hnd as [ | ? ? Hn Hnd']; subst.
  destruct Hin as [Heq | Hin].
  - injection Heq as -> ->. now rewrite String.eqb_refl.
  - destruct (String.eqb b' b) eqn:Hb.
    + apply String.eqb_eq in Hb. subst b'. exfalso. apply Hn.
      apply in_map_iff. now exists (b, v).
    + now apply IH.
Qed.

Lemma distinct_NoDup (l : list string) : distinct l = true -> NoDup l.
Proof.
  induction l as [ | x rest IH]; simpl; intro H; [constructor | ].
  apply andb_true_iff in H. destruct H as [Hx Hr].
  constructor; [ | now apply IH].
  intro Hin. apply negb_true_iff in Hx.
  assert (Ht : existsb (String.eqb x) rest = true).
  { apply existsb_exists. exists x. split; [exact Hin | ].
    apply String.eqb_refl. }
  congruence.
Qed.

Lemma sample_codec_round_trip (eval : store -> pyval -> outcome pyval)
    (peers : nat -> string -> list bytes -> option (list bytes)) :
  serializer_round_trip (sample_env sample_codec eval peers).
Proof.
  intros v b H.
  change (table_dumps sample_codec v = Ret b) in H.
  change (table_loads sample_codec b = Ret v).
  apply table_loads_In.
  - apply distinct_NoDup. vm_compute. reflexivity.
  - now apply table_dumps_In.
Qed.

Lemma worker_peers_keep_the_correlation_rule_witness :
  peers_echo_jobid (alice_E [(VStr "y", VInt 2)]).
Proof.
  apply (@worker_peers_keep_the_correlation_rule
           (alice_E [(VStr "y", VInt 2)]) sample_E
           (fun _ _ => bob_node [(VStr "y", VInt 2)]) (fun _ _ => "alice-1")).
  - split; reflexivity.
  - apply sample_codec_round_trip.
  - reflexivity.
  - reflexivity.
Defined.

(** X23.  [collect] against a worker of this module.  For one key that
    the store does not hold and one candidate peer, a running worker
    with the same serializer: when the request and the reply can be
    serialized, [collect] returns, one request has been sent, and the
    store is the one of before with, assigned under the key, what the
    peer's [getitem] gave, which is the peer's value when the peer holds
    the key and the [KeyError] itself when it does not; the status of
    the reply is not looked at.  A lookup of the key gives that value
    when the key is equal to itself, and every key that is not equal to
    it reads as before. *)
Theorem collect_stores_what_the_peer_answers (E E' : Env) :
  forall (w pw : node) (ident : bytes) (peer : string) (k : pyval)
         (hb pb hb' pb' : bytes),
    same_serializer E E' ->
    serializer_round_trip E ->
    hashable k = true ->
    dict_mem k (data w) = false ->
    connect_ok E peer = true ->
    String.eqb (status pw) "closed" = false ->
    (forall request,
        peer_reply E (List.length (peer_socks w)) peer request
        = worker_reply E' pw ident request) ->
    dumps E (request_header (address w) k) = Ret hb ->
    dumps E (request_payload k) = Ret pb ->
    dumps E (VDict [(VStr "jobid", k);
                    (VStr "status", VStr (fst (getitem_outcome k (data pw))));
                    (VStr "address", VStr (address pw))]) = Ret hb' ->
    dumps E (snd (getitem_outcome k (data pw))) = Ret pb' ->
    let answer := match dict_lookup k (data pw) with
                  | Some v => v
                  | None => VExc "KeyError" k
                  end in
    exists w1,
      collect E (VDict [(k, VList [VStr peer])]) w = (Ret VNone, w1)
      /\ data w1 = dict_set k answer (data w)
      /\ (key_eqb k k = true -> dict_lookup k (data w1) = Some answer)
      /\ (forall k', key_eqb k k' = false ->
            dict_lookup k' (data w1) = dict_lookup k' (data w))
      /\ map sock_sent (peer_socks w1)
         = [hb; pb] :: map sock_sent (peer_socks w).
Proof.
  intros w pw ident peer k hb pb hb' pb'
         Hser Hrt Hk Hm Hc Hrun Hpeer Hhb Hpb Hhb' Hpb' answer.
  assert (Hrep : peer_reply E (List.length (peer_socks w)) peer [hb; pb]
                 = Some [hb'; pb']).
  { rewrite Hpeer. eapply worker_reply_getitem; eassumption. }
  assert (Hanswer : snd (getitem_outcome k (data pw)) = answer).
  { unfold getitem_outcome, answer. now destruct (dict_lookup k (data pw)). }
  assert (Hcollect :
            exists w1,
              collect E (VDict [(k, VList [VStr peer])]) w = (Ret VNone, w1)
              /\ data w1
                 = dict_set k (snd (getitem_outcome k (data pw))) (data w)
              /\ map sock_sent (peer_socks w1)
                 = [hb; pb] :: map sock_sent (peer_socks w)).
  { eapply collect_single with
      (hv := [(VStr "jobid", k);
              (VStr "status", VStr (fst (getitem_outcome k (data pw))));
              (VStr "address", VStr (address pw))])
      (pv := snd (getitem_outcome k (data pw)));
      try eassumption.
    - apply Hrt. exact Hhb'.
    - discriminate.
    - reflexivity.
    - apply Hrt. exact Hpb'. }
  destruct Hcollect as (w1 & Hcol & Hd & Hs).
  rewrite Hanswer in Hd.
  exists w1. split; [exact Hcol | ]. split; [exact Hd | ]. rewrite Hd.
  split; [ | split].
  - intro Hself. now apply dict_lookup_set_same.
  - intros k' Hne. now apply dict_lookup_set_other.
  - exact Hs.
Qed.

Lemma collect_stores_what_the_peer_answers_witness :
  let E := alice_E [(VStr "y", VInt 2)] in
  exists w1,
    collect E (VDict [(VStr "y", VList [VStr "tcp://bob:5000"])])
      (sample_node [(VStr "x", VInt 1)])
    = (Ret VNone, w1)
    /\ data w1 = [(VStr "x", VInt 1); (VStr "y", VInt 2)]
    /\ dict_lookup (VStr "y") (data w1) = Some (VInt 2)
    /\ dict_lookup (VStr "x") (data w1) = Some (VInt 1)
    /\ map sock_sent (peer_socks w1)
       = [["Q:alice,y"; "P:getitem(y,)"]].
Proof.
  intro E.
  destruct (@collect_stores_what_the_peer_answers E sample_E
              (sample_node [(VStr "x", VInt 1)])
              (bob_node [(VStr "y", VInt 2)]) "alice-1" "tcp://bob:5000"
              (VStr "y") "Q:alice,y" "P:getitem(y,)" "R:bob,y,OK" "2"
              (conj (fun _ => eq_refl) (fun _ => eq_refl))
              (sample_codec_round_trip _ _)
              eq_refl eq_refl eq_refl eq_refl (fun _ => eq_refl)
              eq_refl eq_refl eq_refl eq_refl)
    as (w1 & Hcol & Hd & Hkey & Hother & Hs).
  exists w1. split; [exact Hcol | ]. split; [exact Hd | ].
  split; [exact (Hkey eq_refl) | ].
  split; [exact (Hother (VStr "x") eq_refl) | exact Hs].
Defined.

(** ** [collect] twice *)

Section CollectAgain.

Variable E : Env.

Lemma collect_send_covers items : forall socks w socks' w',
  collect_send E items socks w = (Ret socks', w') ->
  (forall s, In s socks -> In s socks')
  /\ Forall (fun kv =>
               hashable (fst kv) = true
               /\ (dict_mem (fst kv) (data w) = true
                   \/ exists s, In s socks'
                                /\ is_request_for E (address w) (fst kv) s))
       items.
Proof.
  induction items as [ | [key locs] rest IH]; intros socks w socks' w' H.
  - injection H as <- <-. split; [auto | constructor].
  - simpl in H. unfold bind at 1 in H. unfold contains in H.
    destruct (hashable key) eqn:Hk; [ | discriminate].
    destruct (dict_mem key (data w)) eqn:Hm.
    + apply IH in H. destruct H as [Hin Hall].
      split; [exact Hin | ]. constructor; [ | exact Hall].
      simpl. auto.
    + unfold bind at 1 in H.
      pose proof (choice_same E locs w) as (Hd1 & Ha1 & _).
      destruct (choice E locs w) as [[peer | e |] w1]; simpl in Hd1, Ha1;
        try discriminate.
      unfold bind at 1 in H.
      pose proof (connect_same E peer w1) as Hc.
      destruct (connect E peer w1) as [[a | e |] w2]; simpl in Hc; subst w2;
        try discriminate.
      unfold bind at 1 in H. unfold get_node in H.
      unfold bind at 1 in H. unfold lift at 1 in H.
      destruct (dumps E (request_header (address w1) key))
        as [hb | e |] eqn:Hhb; try discriminate.
      unfold bind at 1 in H. unfold lift at 1 in H.
      destruct (dumps E (request_payload key)) as [pb | e |] eqn:Hpb;
        try discriminate.
      unfold bind at 1 in H. unfold send_request at 1 in H.
      apply IH in H. destruct H as [Hin Hall]. simpl in Hall.
      split.
      * intros s Hs. apply Hin. apply in_or_app. now left.
      * constructor.
        -- simpl. split; [exact Hk | ]. right.
           eexists. split.
           ++ apply Hin. apply in_or_app. right. left. reflexivity.
           ++ exists hb, pb. rewrite <- Ha1. now repeat split.
        -- eapply Forall_impl; [ | exact Hall].
           intros kv [Hh Hor]. split; [exact Hh | ].
           rewrite <- Hd1, <- Ha1. exact Hor.
Qed.

Lemma collect_send_all_present items : forall socks w,
  Forall (fun kv => hashable (fst kv) = true
                    /\ dict_mem (fst kv) (data w) = true) items ->
  collect_send E items socks w = (Ret socks, w).
Proof.
  induction items as [ | [key locs] rest IH]; intros socks w Hall.
  - reflexivity.
  - inversion Hall as [ | ? ? [Hk Hm] Hrest]; subst. simpl in Hk, Hm.
    simpl. unfold bind at 1. unfold contains. rewrite Hk, Hm.
    now apply IH.
Qed.

Lemma Forall2_In_l {A B : Type} (P : A -> B -> Prop) l l' x :
  Forall2 P l l' -> In x l -> exists y, In y l' /\ P x y.
Proof.
  intro H. induction H as [ | a b l l' Hab H IH]; simpl; [contradiction | ].
  intros [<- | Hin].
  - exists b. auto.
  - destruct (IH Hin) as (y & Hy & Hp). exists y. auto.
Qed.

End CollectAgain.

(** X24.  With peers that keep to the correlation rule and keys that are
    equal to themselves (no NaN among them), a [collect] that has
    returned has left every key of [locations] in the Data Store, so
    that the same [collect] called again sends nothing, reads nothing
    and returns with the node as it is. *)
Theorem collect_again_is_a_no_op (E : Env) :
  forall (items : store) (v : pyval) (w w1 : node),
    peers_echo_jobid E ->
    Forall (fun kv => key_eqb (fst kv) (fst kv) = true) items ->
    collect E (VDict items) w = (Ret v, w1) ->
    (forall k, In k (map fst items) -> dict_mem k (data w1) = true)
    /\ collect E (VDict items) w1 = (Ret VNone, w1).
Proof.
  intros items v w w1 Hecho Hself H.
  unfold collect in H. unfold bind at 1 in H. simpl in H.
  unfold bind at 1 in H.
  destruct (collect_send E items [] w) as [[socks | e |] w0] eqn:Hsend;
    try discriminate.
  pose proof Hsend as Hspec. apply collect_send_spec in Hspec.
  destruct Hspec as (Hd0 & Ha0 & _).
  pose proof Hsend as Hcov. apply collect_send_covers in Hcov.
  destruct Hcov as [_ Hcov].
  unfold bind at 1 in H.
  destruct (collect_recv E socks w0) as [[[] | e |] w2] eqn:Hrecv;
    try discriminate.
  injection H as _ <-.
  apply collect_recv_spec in Hrecv.
  destruct Hrecv
    as (_ & _ & _ & done & rest & fetched & Hsplit & Hf & Hd2 & Hr).
  rewrite (Hr tt eq_refl), app_nil_r in Hsplit. subst done.
  assert (Hall : Forall (fun kv => hashable (fst kv) = true
                                   /\ dict_mem (fst kv) (data w2) = true)
                   items).
  { rewrite Forall_forall in Hcov, Hself. apply Forall_forall.
    intros [k locs] Hin.
    destruct (Hcov _ Hin) as [Hk Hor]. specialize (Hself _ Hin).
    simpl in *. split; [exact Hk | ].
    rewrite Hd2, Hd0.
    destruct Hor as [Hm | (s & Hs & hb & pb & Hhb & Hpb & Hsent)].
    - now apply store_all_mem_keeps.
    - apply store_all_mem; [exact Hself | ].
      assert (Hex : exists jv, In jv fetched /\ fetched_from E s jv)
        by (eapply Forall2_In_l; eassumption).
      destruct Hex as ([j pv] & Hj' & h & p & hv & Hrep & Hh & Hj & _).
      simpl in Hj. rewrite Hsent in Hrep.
      rewrite <- (Hecho _ _ _ _ _ _ _ _ _ _ Hhb Hpb Hrep Hh Hj).
      apply in_map_iff. now exists (j, pv). }
  split.
  - intros k Hk. apply in_map_iff in Hk. destruct Hk as ([k' locs] & <- & Hin).
    rewrite Forall_forall in Hall. now destruct (Hall _ Hin).
  - unfold collect. unfold bind at 1. simpl. unfold bind at 1.
    rewrite collect_send_all_present by exact Hall. reflexivity.
Qed.

Lemma collect_again_is_a_no_op_witness :
  let items := [(VStr "x", VList [VStr "tcp://carol:5000"]);
                (VStr "y", VList [VStr "tcp://bob:5000"])] in
  let w1 := snd (collect sample_E (VDict items)
                   (sample_node [(VStr "x", VInt 1)])) in
  data w1 = [(VStr "x", VInt 1); (VStr "y", VInt 2)]
  /\ (forall k, In k (map fst items) -> dict_mem k (data w1) = true)
  /\ collect sample_E (VDict items) w1 = (Ret VNone, w1).
Proof.
  intros items w1. split; [vm_compute; reflexivity | ].
  apply (@collect_again_is_a_no_op sample_E items VNone
           (sample_node [(VStr "x", VInt 1)]) w1).
  - exact sample_peers_echo.
  - repeat constructor.
  - vm_compute. reflexivity.
Defined.

(** ** Exceptions that are no [Exception] *)

(** X25.  The [except] clauses of [compute] and of [execute_and_reply]
    name [Exception]: when [collect] has returned and the evaluator
    raises an exception that is none ([SystemExit], say), the exception
    leaves [compute], which returns no record, and then leaves
    [execute_and_reply], with a reply sink or without: no reply is sent,
    and the Data Store is the one [collect] left. *)
Theorem exit_leaves_compute_and_reply (E : Env) :
  forall (key task locations v jobid : pyval) (send : option sender)
         (w w1 : node) (e : exn),
    collect E locations w = (Ret v, w1) ->
    dask_get E (data w1) task = Raise e ->
    is_Exception e = false ->
    exists w2,
      compute E key task locations w = (Raise e, w2)
      /\ execute_and_reply E (VStr "compute") [key; task; locations] (VDict [])
           jobid send w
         = (Raise e, w2)
      /\ data w2 = data w1
      /\ dealer_out w2 = dealer_out w
      /\ router_out w2 = router_out w.
Proof.
  intros key task locations v jobid send w w1 e Hc He Hx.
  pose proof (compute_on_exit E key task locations w Hc He Hx) as Hcompute.
  exists (tick_clock w1). split; [exact Hcompute | ].
  assert (Hrun : run_function E (VStr "compute") [key; task; locations]
                   (VDict []) w
                 = (Raise e, tick_clock w1)).
  { apply run_function_escape; [ | exact Hx]. now rewrite call_compute. }
  split.
  - unfold execute_and_reply, bind. now rewrite Hrun.
  - pose proof (quiet_collect E locations w) as Hq. rewrite Hc in Hq.
    simpl in Hq. simpl. tauto.
Qed.

Lemma exit_leaves_compute_and_reply_witness :
  let w := sample_node [(VStr "x", VInt 1)] in
  let locations := VDict [(VStr "y", VList [VStr "tcp://bob:5000"])] in
  exists w2,
    compute exit_E (VStr "w") (VStr "x") locations w
    = (Raise (Exc "SystemExit" (VInt 1)), w2)
    /\ execute_and_reply exit_E (VStr "compute")
         [VStr "w"; VStr "x"; locations] (VDict []) (VInt 7)
         (Some SendToScheduler) w
       = (Raise (Exc "SystemExit" (VInt 1)), w2)
    /\ data w2 = [(VStr "x", VInt 1); (VStr "y", VInt 2)]
    /\ dealer_out w2 = dealer_out w
    /\ router_out w2 = router_out w.
Proof.
  intros w locations.
  assert (Hcollect : collect exit_E locations w
                     = (Ret VNone, snd (collect exit_E locations w)))
    by (vm_compute; reflexivity).
  destruct (@exit_leaves_compute_and_reply exit_E (VStr "w") (VStr "x")
              locations VNone (VInt 7) (Some SendToScheduler) w
              (snd (collect exit_E locations w))
              (Exc "SystemExit" (VInt 1)) Hcollect eq_refl eq_refl)
    as (w2 & Hcompute & Hreply & Hdata & Hd & Hr).
  exists w2. split; [exact Hcompute | ]. split; [exact Hreply | ].
  split; [ | split; assumption].
  rewrite Hdata. vm_compute. reflexivity.
Defined.

(** ** Keys that are equal *)

(** X26.  The Data Store finds a key by [==]: what [setitem] has stored
    under a hashable key is what [getitem] gives under any key equal to
    it, [1], [True] and [1.0] being one key; and [delitem] under an
    equal key removes it. *)
Theorem equal_keys_are_one_key (E : Env) :
  forall (k k' v : pyval) (w : node),
    hashable k = true ->
    hashable k' = true ->
    key_eqb k k' = true ->
    exists w1,
      run_function E (VStr "setitem") [k; v] (VDict []) w
      = (Ret ("OK", VNone), w1)
      /\ run_function E (VStr "getitem") [k'] (VDict []) w1
         = (Ret ("OK", v), w1)
      /\ run_function E (VStr "delitem") [k'] (VDict []) w1
         = (Ret ("OK", VNone), set_data (dict_del k' (data w1)) w1)
      /\ (unique_keys (data w) ->
          dict_lookup k (dict_del k' (data w1)) = None).
Proof.
  intros k k' v w Hk Hk' He.
  exists (set_data (dict_set k v (data w)) w).
  assert (Hl : dict_lookup k' (dict_set k v (data w)) = Some v)
    by now apply dict_lookup_set_eqv.
  split; [ | split; [ | split]].
  - apply run_function_ok. now apply call_setitem.
  - apply run_function_ok. now apply call_getitem_present.
  - apply run_function_ok. now apply call_delitem_present with (v := v).
  - intro Hu. simpl.
    rewrite (dict_lookup_eqv _ _ (dict_del k' (dict_set k v (data w))) He).
    apply dict_lookup_del_same. now apply unique_keys_set.
Qed.

Lemma equal_keys_are_one_key_witness :
  let one := VFloat (S754_finite false 4503599627370496 (-52)) in
  exists w1,
    run_function sample_E (VStr "setitem") [VInt 1; VStr "a"] (VDict [])
      (sample_node [])
    = (Ret ("OK", VNone), w1)
    /\ run_function sample_E (VStr "getitem") [one] (VDict []) w1
       = (Ret ("OK", VStr "a"), w1)
    /\ run_function sample_E (VStr "delitem") [one] (VDict []) w1
       = (Ret ("OK", VNone), set_data (dict_del one (data w1)) w1)
    /\ dict_lookup (VInt 1) (dict_del one (data w1)) = None.
Proof.
  intro one.
  destruct (@equal_keys_are_one_key sample_E (VInt 1) one (VStr "a")
              (sample_node []) eq_refl eq_refl eq_refl)
    as (w1 & Hset & Hget & Hdel & Hgone).
  exists w1. repeat split; try assumption. apply Hgone. exact I.
Defined.
